(** * Diet data pipeline: aggregation (useDietData.ts) and 3D chart
      normalisation (DietStackedBar3D.vue)

    A shallow embedding of the two source files.

    Modelling conventions.
    - A JavaScript number is an exact rational or one of NaN, +Infinity,
      -Infinity ([num]).  Rounding and overflow of binary64 and the sign
      of zero are not modelled: arithmetic on finite numbers is exact.
      The decimal rendering of a number ([Number_toString]) is left
      abstract.
    - A JavaScript string is a [string] of ASCII characters; [trim] and
      [toLowerCase] act on the ASCII white space and the letters A-Z.
    - A JavaScript object used as a dictionary is the list of its own
      properties in creation order ([obj]); enumeration ([Object_entries])
      puts array-index keys first, in ascending numeric order, as the
      language prescribes, and property reads on an object literal fall
      back to the members of [Object.prototype].
    - Fetching and CSV parsing are outside: [loadData] starts from the
      parsed rows, each an object from header to cell. The refs of the
      composable and the template of the component ([Composable]) take
      the outcome of the fetch and the parser as parameters.

    The first part is the embedding of the two files; the facts and the
    theorems follow. *)

From Stdlib Require Import List String Ascii Bool Arith ZArith NArith.
From Stdlib Require Import QArith Qreduction Qround Permutation Sorted.
From Stdlib Require Import DecimalString Lia.
Import ListNotations.
Local Open Scope string_scope.
Local Open Scope list_scope.

Set Implicit Arguments.

(* ===================================================================== *)
(** ** Numbers *)
(* ===================================================================== *)

Inductive num : Type :=
| Fin (q : Q)
| PInf
| NInf
| NaN.

Definition isNaN (x : num) : bool :=
  match x with NaN => true | _ => false end.

Definition Qis_zero (q : Q) : bool := Qeq_bool q 0.
Definition Qis_neg (q : Q) : bool := negb (Qle_bool 0 q).

(** [x + y] *)
Definition num_add (x y : num) : num :=
  match x, y with
  | NaN, _ | _, NaN => NaN
  | PInf, NInf | NInf, PInf => NaN
  | PInf, _ | _, PInf => PInf
  | NInf, _ | _, NInf => NInf
  | Fin a, Fin b => Fin (Qred (a + b))
  end.

(** [x * y] *)
Definition num_mul (x y : num) : num :=
  match x, y with
  | NaN, _ | _, NaN => NaN
  | Fin a, Fin b => Fin (Qred (a * b))
  | Fin a, PInf | PInf, Fin a =>
      if Qis_zero a then NaN else if Qis_neg a then NInf else PInf
  | Fin a, NInf | NInf, Fin a =>
      if Qis_zero a then NaN else if Qis_neg a then PInf else NInf
  | PInf, PInf | NInf, NInf => PInf
  | PInf, NInf | NInf, PInf => NInf
  end.

(** [x / y] *)
Definition num_div (x y : num) : num :=
  match x, y with
  | NaN, _ | _, NaN => NaN
  | Fin a, Fin b =>
      if Qis_zero b
      then (if Qis_zero a then NaN else if Qis_neg a then NInf else PInf)
      else Fin (Qred (a / b))
  | Fin _, (PInf | NInf) => Fin 0
  | PInf, Fin b => if Qis_neg b then NInf else PInf
  | NInf, Fin b => if Qis_neg b then PInf else NInf
  | (PInf | NInf), (PInf | NInf) => NaN
  end.

(** [x <= y] on numbers; false as soon as one side is NaN. *)
Definition num_leb (x y : num) : bool :=
  match x, y with
  | NaN, _ | _, NaN => false
  | NInf, _ | _, PInf => true
  | Fin a, Fin b => Qle_bool a b
  | _, _ => false
  end.

(** [Math.max(...values)]: -Infinity for no argument, NaN if any argument
    is NaN. *)
Definition max2 (x y : num) : num :=
  match x, y with
  | NaN, _ | _, NaN => NaN
  | _, _ => if num_leb x y then y else x
  end.

Definition Math_max (values : list num) : num :=
  fold_left max2 values NInf.

(** Truthiness of a number: 0 and NaN are falsy. *)
Definition num_truthy (x : num) : bool :=
  match x with
  | NaN => false
  | Fin q => negb (Qis_zero q)
  | _ => true
  end.

(** [x || 0] on numbers. *)
Definition or_zero (x : num) : num :=
  if num_truthy x then x else Fin 0.

(* ===================================================================== *)
(** ** Strings *)
(* ===================================================================== *)

Definition is_space (c : ascii) : bool :=
  let n := nat_of_ascii c in
  (n =? 32)%nat || ((9 <=? n)%nat && (n <=? 13)%nat).

Definition is_digit (c : ascii) : bool :=
  let n := nat_of_ascii c in (48 <=? n)%nat && (n <=? 57)%nat.

Definition is_upper (c : ascii) : bool :=
  let n := nat_of_ascii c in (65 <=? n)%nat && (n <=? 90)%nat.

Definition lower_char (c : ascii) : ascii :=
  if is_upper c then ascii_of_nat (nat_of_ascii c + 32) else c.

Fixpoint str_map (f : ascii -> ascii) (s : string) : string :=
  match s with
  | EmptyString => EmptyString
  | String c t => String (f c) (str_map f t)
  end.

(** [s.toLowerCase()] *)
Definition toLowerCase (s : string) : string := str_map lower_char s.

Fixpoint trimStart (s : string) : string :=
  match s with
  | EmptyString => EmptyString
  | String c t => if is_space c then trimStart t else s
  end.

Fixpoint all_space (s : string) : bool :=
  match s with
  | EmptyString => true
  | String c t => is_space c && all_space t
  end.

Fixpoint trimEnd (s : string) : string :=
  match s with
  | EmptyString => EmptyString
  | String c t => if all_space s then EmptyString else String c (trimEnd t)
  end.

(** [s.trim()] *)
Definition trim (s : string) : string := trimEnd (trimStart s).

(** [s.replace(/,/g, '.')] *)
Definition commas_to_dots (s : string) : string :=
  str_map (fun c => if Ascii.eqb c "," then "."%char else c) s.

(** [names.includes(s)] *)
Definition includes (s : string) (names : list string) : bool :=
  existsb (String.eqb s) names.

(** [s.replace(/\s+/g, '_')]: every maximal run of white space becomes one
    underscore. [in_run] tells that the character before [s] was white
    space, so that the run has its underscore already. *)
Fixpoint underscore_runs (in_run : bool) (s : string) : string :=
  match s with
  | EmptyString => EmptyString
  | String c t =>
      if is_space c then
        if in_run then underscore_runs true t
        else String "_" (underscore_runs true t)
      else String c (underscore_runs false t)
  end.

(** The [transformHeader] option given to the CSV parser
    (useDietData.ts, lines 96-98):
    [header.trim().replace(/\s+/g, '_').toLowerCase()]. *)
Definition transformHeader (header : string) : string :=
  toLowerCase (underscore_runs false (trim header)).

(* ===================================================================== *)
(** ** parseFloat *)
(* ===================================================================== *)

Definition digit_val (c : ascii) : Z := Z.of_nat (nat_of_ascii c - 48).

(** Longest run of decimal digits at the head of [s], most significant
    first, and what follows it. *)
Fixpoint span_digits (s : string) : list Z * string :=
  match s with
  | String c t =>
      if is_digit c
      then let (ds, r) := span_digits t in (digit_val c :: ds, r)
      else ([], s)
  | EmptyString => ([], s)
  end.

Definition digits_value (ds : list Z) : Z :=
  fold_left (fun acc d => 10 * acc + d)%Z ds 0%Z.

Definition strip_sign (s : string) : bool * string :=
  match s with
  | String "-" t => (true, t)
  | String "+" t => (false, t)
  | _ => (false, s)
  end.

(** The optional exponent part: [e] or [E], an optional sign and at least
    one digit; anything else is not part of the literal. *)
Definition exponent_part (s : string) : Z :=
  match s with
  | String c t =>
      if Ascii.eqb c "e" || Ascii.eqb c "E"
      then let (neg, r) := strip_sign t in
           match fst (span_digits r) with
           | [] => 0%Z
           | ds => if neg then (- digits_value ds)%Z else digits_value ds
           end
      else 0%Z
  | EmptyString => 0%Z
  end.

Definition pow10 (e : Z) : Q :=
  match e with
  | Z0 => 1
  | Zpos p => inject_Z (10 ^ Zpos p)
  | Zneg p => Qmake 1 (Pos.pow 10 p)
  end.

(** Value of the longest prefix of [s] that is an unsigned decimal literal
    other than [Infinity]; [None] if there is none. *)
Definition unsigned_decimal (s : string) : option Q :=
  let (ip, r1) := span_digits s in
  let (fp, r2) :=
    match r1 with
    | String "." t => span_digits t
    | _ => ([], r1)
    end in
  match ip, fp with
  | [], [] => None
  | _, _ =>
      let m := digits_value (ip ++ fp) in
      let e := (exponent_part r2 - Z.of_nat (List.length fp))%Z in
      Some (inject_Z m * pow10 e)
  end.

(** [parseFloat(s)]: leading white space is skipped and the longest prefix
    that is a decimal literal is converted; NaN if there is none. *)
Definition parseFloat (s : string) : num :=
  let (neg, r) := strip_sign (trimStart s) in
  if String.prefix "Infinity" r
  then (if neg then NInf else PInf)
  else match unsigned_decimal r with
       | Some q => Fin (Qred (if neg then - q else q))
       | None => NaN
       end.

(* ===================================================================== *)
(** ** Objects used as dictionaries *)
(* ===================================================================== *)

(** Own properties, in creation order. *)
Definition obj (T : Type) : Type := list (string * T).

Fixpoint obj_get {T} (k : string) (o : obj T) : option T :=
  match o with
  | [] => None
  | (k', v) :: t => if String.eqb k k' then Some v else obj_get k t
  end.

Definition obj_has {T} (k : string) (o : obj T) : bool :=
  match obj_get k o with Some _ => true | None => false end.

(** [o[k] = v]: an existing own property keeps its place. *)
Fixpoint obj_set {T} (k : string) (v : T) (o : obj T) : obj T :=
  match o with
  | [] => [(k, v)]
  | (k', v') :: t =>
      if String.eqb k k' then (k', v) :: t else (k', v') :: obj_set k v t
  end.

(** In-place mutation of the value stored under [k] (as [o[k].push(..)]
    does); other properties are untouched. *)
Definition obj_update {T} (k : string) (f : T -> T) (o : obj T) : obj T :=
  map (fun p => if String.eqb k (fst p) then (fst p, f (snd p)) else p) o.

(** A key is an array index when it is the canonical decimal form of an
    integer below 2^32 - 1. *)
Definition array_index (k : string) : option N :=
  match span_digits k with
  | (d :: ds, EmptyString) =>
      let n := digits_value (d :: ds) in
      if (negb (Z.eqb d 0) || match ds with [] => true | _ => false end)
         && (n <=? 4294967294)%Z
      then Some (Z.to_N n) else None
  | _ => None
  end.

Definition is_index (k : string) : bool :=
  match array_index k with Some _ => true | None => false end.

Definition index_of_key (k : string) : N :=
  match array_index k with Some n => n | None => 0%N end.

Fixpoint insert_by_index {T} (e : string * T) (l : list (string * T))
  : list (string * T) :=
  match l with
  | [] => [e]
  | h :: t =>
      if (index_of_key (fst e) <=? index_of_key (fst h))%N
      then e :: l else h :: insert_by_index e t
  end.

Definition sort_by_index {T} (l : list (string * T)) : list (string * T) :=
  fold_right insert_by_index [] l.

(** [Object.entries(o)]: array-index keys in ascending numeric order, then
    the other keys in creation order. *)
Definition Object_entries {T} (o : obj T) : list (string * T) :=
  sort_by_index (filter (fun p => is_index (fst p)) o)
  ++ filter (fun p => negb (is_index (fst p))) o.

(** [Object.keys(o)] *)
Definition Object_keys {T} (o : obj T) : list string :=
  map fst (Object_entries o).

(** Members every object literal inherits from [Object.prototype], with
    the string each converts to (as printed by V8). *)
Definition Object_prototype_functions : list string :=
  [ "hasOwnProperty"; "isPrototypeOf"; "propertyIsEnumerable";
    "toLocaleString"; "toString"; "valueOf";
    "__defineGetter__"; "__defineSetter__";
    "__lookupGetter__"; "__lookupSetter__" ].

Definition inherited (k : string) : option string :=
  if String.eqb k "constructor"
  then Some "function Object() { [native code] }"
  else if String.eqb k "__proto__"
  then Some "[object Object]"
  else if includes k Object_prototype_functions
  then Some (("function " ++ k ++ "() { [native code] }")%string)
  else None.

Definition is_inherited (k : string) : bool :=
  match inherited k with Some _ => true | None => false end.

(** [!!o[k]] for an object literal whose own values are objects. *)
Definition js_has {T} (k : string) (o : obj T) : bool :=
  obj_has k o || is_inherited k.

(** [if (!o[k]) o[k] = fresh] *)
Definition ensure {T} (k : string) (fresh : T) (o : obj T) : obj T :=
  if js_has k o then o else o ++ [(k, fresh)].

(** [Array.from(new Set(l))]: first occurrences, in order. *)
Fixpoint first_seen (l : list string) : list string :=
  match l with
  | [] => []
  | x :: t => x :: filter (fun y => negb (String.eqb x y)) (first_seen t)
  end.

(* ===================================================================== *)
(** ** Values *)
(* ===================================================================== *)

(** The JavaScript values a parsed CSV cell or a property read can yield.
    [VObj s] is an object whose [toString()] is [s] (a [Date] cell, or an
    inherited member of [Object.prototype]). *)
Inductive value : Type :=
| VUndefined
| VNull
| VBool (b : bool)
| VNum (x : num)
| VStr (s : string)
| VObj (s : string).

Definition truthy (v : value) : bool :=
  match v with
  | VUndefined | VNull => false
  | VBool b => b
  | VNum x => num_truthy x
  | VStr s => negb (String.eqb s "")
  | VObj _ => true
  end.

(** [o[k]] on an object literal: own property, else the inherited member,
    else [undefined]. *)
Definition js_get (o : obj value) (k : string) : value :=
  match obj_get k o with
  | Some v => v
  | None => match inherited k with Some s => VObj s | None => VUndefined end
  end.

Section Pipeline.

(** [Number.prototype.toString]: the decimal rendering of a number is left
    abstract; it is only used when a category cell holds a number. *)
Variable Number_toString : num -> string.

(** [String(v)], also the property key [v] denotes in [o[v]]. *)
Definition toString (v : value) : string :=
  match v with
  | VUndefined => "undefined"
  | VNull => "null"
  | VBool true => "true"
  | VBool false => "false"
  | VNum x => Number_toString x
  | VStr s => s
  | VObj s => s
  end.

(** useDietData.ts, lines 64-67. *)
Definition cleanString (str : value) : string :=
  if negb (truthy str) then ""
  else toLowerCase (trim (toString str)).

(** useDietData.ts, lines 70-77. *)
Definition safeParseFloat (v : value) : num :=
  match v with
  | VNum x => x
  | _ =>
      if negb (truthy v) then Fin 0
      else
        let cleanValue := commas_to_dots (trim (toString v)) in
        or_zero (parseFloat cleanValue)
  end.

(* ===================================================================== *)
(** ** The aggregation data model *)
(* ===================================================================== *)

(** The six impact indicators. *)
Inductive indicator : Type :=
| Ghgs | LandUse | WaterScarcity | Eutrophication | Acidification | MeanBio.

Definition all_indicators : list indicator :=
  [Ghgs; LandUse; WaterScarcity; Eutrophication; Acidification; MeanBio].

(** The six coerced numbers of one row. *)
Record readings : Type := mkReadings {
  rd_ghgs : num;
  rd_landUse : num;
  rd_waterScarcity : num;
  rd_eutrophication : num;
  rd_acidification : num;
  rd_mean_bio : num
}.

Definition reading (i : indicator) (r : readings) : num :=
  match i with
  | Ghgs => rd_ghgs r
  | LandUse => rd_landUse r
  | WaterScarcity => rd_waterScarcity r
  | Eutrophication => rd_eutrophication r
  | Acidification => rd_acidification r
  | MeanBio => rd_mean_bio r
  end.

(** A bucket: one array of samples per indicator. *)
Record samples : Type := mkSamples {
  arr_ghgs : list num;
  arr_landUse : list num;
  arr_waterScarcity : list num;
  arr_eutrophication : list num;
  arr_acidification : list num;
  arr_mean_bio : list num
}.

Definition sample_array (i : indicator) (b : samples) : list num :=
  match i with
  | Ghgs => arr_ghgs b
  | LandUse => arr_landUse b
  | WaterScarcity => arr_waterScarcity b
  | Eutrophication => arr_eutrophication b
  | Acidification => arr_acidification b
  | MeanBio => arr_mean_bio b
  end.

Definition empty_samples : samples := mkSamples [] [] [] [] [] [].

(** [if (!isNaN(x)) arr.push(x)] *)
Definition push_unless_NaN (x : num) (arr : list num) : list num :=
  if isNaN x then arr else arr ++ [x].

Definition push_readings (r : readings) (b : samples) : samples :=
  mkSamples
    (push_unless_NaN (rd_ghgs r) (arr_ghgs b))
    (push_unless_NaN (rd_landUse r) (arr_landUse b))
    (push_unless_NaN (rd_waterScarcity r) (arr_waterScarcity b))
    (push_unless_NaN (rd_eutrophication r) (arr_eutrophication b))
    (push_unless_NaN (rd_acidification r) (arr_acidification b))
    (push_unless_NaN (rd_mean_bio r) (arr_mean_bio b)).

(** interface DietData *)
Record DietData : Type := mkDietData {
  dietGroup : string;
  gender : string;
  ageGroup : string;
  ghgs : num;
  landUse : num;
  waterScarcity : num;
  eutrophication : num;
  acidification : num;
  mean_bio : num
}.

Definition field (i : indicator) (d : DietData) : num :=
  match i with
  | Ghgs => ghgs d
  | LandUse => landUse d
  | WaterScarcity => waterScarcity d
  | Eutrophication => eutrophication d
  | Acidification => acidification d
  | MeanBio => mean_bio d
  end.

Definition dietGroupMapping : obj value :=
  [ ("vegan", VStr "vegan"); ("veggie", VStr "vegetarian");
    ("fish", VStr "fish"); ("meat", VStr "low_meat");
    ("meat50", VStr "medium_meat"); ("meat100", VStr "high_meat") ].

Definition genderMapping : obj value :=
  [ ("female", VStr "Female"); ("male", VStr "Male") ].

Definition ageGroupMapping : obj value :=
  [ ("20-29", VStr "20-29"); ("30-39", VStr "30-39");
    ("40-49", VStr "40-49"); ("50-59", VStr "50-59");
    ("60-69", VStr "60-69"); ("70-79", VStr "70-79") ].

Definition columnMap : obj (list string) :=
  [ ("dietGroup", ["diet_group"; "dietgroup"; "diet"]);
    ("gender", ["sex"; "gender"]);
    ("ageGroup", ["age_group"; "agegroup"; "age"]);
    ("ghgs", ["mean_ghgs"; "ghgs"; "greenhouse_gas"]);
    ("landUse", ["mean_land"; "land"; "land_use"]);
    ("waterScarcity", ["mean_watscar"; "water"; "water_scarcity"]);
    ("eutrophication", ["mean_eut"; "eutrophication"]);
    ("acidification", ["mean_acid"; "acidification"]);
    ("mean_bio", ["mean_bio"; "biodiversity"; "bio"]) ].

(* ===================================================================== *)
(** ** Column reconciliation (useDietData.ts, lines 120-137) *)
(* ===================================================================== *)

(** [availableColumns.find(column =>
       possibleNames.includes(column.toLowerCase().trim()))] *)
Definition find_column (availableColumns possibleNames : list string)
  : option string :=
  find (fun column => includes (trim (toLowerCase column)) possibleNames)
       availableColumns.

Definition reconcile_field (availableColumns : list string)
    (actualColumns : obj value) (entry : string * list string) : obj value :=
  let (targetField, possibleNames) := entry in
  match find_column availableColumns possibleNames with
  | Some foundColumn =>
      if truthy (VStr foundColumn)
      then obj_set targetField (VStr foundColumn) actualColumns
      else actualColumns
  | None => actualColumns
  end.

Definition reconcile (data : list (obj value)) : obj value :=
  match data with
  | [] => []
  | sampleRow :: _ =>
      let availableColumns := Object_keys sampleRow in
      fold_left (reconcile_field availableColumns) (Object_entries columnMap) []
  end.

(** [row[actualColumns.<targetField>]] *)
Definition cell (actualColumns : obj value) (targetField : string)
    (row : obj value) : value :=
  js_get row (toString (js_get actualColumns targetField)).

(* ===================================================================== *)
(** ** Canonicalisation of one row (lines 193-205 and 276-281) *)
(* ===================================================================== *)

(** [dietGroupMapping[dietGroup] || dietGroup] *)
Definition standardDietGroup (dietGroup : string) : string :=
  let v := js_get dietGroupMapping dietGroup in
  if truthy v then toString v else dietGroup.

(** [code ? (mapping[code] || 'Unknown') : 'Unknown'] *)
Definition standard_or_Unknown (mapping : obj value) (code : string)
  : string :=
  if truthy (VStr code)
  then (let v := js_get mapping code in
        if truthy v then toString v else "Unknown")
  else "Unknown".

Definition standardGender : string -> string :=
  standard_or_Unknown genderMapping.
Definition standardAgeGroup : string -> string :=
  standard_or_Unknown ageGroupMapping.

(** What one row contributes: its three standard labels and its six
    coerced numbers. *)
Record CanonicalRecord : Type := mkCanonical {
  c_diet : string;
  c_gender : string;
  c_age : string;
  c_values : readings
}.

(** [None] when the row is skipped by [if (!dietGroup) return]. *)
Definition canonical (actualColumns : obj value) (row : obj value)
  : option CanonicalRecord :=
  let dietGroup := cleanString (cell actualColumns "dietGroup" row) in
  let gender := cleanString (cell actualColumns "gender" row) in
  let ageGroup := cleanString (cell actualColumns "ageGroup" row) in
  if negb (truthy (VStr dietGroup)) then None
  else
    Some (mkCanonical
      (standardDietGroup dietGroup)
      (standardGender gender)
      (standardAgeGroup ageGroup)
      (mkReadings
         (safeParseFloat (cell actualColumns "ghgs" row))
         (safeParseFloat (cell actualColumns "landUse" row))
         (safeParseFloat (cell actualColumns "waterScarcity" row))
         (safeParseFloat (cell actualColumns "eutrophication" row))
         (safeParseFloat (cell actualColumns "acidification" row))
         (safeParseFloat (cell actualColumns "mean_bio" row)))).

(* ===================================================================== *)
(** ** Accumulation (lines 142-322) *)
(* ===================================================================== *)

Record State : Type := mkState {
  dietGroupsMap : obj samples;
  genderGroupsMap : obj samples;
  ageGroupsMap : obj samples;
  dietGenderGroupsMap : obj (obj samples);
  dietAgeGroupsMap : obj (obj samples)
}.

Definition initial_state : State := mkState [] [] [] [] [].

(** Initialise the bucket under [k] if needed, then push the row's
    numbers into it. A standard label never names a member of
    [Object.prototype] (lemma [canonical_well_labelled]), so the push
    always finds the bucket initialised here. *)
Definition add_to (k : string) (r : readings) (m : obj samples)
  : obj samples :=
  obj_update k (push_readings r) (ensure k empty_samples m).

(** The same for a bucket of a two-level map. *)
Definition add_to2 (k1 k2 : string) (r : readings) (m : obj (obj samples))
  : obj (obj samples) :=
  obj_update k1 (add_to k2 r) (ensure k1 [] m).

Definition accumulate (st : State) (c : CanonicalRecord) : State :=
  mkState
    (add_to (c_diet c) (c_values c) (dietGroupsMap st))
    (add_to (c_gender c) (c_values c) (genderGroupsMap st))
    (add_to (c_age c) (c_values c) (ageGroupsMap st))
    (add_to2 (c_diet c) (c_gender c) (c_values c) (dietGenderGroupsMap st))
    (add_to2 (c_diet c) (c_age c) (c_values c) (dietAgeGroupsMap st)).

(** The body of [data.forEach(row => ...)]. *)
Definition process_row (actualColumns : obj value) (st : State)
    (row : obj value) : State :=
  match canonical actualColumns row with
  | None => st
  | Some c => accumulate st c
  end.

(* ===================================================================== *)
(** ** Averaging and emission (lines 324-525) *)
(* ===================================================================== *)

(** [arr.reduce((sum, val) => sum + val, 0)] *)
Definition sum (arr : list num) : num := fold_left num_add arr (Fin 0).

(** [arr.length > 0 ? sum / arr.length : 0] *)
Definition average (arr : list num) : num :=
  if (0 <? List.length arr)%nat
  then num_div (sum arr) (Fin (inject_Z (Z.of_nat (List.length arr))))
  else Fin 0.

Definition summary (dietGroup gender ageGroup : string) (groupData : samples)
  : DietData :=
  mkDietData dietGroup gender ageGroup
    (average (arr_ghgs groupData))
    (average (arr_landUse groupData))
    (average (arr_waterScarcity groupData))
    (average (arr_eutrophication groupData))
    (average (arr_acidification groupData))
    (average (arr_mean_bio groupData)).

Definition emit_diet (m : obj samples) : list DietData :=
  map (fun e => summary (fst e) "All" "All" (snd e)) (Object_entries m).

Definition emit_gender (m : obj samples) : list DietData :=
  map (fun e => summary "All" (fst e) "All" (snd e)) (Object_entries m).

Definition emit_age (m : obj samples) : list DietData :=
  map (fun e => summary "All" "All" (fst e) (snd e)) (Object_entries m).

Definition emit_diet_gender (m : obj (obj samples)) : list DietData :=
  flat_map (fun e =>
      map (fun e' => summary (fst e) (fst e') "All" (snd e'))
          (Object_entries (snd e)))
    (Object_entries m).

Definition emit_diet_age (m : obj (obj samples)) : list DietData :=
  flat_map (fun e =>
      map (fun e' => summary (fst e) "All" (fst e') (snd e'))
          (Object_entries (snd e)))
    (Object_entries m).

Definition emit (st : State) : list DietData :=
  emit_diet (dietGroupsMap st)
  ++ emit_gender (genderGroupsMap st)
  ++ emit_age (ageGroupsMap st)
  ++ emit_diet_gender (dietGenderGroupsMap st)
  ++ emit_diet_age (dietAgeGroupsMap st).

(** The state after the [forEach] over the parsed rows. *)
Definition aggregate (actualColumns : obj value) (data : list (obj value))
  : State :=
  fold_left (process_row actualColumns) data initial_state.

(** [loadData], from the parsed rows to the value stored in [dietData]. *)
Definition loadData (data : list (obj value)) : list DietData :=
  emit (aggregate (reconcile data) data).

(** The three computed label lists (lines 45-61). *)
Definition dietGroups (dietData : list DietData) : list string :=
  first_seen (map dietGroup dietData).
Definition genderGroups (dietData : list DietData) : list string :=
  first_seen (map gender dietData).
Definition ageGroups (dietData : list DietData) : list string :=
  first_seen (map ageGroup dietData).

End Pipeline.

(* ===================================================================== *)
(** ** The 3D chart: DietStackedBar3D.vue *)
(* ===================================================================== *)

Module Chart.

(** [indicator.value], the key of an indicator in a record. *)
Definition indicator_value (i : indicator) : string :=
  match i with
  | Ghgs => "ghgs"
  | LandUse => "landUse"
  | WaterScarcity => "waterScarcity"
  | Eutrophication => "eutrophication"
  | Acidification => "acidification"
  | MeanBio => "mean_bio"
  end.

(** [indicator.weight] (lines 31-38). *)
Definition weight (i : indicator) : Q :=
  match i with
  | Ghgs => 1
  | LandUse => 1 # 2
  | WaterScarcity => 3 # 100
  | Eutrophication => 1 # 5
  | Acidification => 1 # 5
  | MeanBio => 2 # 5
  end.

Definition indicators : list indicator := all_indicators.

Definition dietGroupDisplayNames : obj value :=
  [ ("vegan", VStr "Vegan"); ("vegetarian", VStr "Vegetarian");
    ("fish", VStr "Fish-eater"); ("low_meat", VStr "Low Meat");
    ("medium_meat", VStr "Medium Meat"); ("high_meat", VStr "High Meat");
    ("All", VStr "All Diets") ].

Definition ageGroupDisplayNames : obj value :=
  [ ("20-29", VStr "20-29 years"); ("30-39", VStr "30-39 years");
    ("40-49", VStr "40-49 years"); ("50-59", VStr "50-59 years");
    ("60-69", VStr "60-69 years"); ("70-79", VStr "70-79 years");
    ("Unknown", VStr "Unknown age"); ("All", VStr "All Ages") ].

Definition dietOrder : list string :=
  ["vegan"; "vegetarian"; "fish"; "low_meat"; "medium_meat"; "high_meat"].

Definition ageOrder : list string :=
  ["20-29"; "30-39"; "40-49"; "50-59"; "60-69"; "70-79"; "Unknown"].

(** Lines 64-72. *)
Definition filteredData (dietData : list DietData) : list DietData :=
  if (List.length dietData =? 0)%nat then []
  else filter (fun item =>
                 negb (String.eqb (dietGroup item) "All")
                 && negb (String.eqb (ageGroup item) "All")
                 && String.eqb (gender item) "All")
              dietData.

(** [order.indexOf(a)] *)
Fixpoint indexOf (a : string) (order : list string) : Z :=
  match order with
  | [] => -1
  | x :: t =>
      if String.eqb a x then 0
      else let r := indexOf a t in if (r =? -1)%Z then -1 else (r + 1)%Z
  end.

(** The comparator of lines 88-94 and 97-103. *)
Definition by_order (order : list string) (a b : string) : Z :=
  let indexA := indexOf a order in
  let indexB := indexOf b order in
  if (indexA =? -1)%Z then 1
  else if (indexB =? -1)%Z then -1
  else (indexA - indexB)%Z.

(** [Object.fromEntries(l.map((x, index) => [x, index]))] *)
Definition index_map (l : list string) : obj nat :=
  fold_left (fun o e => obj_set (fst e) (snd e) o)
            (combine l (seq 0 (List.length l))) [].

(** One element of a series: [xIndex, yIndex, normalizedValue,
    indicator.value, rawValue]. *)
Record point : Type := mkPoint {
  xIndex : option nat;
  yIndex : option nat;
  normalizedValue : num;
  indicatorValue : string;
  rawValue : num
}.

Record series : Type := mkSeries {
  series_indicator : indicator;
  series_data : list point
}.

Record processed : Type := mkProcessed {
  dietGroups : list value;
  ageGroups : list value;
  seriesData : list series
}.

(** [maxValues[indicator.value]] (lines 110-114). *)
Definition maxValues (filtered : list DietData) (i : indicator) : num :=
  Math_max (map (field i) filtered).

(** [(rawValue / maxValues[indicator.value]) * indicator.weight] *)
Definition normalize (filtered : list DietData) (i : indicator)
    (item : DietData) : num :=
  num_mul (num_div (field i item) (maxValues filtered i)) (Fin (weight i)).

(** Lines 117-125: an empty object for every pair of groups. *)
Definition init_combined (uniqueDietGroups uniqueAgeGroups : list string)
  : obj (obj (obj num)) :=
  fold_left (fun combinedData d =>
      fold_left (fun combinedData a =>
                   obj_update d (obj_set a []) combinedData)
                uniqueAgeGroups (obj_set d [] combinedData))
    uniqueDietGroups [].

(** Lines 128-139: the body of the loop over [filteredData]. Every group
    of [filteredData] received its own object above, so the test of line
    129 reads own properties. *)
Definition fill (filtered : list DietData)
    (combinedData : obj (obj (obj num))) (item : DietData)
  : obj (obj (obj num)) :=
  match obj_get (dietGroup item) combinedData with
  | None => combinedData
  | Some byAge =>
      match obj_get (ageGroup item) byAge with
      | None => combinedData
      | Some _ =>
          fold_left (fun combinedData i =>
              obj_update (dietGroup item)
                (obj_update (ageGroup item)
                   (obj_set (indicator_value i) (normalize filtered i item)))
                combinedData)
            indicators combinedData
      end
  end.

(** [combinedData[d]?.[a]?.[indicator.value] || 0] *)
Definition stored (combinedData : obj (obj (obj num))) (d a : string)
    (i : indicator) : option num :=
  match obj_get d combinedData with
  | None => None
  | Some byAge =>
      match obj_get a byAge with
      | None => None
      | Some cellValues => obj_get (indicator_value i) cellValues
      end
  end.

Definition stored_or_zero (combinedData : obj (obj (obj num))) (d a : string)
    (i : indicator) : num :=
  match stored combinedData d a i with
  | Some x => or_zero x
  | None => Fin 0
  end.

Definition at_groups (d a : string) (item : DietData) : bool :=
  String.eqb (dietGroup item) d && String.eqb (ageGroup item) a.

(** [tbl[x] || x] *)
Definition display (tbl : obj value) (x : string) : value :=
  let v := js_get tbl x in if truthy v then v else VStr x.

Section Sorting.

(** [Array.prototype.sort] with a comparator. The comparators of this
    file are not consistent on labels outside [dietOrder] and [ageOrder],
    for which the order of the result is implementation-defined: only the
    fact that sorting permutes is used. *)
Variable Array_sort : (string -> string -> Z) -> list string -> list string.
Hypothesis Array_sort_permutes :
  forall cmp l, Permutation l (Array_sort cmp l).

Definition uniqueDietGroups (filtered : list DietData) : list string :=
  Array_sort (by_order dietOrder) (first_seen (map dietGroup filtered)).

Definition uniqueAgeGroups (filtered : list DietData) : list string :=
  Array_sort (by_order ageOrder) (first_seen (map ageGroup filtered)).

Definition combinedData (filtered : list DietData) : obj (obj (obj num)) :=
  fold_left (fill filtered) filtered
    (init_combined (uniqueDietGroups filtered) (uniqueAgeGroups filtered)).

(** The point pushed for one indicator and one pair of groups
    (lines 146-160). *)
Definition data_point (filtered : list DietData) (i : indicator)
    (d a : string) : point :=
  let xIndex := obj_get d (index_map (uniqueDietGroups filtered)) in
  let yIndex := obj_get a (index_map (uniqueAgeGroups filtered)) in
  let normalizedValue := stored_or_zero (combinedData filtered) d a i in
  let rawValue :=
    match find (at_groups d a) filtered with
    | Some item => field i item
    | None => Fin 0
    end in
  mkPoint xIndex yIndex normalizedValue (indicator_value i) rawValue.

Definition series_of (filtered : list DietData) (i : indicator) : series :=
  mkSeries i
    (flat_map (fun d => map (data_point filtered i d)
                            (uniqueAgeGroups filtered))
              (uniqueDietGroups filtered)).

(** Lines 75-186. *)
Definition processedData (dietData : list DietData) : processed :=
  let filtered := filteredData dietData in
  if (List.length filtered =? 0)%nat then mkProcessed [] [] []
  else
    mkProcessed
      (map (display dietGroupDisplayNames) (uniqueDietGroups filtered))
      (map (display ageGroupDisplayNames) (uniqueAgeGroups filtered))
      (map (series_of filtered) indicators).

End Sorting.

(** [indicator.label] (lines 31-38). *)
Definition indicator_label (i : indicator) : string :=
  match i with
  | Ghgs => "Greenhouse Gas Emissions"
  | LandUse => "Land Use"
  | WaterScarcity => "Water Scarcity"
  | Eutrophication => "Eutrophication"
  | Acidification => "Acidification"
  | MeanBio => "Biodiversity Impact"
  end.

(** The object [chartOptions] returns (lines 189-288), without its
    constant styling and without the text the tooltip formats: the title,
    and for the full chart the legend entries, the categories of the two
    axes and the series; [series_names] lists the [name] of each series,
    which [series_of] keeps as the indicator itself. *)
Inductive options : Type :=
| TitleOnly (title_text : string)
| FullChart (title_text : string) (legend_data : list string)
    (xAxis3D_data yAxis3D_data : list value) (series_list : list series).

Definition series_names (l : list series) : list string :=
  map (fun s => indicator_label (series_indicator s)) l.

Definition chartOptions (processedData : processed) : options :=
  if (List.length (dietGroups processedData) =? 0)%nat
  then TitleOnly "Environmental Impact by Diet and Age Group"
  else FullChart "Stacked Environmental Impact by Diet Type and Age Group"
         (map indicator_label indicators)
         (dietGroups processedData) (ageGroups processedData)
         (seriesData processedData).

(** [arr[index]], where the index may be [undefined]. *)
Definition at_index (arr : list value) (index : option nat) : value :=
  match index with
  | Some n => match nth_error arr n with Some v => v | None => VUndefined end
  | None => VUndefined
  end.

(** The lookups of the tooltip formatter (lines 218-225): the two
    categories of a point and its indicator. *)
Definition tooltip_dietGroup (processedData : processed) (p : point) : value :=
  at_index (dietGroups processedData) (xIndex p).

Definition tooltip_ageGroup (processedData : processed) (p : point) : value :=
  at_index (ageGroups processedData) (yIndex p).

Definition tooltip_indicator (p : point) : option indicator :=
  find (fun ind => String.eqb (indicator_value ind) (indicatorValue p))
       indicators.

End Chart.

(* ===================================================================== *)
(** ** The reactive state of the composable and the template *)
(* ===================================================================== *)

Module Composable.

(** The four refs of [useDietData] (useDietData.ts, lines 17-20);
    [error] is [null] or a string. *)
Record refs : Type := mkRefs {
  loading : bool;
  error : option string;
  rawData : list (obj value);
  dietData : list DietData
}.

Definition initial_refs : refs := mkRefs true None [] [].

(** What a [throw] or a rejected promise carries: an [Error] with its
    message, or any other value. *)
Inductive thrown : Type :=
| ThrownError (message : string)
| ThrownOther.

(** The outcome of [response.text()]. *)
Inductive body : Type :=
| Text (csvData : string)
| TextRejected (reason : thrown).

(** The outcome of [fetch]: a rejection, or a response with its [ok]
    flag, its status and its body. *)
Inductive fetched : Type :=
| Rejected (reason : thrown)
| Response (ok : bool) (status : N) (text : body).

(** [`${response.status}`] for an integer status. *)
Definition status_text (status : N) : string :=
  NilZero.string_of_uint (N.to_uint status).

(** [err instanceof Error ? err.message : ''] *)
Definition catch_message (err : thrown) : string :=
  match err with
  | ThrownError message => message
  | ThrownOther => ""
  end.

Section Shell.

Variable Number_toString : num -> string.

(** [Papa.parse(csvData, {header: true, ...}).data]: the CSV parser is
    external. *)
Variable Papa_parse : string -> list (obj value).

Variable Array_sort : (string -> string -> Z) -> list string -> list string.

(** The [try] block of [loadData] up to the parsed rows (lines 84-105):
    the value thrown, or the rows. *)
Definition try_block (r : fetched) : thrown + list (obj value) :=
  match r with
  | Rejected reason => inl reason
  | Response false status _ => inl (ThrownError (status_text status))
  | Response true _ (TextRejected reason) => inl reason
  | Response true _ (Text csvData) => inr (Papa_parse csvData)
  end.

(** Lines 80-81, before the first [await]. *)
Definition loadData_begin (st : refs) : refs :=
  mkRefs true None (rawData st) (dietData st).

(** The rest of [loadData] once [fetch] has settled (lines 83-530). The
    parser and the processing of the parsed rows raise no exception, so
    that a [try] block that reaches the rows runs to its end; parse
    errors are only logged. *)
Definition loadData_settle (r : fetched) (st : refs) : refs :=
  match try_block r with
  | inr data =>
      mkRefs false (error st) data (loadData Number_toString data)
  | inl err =>
      mkRefs false (Some (catch_message err)) (rawData st) (dietData st)
  end.

(** One call of [loadData], from its first line to its last. *)
Definition loadData_call (r : fetched) (st : refs) : refs :=
  loadData_settle r (loadData_begin st).

(** What the template of DietStackedBar3D.vue shows (lines 296-304). *)
Inductive view : Type :=
| ShowLoading
| ShowError (message : string)
| ShowChart (opts : Chart.options).

Definition template (st : refs) : view :=
  if loading st then ShowLoading
  else
    let chart :=
      ShowChart (Chart.chartOptions
                   (Chart.processedData Array_sort (dietData st))) in
    match error st with
    | Some message =>
        if truthy (VStr message) then ShowError message else chart
    | None => chart
    end.

End Shell.

End Composable.

(* ===================================================================== *)
(** ** Facts about dictionaries and first occurrences *)
(* ===================================================================== *)

Lemma existsb_eqb_In (x : string) (l : list string) :
  existsb (String.eqb x) l = true <-> In x l.
Proof.
  rewrite existsb_exists. split.
  - intros [y [Hy He]]. apply String.eqb_eq in He. now subst.
  - intros H. exists x. split; [assumption | apply String.eqb_refl].
Qed.

Lemma first_seen_In (x : string) (l : list string) :
  In x (first_seen l) <-> In x l.
Proof.
  revert x. induction l as [|a l IH]; intros x; simpl; [tauto|].
  rewrite filter_In, IH, negb_true_iff. split.
  - intros [H | [H _]]; auto.
  - intros [H | H]; auto.
    destruct (String.eqb_spec a x); auto.
Qed.

Lemma existsb_first_seen (x : string) (l : list string) :
  existsb (String.eqb x) (first_seen l) = existsb (String.eqb x) l.
Proof.
  apply eq_true_iff_eq. rewrite !existsb_eqb_In. apply first_seen_In.
Qed.

Lemma first_seen_NoDup (l : list string) : NoDup (first_seen l).
Proof.
  induction l as [|a l IH]; simpl; constructor.
  - rewrite filter_In, String.eqb_refl. intros [_ H]. discriminate.
  - now apply NoDup_filter.
Qed.

Lemma first_seen_snoc (l : list string) (x : string) :
  first_seen (l ++ [x]) =
  if existsb (String.eqb x) l then first_seen l else first_seen l ++ [x].
Proof.
  induction l as [|a l IH]; simpl; [reflexivity|].
  rewrite IH. rewrite (String.eqb_sym x a).
  destruct (String.eqb_spec a x) as [->|Hne]; simpl.
  - destruct (existsb (String.eqb x) l); [reflexivity|].
    rewrite filter_app. simpl. rewrite String.eqb_refl. simpl.
    now rewrite app_nil_r.
  - destruct (existsb (String.eqb x) l); [reflexivity|].
    rewrite filter_app. simpl.
    destruct (String.eqb_spec a x); [contradiction|]. reflexivity.
Qed.

Lemma obj_get_set {T} (k k' : string) (v : T) (o : obj T) :
  obj_get k (obj_set k' v o)
  = if String.eqb k k' then Some v else obj_get k o.
Proof.
  induction o as [|[k'' v''] t IH]; simpl.
  - now destruct (String.eqb k k').
  - destruct (String.eqb_spec k' k'') as [->|Hne]; simpl.
    + now destruct (String.eqb k k'').
    + rewrite IH. destruct (String.eqb_spec k k'') as [->|]; [|reflexivity].
      destruct (String.eqb_spec k'' k'); [congruence | reflexivity].
Qed.

Lemma obj_get_update {T} (k k' : string) (f : T -> T) (o : obj T) :
  obj_get k (obj_update k' f o)
  = if String.eqb k k' then option_map f (obj_get k o) else obj_get k o.
Proof.
  unfold obj_update. induction o as [|[k'' v''] t IH]; simpl.
  - now destruct (String.eqb k k').
  - destruct (String.eqb_spec k' k'') as [->|Hne]; simpl; rewrite IH.
    + now destruct (String.eqb k k'').
    + destruct (String.eqb_spec k k'') as [->|]; [|reflexivity].
      destruct (String.eqb_spec k'' k'); [congruence | reflexivity].
Qed.

Lemma obj_get_map_keys {T} (f : string -> T) (k : string) (ks : list string) :
  obj_get k (map (fun k' => (k', f k')) ks) =
  if existsb (String.eqb k) ks then Some (f k) else None.
Proof.
  induction ks as [|a ks IH]; simpl; [reflexivity|].
  destruct (String.eqb_spec k a) as [->|]; simpl; [reflexivity | exact IH].
Qed.

Lemma obj_has_map_keys {T} (f : string -> T) (k : string) (ks : list string) :
  obj_has k (map (fun k' => (k', f k')) ks) = existsb (String.eqb k) ks.
Proof.
  unfold obj_has. rewrite obj_get_map_keys.
  now destruct (existsb (String.eqb k) ks).
Qed.

Lemma obj_update_map_keys {T} (f : string -> T) (g : T -> T) (k : string)
    (ks : list string) :
  obj_update k g (map (fun k' => (k', f k')) ks) =
  map (fun k' => (k', if String.eqb k k' then g (f k') else f k')) ks.
Proof.
  unfold obj_update. rewrite map_map. apply map_ext. intros a. simpl.
  now destruct (String.eqb k a).
Qed.

(** Grouping a list of records by a string key: one entry per distinct
    key, in order of first occurrence, holding [content] of the records
    with that key. *)
Section Grouping.
Variables (R B : Type).
Variable key : R -> string.
Variable content : list R -> B.
Variable add : R -> B -> B.

Definition members (k : string) (rs : list R) : list R :=
  filter (fun r => String.eqb (key r) k) rs.

Definition grouped (rs : list R) : obj B :=
  map (fun k => (k, content (members k rs))) (first_seen (map key rs)).

Lemma members_snoc (k : string) (rs : list R) (r : R) :
  members k (rs ++ [r]) =
  if String.eqb (key r) k then members k rs ++ [r] else members k rs.
Proof.
  unfold members. rewrite filter_app. simpl.
  destruct (String.eqb (key r) k); [reflexivity | apply app_nil_r].
Qed.

Lemma members_absent (k : string) (rs : list R) :
  existsb (String.eqb k) (map key rs) = false -> members k rs = [].
Proof.
  intros H. unfold members. induction rs as [|a rs IH]; simpl in *.
  - reflexivity.
  - apply orb_false_iff in H. destruct H as [H1 H2].
    rewrite String.eqb_sym, H1. auto.
Qed.

(** One step of the imperative accumulation is one more record in the
    grouping. *)
Lemma grouped_snoc (rs : list R) (r : R) :
  (forall rs', content (rs' ++ [r]) = add r (content rs')) ->
  is_inherited (key r) = false ->
  obj_update (key r) (add r) (ensure (key r) (content []) (grouped rs))
  = grouped (rs ++ [r]).
Proof.
  intros content_snoc Hown. unfold ensure, js_has, grouped.
  rewrite obj_has_map_keys, existsb_first_seen, Hown, orb_false_r.
  rewrite map_app. change (map key [r]) with [key r].
  rewrite first_seen_snoc.
  destruct (existsb (String.eqb (key r)) (map key rs)) eqn:E.
  - cbv iota. rewrite obj_update_map_keys. apply map_ext. intros k.
    rewrite members_snoc.
    destruct (String.eqb (key r) k); [now rewrite content_snoc | reflexivity].
  - cbv iota. unfold obj_update. rewrite !map_app, map_map. simpl.
    rewrite String.eqb_refl, members_snoc, String.eqb_refl.
    rewrite (members_absent _ _ E). simpl.
    rewrite <- content_snoc. simpl. f_equal.
    apply map_ext_in. intros k Hk. simpl.
    rewrite members_snoc.
    destruct (String.eqb_spec (key r) k) as [<-|]; [|reflexivity].
    apply first_seen_In, existsb_eqb_In in Hk. congruence.
Qed.
End Grouping.

(** *** Enumeration order *)

(** The order in which [Object.keys] lists a dictionary created with the
    keys [ks], in this order. *)
Definition key_order (ks : list string) : list string :=
  Object_keys (map (fun k => (k, tt)) ks).

Lemma insert_by_index_map {A B} (g : string * A -> string * B)
    (e : string * A) (l : list (string * A)) :
  (forall p, fst (g p) = fst p) ->
  insert_by_index (g e) (map g l) = map g (insert_by_index e l).
Proof.
  intros Hg. induction l as [|h t IH]; simpl; [reflexivity|].
  rewrite !Hg.
  destruct (index_of_key (fst e) <=? index_of_key (fst h))%N; simpl.
  - reflexivity.
  - now rewrite IH.
Qed.

Lemma sort_by_index_map {A B} (g : string * A -> string * B)
    (l : list (string * A)) :
  (forall p, fst (g p) = fst p) ->
  sort_by_index (map g l) = map g (sort_by_index l).
Proof.
  intros Hg. induction l as [|h t IH]; simpl; [reflexivity|].
  rewrite IH. now apply insert_by_index_map.
Qed.

Lemma filter_map_fst {A B} (g : string * A -> string * B)
    (P : string -> bool) (l : list (string * A)) :
  (forall p, fst (g p) = fst p) ->
  filter (fun p => P (fst p)) (map g l) = map g (filter (fun p => P (fst p)) l).
Proof.
  intros Hg. induction l as [|h t IH]; simpl; [reflexivity|].
  rewrite Hg. destruct (P (fst h)); simpl; now rewrite IH.
Qed.

Lemma Object_entries_map {A B} (g : string * A -> string * B) (o : obj A) :
  (forall p, fst (g p) = fst p) ->
  Object_entries (map g o) = map g (Object_entries o).
Proof.
  intros Hg. unfold Object_entries.
  rewrite (filter_map_fst g is_index o Hg).
  rewrite (filter_map_fst g (fun k => negb (is_index k)) o Hg).
  rewrite sort_by_index_map by assumption.
  now rewrite map_app.
Qed.

(** Enumerating a dictionary built from a key list visits the keys in
    [key_order]. *)
Lemma Object_entries_of_keys {T} (f : string -> T) (ks : list string) :
  Object_entries (map (fun k => (k, f k)) ks)
  = map (fun k => (k, f k)) (key_order ks).
Proof.
  unfold key_order, Object_keys.
  rewrite map_map.
  rewrite <- (Object_entries_map (fun p : string * unit => (fst p, f (fst p))))
    by reflexivity.
  now rewrite map_map.
Qed.

Lemma insert_by_index_In {T} (x e : string * T) (l : list (string * T)) :
  In x (insert_by_index e l) <-> x = e \/ In x l.
Proof.
  induction l as [|h t IH]; simpl.
  - intuition.
  - destruct (index_of_key (fst e) <=? index_of_key (fst h))%N; simpl.
    + intuition.
    + rewrite IH. intuition.
Qed.

Lemma sort_by_index_In {T} (x : string * T) (l : list (string * T)) :
  In x (sort_by_index l) <-> In x l.
Proof.
  induction l as [|h t IH]; simpl; [tauto|].
  rewrite insert_by_index_In, IH. intuition.
Qed.

Lemma Object_entries_In {T} (x : string * T) (o : obj T) :
  In x (Object_entries o) <-> In x o.
Proof.
  unfold Object_entries.
  rewrite in_app_iff, sort_by_index_In, !filter_In.
  destruct (is_index (fst x)); simpl; intuition discriminate.
Qed.

Lemma key_order_In (k : string) (ks : list string) :
  In k (key_order ks) <-> In k ks.
Proof.
  unfold key_order, Object_keys. rewrite in_map_iff. split.
  - intros [[k' u] [E H]]. simpl in E. subst k'.
    apply Object_entries_In, in_map_iff in H.
    destruct H as [k'' [E H]]. now inversion E; subst.
  - intros H. exists (k, tt). split; [reflexivity|].
    apply Object_entries_In, in_map_iff. now exists k.
Qed.

(** Without array-index keys the enumeration order is the creation
    order. *)
Lemma Object_entries_plain {T} (o : obj T) :
  Forall (fun p => is_index (fst p) = false) o -> Object_entries o = o.
Proof.
  intros H. unfold Object_entries.
  induction H as [|p l Hp Hl IH]; simpl; [reflexivity|].
  rewrite Hp. simpl.
  destruct (filter (fun p : string * T => is_index (fst p)) l) eqn:E.
  - simpl in *. now f_equal.
  - exfalso. assert (Hin : In p0 (p0 :: l0)) by now left.
    rewrite <- E in Hin. apply filter_In in Hin. destruct Hin as [Hin Hi].
    rewrite Forall_forall in Hl. rewrite (Hl _ Hin) in Hi. discriminate.
Qed.

Lemma key_order_plain (ks : list string) :
  Forall (fun k => is_index k = false) ks -> key_order ks = ks.
Proof.
  intros H. unfold key_order, Object_keys.
  rewrite Object_entries_plain.
  - rewrite map_map. simpl. apply map_id.
  - apply Forall_map. simpl. exact H.
Qed.

(** Keys in ascending order of the integers they denote. *)
Definition ascending (ks : list string) : Prop :=
  StronglySorted (fun a b => (index_of_key a <= index_of_key b)%N) ks.

Lemma insert_by_index_sorted {T} (e : string * T) (l : list (string * T)) :
  ascending (map fst l) -> ascending (map fst (insert_by_index e l)).
Proof.
  unfold ascending. induction l as [|h t IH]; simpl; intros H.
  - repeat constructor.
  - destruct (index_of_key (fst e) <=? index_of_key (fst h))%N eqn:E.
    + simpl. constructor; [exact H|].
      apply N.leb_le in E. apply StronglySorted_inv in H.
      destruct H as [_ H]. constructor; [exact E|].
      eapply Forall_impl; [|exact H]. intros a Ha. simpl in Ha.
      eapply N.le_trans; eauto.
    + simpl. apply N.leb_gt, N.lt_le_incl in E.
      apply StronglySorted_inv in H. destruct H as [Ht Hh].
      constructor; [now apply IH|].
      apply Forall_forall. intros a Ha. apply in_map_iff in Ha.
      destruct Ha as [p [<- Hp]]. apply insert_by_index_In in Hp.
      destruct Hp as [->|Hp]; [exact E|].
      rewrite Forall_forall in Hh. apply Hh. now apply in_map.
Qed.

Lemma sort_by_index_sorted {T} (l : list (string * T)) :
  ascending (map fst (sort_by_index l)).
Proof.
  induction l as [|h t IH]; simpl; [constructor|].
  now apply insert_by_index_sorted.
Qed.

Lemma insert_by_index_permutes {T} (e : string * T) (l : list (string * T)) :
  Permutation (e :: l) (insert_by_index e l).
Proof.
  induction l as [|h t IH]; simpl; [reflexivity|].
  destruct (index_of_key (fst e) <=? index_of_key (fst h))%N; [reflexivity|].
  rewrite perm_swap. now constructor.
Qed.

Lemma sort_by_index_permutes {T} (l : list (string * T)) :
  Permutation l (sort_by_index l).
Proof.
  induction l as [|h t IH]; simpl; [constructor|].
  rewrite <- insert_by_index_permutes. now constructor.
Qed.

(** The shape of the enumeration order: the array-index keys in
    ascending numeric order, then the other keys as they were created. *)
Lemma key_order_shape (ks : list string) :
  exists indices,
    key_order ks = indices ++ filter (fun k => negb (is_index k)) ks
    /\ Permutation (filter is_index ks) indices
    /\ ascending indices.
Proof.
  unfold key_order, Object_keys, Object_entries. rewrite map_app.
  eexists. split; [f_equal|split].
  - induction ks as [|k ks IH]; simpl; [reflexivity|].
    destruct (is_index k); simpl; now rewrite IH.
  - rewrite <- sort_by_index_permutes.
    induction ks as [|k ks IH]; simpl; [constructor|].
    destruct (is_index k); simpl; [now constructor | exact IH].
  - apply sort_by_index_sorted.
Qed.

(* ===================================================================== *)
(** ** The accumulation loop computes a grouping *)
(* ===================================================================== *)

(** The samples an array holds after the guarded pushes. *)
Definition kept (xs : list num) : list num :=
  filter (fun x => negb (isNaN x)) xs.

(** The bucket made of the rows [cs], in order. *)
Definition collect (cs : list CanonicalRecord) : samples :=
  mkSamples
    (kept (map (fun c => rd_ghgs (c_values c)) cs))
    (kept (map (fun c => rd_landUse (c_values c)) cs))
    (kept (map (fun c => rd_waterScarcity (c_values c)) cs))
    (kept (map (fun c => rd_eutrophication (c_values c)) cs))
    (kept (map (fun c => rd_acidification (c_values c)) cs))
    (kept (map (fun c => rd_mean_bio (c_values c)) cs)).

Lemma sample_array_collect (i : indicator) (cs : list CanonicalRecord) :
  sample_array i (collect cs) = kept (map (fun c => reading i (c_values c)) cs).
Proof. destruct i; reflexivity. Qed.

Lemma kept_snoc (xs : list num) (x : num) :
  kept (xs ++ [x]) = push_unless_NaN x (kept xs).
Proof.
  unfold kept, push_unless_NaN. rewrite filter_app. simpl.
  destruct (isNaN x); simpl; [apply app_nil_r | reflexivity].
Qed.

Lemma collect_snoc (cs : list CanonicalRecord) (c : CanonicalRecord) :
  collect (cs ++ [c]) = push_readings (c_values c) (collect cs).
Proof.
  unfold collect. rewrite !map_app. cbn [map].
  rewrite !kept_snoc. reflexivity.
Qed.

Definition by_key (key : CanonicalRecord -> string)
    (cs : list CanonicalRecord) : obj samples :=
  grouped key collect cs.

Definition by_two_keys (key1 key2 : CanonicalRecord -> string)
    (cs : list CanonicalRecord) : obj (obj samples) :=
  grouped key1 (by_key key2) cs.

(** The five dictionaries as groupings of the rows that were not
    skipped. *)
Definition grouped_state (cs : list CanonicalRecord) : State :=
  mkState
    (by_key c_diet cs) (by_key c_gender cs) (by_key c_age cs)
    (by_two_keys c_diet c_gender cs) (by_two_keys c_diet c_age cs).

(** No standard label names a member of [Object.prototype], and none is
    the sentinel. *)
Definition label_ok (k : string) : Prop :=
  is_inherited k = false /\ k <> "All".

(** Gender and age labels are moreover never array indices. *)
Definition plain_label (k : string) : Prop :=
  label_ok k /\ is_index k = false.

Definition well_labelled (c : CanonicalRecord) : Prop :=
  label_ok (c_diet c) /\ plain_label (c_gender c) /\ plain_label (c_age c).

Lemma add_to_by_key (key : CanonicalRecord -> string)
    (cs : list CanonicalRecord) (c : CanonicalRecord) :
  is_inherited (key c) = false ->
  add_to (key c) (c_values c) (by_key key cs) = by_key key (cs ++ [c]).
Proof.
  intros H. unfold add_to, by_key.
  change empty_samples with (collect []).
  apply (grouped_snoc key collect (fun c => push_readings (c_values c))); auto.
  intros rs'. apply collect_snoc.
Qed.

Lemma add_to2_by_two_keys (key1 key2 : CanonicalRecord -> string)
    (cs : list CanonicalRecord) (c : CanonicalRecord) :
  is_inherited (key1 c) = false -> is_inherited (key2 c) = false ->
  add_to2 (key1 c) (key2 c) (c_values c) (by_two_keys key1 key2 cs)
  = by_two_keys key1 key2 (cs ++ [c]).
Proof.
  intros H1 H2. unfold add_to2, by_two_keys.
  change (@nil (string * samples)) with (by_key key2 []).
  apply (grouped_snoc key1 (by_key key2)
           (fun c => add_to (key2 c) (c_values c))); auto.
  intros rs'. symmetry. now apply add_to_by_key.
Qed.

Theorem accumulate_grouped (cs : list CanonicalRecord) :
  Forall well_labelled cs ->
  fold_left accumulate cs initial_state = grouped_state cs.
Proof.
  induction cs as [|c cs IH] using rev_ind; intros H.
  - reflexivity.
  - apply Forall_app in H. destruct H as [Hcs Hc].
    inversion Hc as [|? ? [[Hd _] [[[Hg _] _] [[Ha _] _]]] _]; subst.
    rewrite fold_left_app. simpl. rewrite (IH Hcs).
    unfold accumulate, grouped_state. simpl.
    rewrite !add_to_by_key, !add_to2_by_two_keys by assumption.
    reflexivity.
Qed.

(* ===================================================================== *)
(** ** Standard labels *)
(* ===================================================================== *)

Lemma lower_char_not_A (c : ascii) : lower_char c <> "A"%char.
Proof.
  destruct c as [[] [] [] [] [] [] [] []]; vm_compute; discriminate.
Qed.

Lemma toLowerCase_not_All (s : string) : toLowerCase s <> "All".
Proof.
  destruct s as [|c s]; simpl; [discriminate|].
  intros H. injection H as H _. now apply lower_char_not_A in H.
Qed.

Lemma inherited_label_ok (k s : string) :
  inherited k = Some s -> plain_label s.
Proof.
  unfold inherited. intros H.
  destruct (String.eqb k "constructor");
    [injection H as <-; repeat split; discriminate|].
  destruct (String.eqb k "__proto__");
    [injection H as <-; repeat split; discriminate|].
  destruct (includes k Object_prototype_functions); [|discriminate].
  injection H as <-. repeat split. discriminate.
Qed.

Lemma obj_get_In {T} (k : string) (v : T) (o : obj T) :
  obj_get k o = Some v -> In (k, v) o.
Proof.
  induction o as [|[k' v'] t IH]; simpl; [discriminate|].
  destruct (String.eqb_spec k k') as [->|].
  - intros H. injection H as ->. now left.
  - intros H. right. auto.
Qed.

(** The three code tables hold non-empty strings that are themselves
    acceptable labels. *)
Definition table_ok (mapping : obj value) : Prop :=
  Forall (fun p => exists s, snd p = VStr s /\ plain_label s /\ s <> "")
         mapping.

Lemma dietGroupMapping_ok : table_ok dietGroupMapping.
Proof.
  repeat constructor; simpl; eexists; (split; [reflexivity|]);
    repeat split; discriminate.
Qed.

Lemma genderMapping_ok : table_ok genderMapping.
Proof.
  repeat constructor; simpl; eexists; (split; [reflexivity|]);
    repeat split; discriminate.
Qed.

Lemma ageGroupMapping_ok : table_ok ageGroupMapping.
Proof.
  repeat constructor; simpl; eexists; (split; [reflexivity|]);
    repeat split; discriminate.
Qed.

Section Labels.
Variable Number_toString : num -> string.

Lemma js_get_truthy_label (mapping : obj value) (k : string) :
  table_ok mapping ->
  truthy (js_get mapping k) = true ->
  plain_label (toString Number_toString (js_get mapping k)).
Proof.
  intros Hm. unfold js_get.
  destruct (obj_get k mapping) as [v|] eqn:E.
  - apply obj_get_In in E. unfold table_ok in Hm.
    rewrite Forall_forall in Hm.
    destruct (Hm _ E) as [s [Hs [Hok _]]]. simpl in Hs. subst v.
    intros _. exact Hok.
  - destruct (inherited k) as [s|] eqn:E'; simpl.
    + intros _. now apply inherited_label_ok with k.
    + discriminate.
Qed.

Lemma js_get_falsy_own (mapping : obj value) (k : string) :
  table_ok mapping ->
  truthy (js_get mapping k) = false -> is_inherited k = false.
Proof.
  intros Hm. unfold js_get, is_inherited.
  destruct (obj_get k mapping) as [v|] eqn:E.
  - apply obj_get_In in E. unfold table_ok in Hm.
    rewrite Forall_forall in Hm.
    destruct (Hm _ E) as [s [Hs [_ Hne]]]. simpl in Hs. subst v. simpl.
    destruct (String.eqb_spec s ""); [contradiction | discriminate].
  - destruct (inherited k); simpl; [discriminate | reflexivity].
Qed.

Lemma standardDietGroup_ok (code : string) :
  code <> "All" -> label_ok (standardDietGroup Number_toString code).
Proof.
  intros H. unfold standardDietGroup.
  destruct (truthy (js_get dietGroupMapping code)) eqn:E.
  - apply js_get_truthy_label; [apply dietGroupMapping_ok | exact E].
  - split; [|exact H].
    now apply js_get_falsy_own with dietGroupMapping;
      [apply dietGroupMapping_ok|].
Qed.

Lemma standard_or_Unknown_ok (mapping : obj value) (code : string) :
  table_ok mapping ->
  plain_label (standard_or_Unknown Number_toString mapping code).
Proof.
  intros Hm. unfold standard_or_Unknown.
  destruct (truthy (VStr code)); [|repeat split; discriminate].
  destruct (truthy (js_get mapping code)) eqn:E.
  - now apply js_get_truthy_label.
  - repeat split; discriminate.
Qed.

Lemma cleanString_not_All (v : value) :
  cleanString Number_toString v <> "All".
Proof.
  unfold cleanString. destruct (truthy v); simpl.
  - apply toLowerCase_not_All.
  - discriminate.
Qed.

Lemma canonical_well_labelled (actualColumns row : obj value)
    (c : CanonicalRecord) :
  canonical Number_toString actualColumns row = Some c -> well_labelled c.
Proof.
  unfold canonical.
  destruct (negb (truthy (VStr _))); [discriminate|].
  intros H. injection H as <-. unfold well_labelled. simpl.
  split; [apply standardDietGroup_ok, cleanString_not_All|].
  split; apply standard_or_Unknown_ok;
    [apply genderMapping_ok | apply ageGroupMapping_ok].
Qed.

(** The rows that are not skipped, canonicalised, in input order. *)
Definition canonicals (actualColumns : obj value) (data : list (obj value))
  : list CanonicalRecord :=
  flat_map (fun row =>
      match canonical Number_toString actualColumns row with
      | Some c => [c]
      | None => []
      end) data.

Lemma canonicals_well_labelled (actualColumns : obj value)
    (data : list (obj value)) :
  Forall well_labelled (canonicals actualColumns data).
Proof.
  apply Forall_forall. intros c H. unfold canonicals in H.
  apply in_flat_map in H. destruct H as [row [_ H]].
  destruct (canonical _ _ row) as [c'|] eqn:E; simpl in H; [|tauto].
  destruct H as [<-|[]]. eapply canonical_well_labelled; eauto.
Qed.

Lemma fold_process_row (actualColumns : obj value)
    (data : list (obj value)) (st : State) :
  fold_left (process_row Number_toString actualColumns) data st
  = fold_left accumulate (canonicals actualColumns data) st.
Proof.
  revert st. induction data as [|row data IH]; intros st; simpl.
  - reflexivity.
  - rewrite fold_left_app, IH. unfold process_row.
    now destruct (canonical _ _ row).
Qed.

(** The forEach loop groups the rows that are not skipped. *)
Lemma aggregate_is_grouping (actualColumns : obj value)
    (data : list (obj value)) :
  aggregate Number_toString actualColumns data
  = grouped_state (canonicals actualColumns data).
Proof.
  unfold aggregate. rewrite fold_process_row.
  apply accumulate_grouped, canonicals_well_labelled.
Qed.

(** The rows [loadData] averages. *)
Definition contributing (data : list (obj value)) : list CanonicalRecord :=
  canonicals (reconcile data) data.

Corollary loadData_grouped (data : list (obj value)) :
  loadData Number_toString data = emit (grouped_state (contributing data)).
Proof. unfold loadData. now rewrite aggregate_is_grouping. Qed.
End Labels.

(* ===================================================================== *)
(** ** What is emitted, and in which order *)
(* ===================================================================== *)

(** The distinct values of [key], in order of first encounter. *)
Definition distinct (key : CanonicalRecord -> string)
    (cs : list CanonicalRecord) : list string :=
  first_seen (map key cs).

(** The mean a summary reports for indicator [i] over the rows [cs]. *)
Definition mean_over (i : indicator) (cs : list CanonicalRecord) : num :=
  average (kept (map (fun c => reading i (c_values c)) cs)).

Lemma field_summary (i : indicator) (d g a : string) (b : samples) :
  field i (summary d g a b) = average (sample_array i b).
Proof. destruct i; reflexivity. Qed.

Lemma field_summary_collect (i : indicator) (d g a : string)
    (cs : list CanonicalRecord) :
  field i (summary d g a (collect cs)) = mean_over i cs.
Proof. now rewrite field_summary, sample_array_collect. Qed.

Lemma flat_map_map {A B C} (f : B -> list C) (g : A -> B) (l : list A) :
  flat_map f (map g l) = flat_map (fun x => f (g x)) l.
Proof. induction l; simpl; [reflexivity | now f_equal]. Qed.

Lemma emit_diet_by_key (cs : list CanonicalRecord) :
  emit_diet (by_key c_diet cs)
  = map (fun k => summary k "All" "All" (collect (members c_diet k cs)))
        (key_order (distinct c_diet cs)).
Proof.
  unfold emit_diet, by_key, grouped.
  now rewrite Object_entries_of_keys, map_map.
Qed.

Lemma emit_gender_by_key (cs : list CanonicalRecord) :
  emit_gender (by_key c_gender cs)
  = map (fun k => summary "All" k "All" (collect (members c_gender k cs)))
        (key_order (distinct c_gender cs)).
Proof.
  unfold emit_gender, by_key, grouped.
  now rewrite Object_entries_of_keys, map_map.
Qed.

Lemma emit_age_by_key (cs : list CanonicalRecord) :
  emit_age (by_key c_age cs)
  = map (fun k => summary "All" "All" k (collect (members c_age k cs)))
        (key_order (distinct c_age cs)).
Proof.
  unfold emit_age, by_key, grouped.
  now rewrite Object_entries_of_keys, map_map.
Qed.

Lemma emit_diet_gender_by_keys (cs : list CanonicalRecord) :
  emit_diet_gender (by_two_keys c_diet c_gender cs)
  = flat_map (fun d =>
        map (fun g => summary d g "All"
                        (collect (members c_gender g (members c_diet d cs))))
            (key_order (distinct c_gender (members c_diet d cs))))
      (key_order (distinct c_diet cs)).
Proof.
  unfold emit_diet_gender, by_two_keys, grouped at 1.
  rewrite Object_entries_of_keys, flat_map_map.
  apply flat_map_ext. intros d. simpl. unfold by_key, grouped.
  now rewrite Object_entries_of_keys, map_map.
Qed.

Lemma emit_diet_age_by_keys (cs : list CanonicalRecord) :
  emit_diet_age (by_two_keys c_diet c_age cs)
  = flat_map (fun d =>
        map (fun a => summary d "All" a
                        (collect (members c_age a (members c_diet d cs))))
            (key_order (distinct c_age (members c_diet d cs))))
      (key_order (distinct c_diet cs)).
Proof.
  unfold emit_diet_age, by_two_keys, grouped at 1.
  rewrite Object_entries_of_keys, flat_map_map.
  apply flat_map_ext. intros d. simpl. unfold by_key, grouped.
  now rewrite Object_entries_of_keys, map_map.
Qed.

(** *** The kind of a summary record *)

(** The grouping kinds of the specification, read off a record from where
    the sentinel label stands. *)
Inductive GroupKey : Type :=
| KAll | KDietGroup | KGender | KAgeGroup | KDietGender | KDietAge.

Definition is_All (label : string) : bool := String.eqb label "All".

Definition kind_of (d : DietData) : option GroupKey :=
  match is_All (dietGroup d), is_All (gender d), is_All (ageGroup d) with
  | true, true, true => Some KAll
  | false, true, true => Some KDietGroup
  | true, false, true => Some KGender
  | true, true, false => Some KAgeGroup
  | false, false, true => Some KDietGender
  | false, true, false => Some KDietAge
  | _, _, _ => None
  end.

Definition GroupKey_eqb (a b : GroupKey) : bool :=
  match a, b with
  | KAll, KAll | KDietGroup, KDietGroup | KGender, KGender
  | KAgeGroup, KAgeGroup | KDietGender, KDietGender | KDietAge, KDietAge => true
  | _, _ => false
  end.

Definition has_kind (K : GroupKey) (d : DietData) : bool :=
  match kind_of d with Some K' => GroupKey_eqb K K' | None => false end.

Definition records_of_kind (K : GroupKey) (out : list DietData)
  : list DietData :=
  filter (has_kind K) out.

Lemma records_of_kind_uniform (K K' : GroupKey) (l : list DietData) :
  Forall (fun d => kind_of d = Some K') l ->
  records_of_kind K l = if GroupKey_eqb K K' then l else [].
Proof.
  intros H. unfold records_of_kind.
  induction H as [|d l Hd Hl IH]; simpl.
  - now destruct (GroupKey_eqb K K').
  - unfold has_kind at 1. rewrite Hd, IH.
    now destruct (GroupKey_eqb K K').
Qed.

Lemma is_All_label (k : string) : label_ok k -> is_All k = false.
Proof.
  intros [_ H]. unfold is_All. now destruct (String.eqb_spec k "All").
Qed.

Lemma distinct_In (key : CanonicalRecord -> string)
    (cs : list CanonicalRecord) (k : string) :
  In k (key_order (distinct key cs)) <-> exists c, In c cs /\ key c = k.
Proof.
  unfold distinct. rewrite key_order_In, first_seen_In, in_map_iff.
  split; intros [c [H1 H2]]; exists c; auto.
Qed.

Lemma members_In (key : CanonicalRecord -> string) (k : string)
    (cs : list CanonicalRecord) (c : CanonicalRecord) :
  In c (members key k cs) <-> In c cs /\ key c = k.
Proof.
  unfold members. rewrite filter_In.
  destruct (String.eqb_spec (key c) k); intuition discriminate.
Qed.

Section Kinds.
Variable cs : list CanonicalRecord.
Hypothesis labels : Forall well_labelled cs.

Let ok_diet (c : CanonicalRecord) (H : In c cs) : is_All (c_diet c) = false.
Proof.
  rewrite Forall_forall in labels. apply is_All_label, (labels _ H).
Qed.

Let ok_gender (c : CanonicalRecord) (H : In c cs)
  : is_All (c_gender c) = false.
Proof.
  rewrite Forall_forall in labels. apply is_All_label, (labels _ H).
Qed.

Let ok_age (c : CanonicalRecord) (H : In c cs) : is_All (c_age c) = false.
Proof.
  rewrite Forall_forall in labels. apply is_All_label, (labels _ H).
Qed.

Lemma kind_emit_diet :
  Forall (fun d => kind_of d = Some KDietGroup) (emit_diet (by_key c_diet cs)).
Proof.
  rewrite emit_diet_by_key. apply Forall_map, Forall_forall.
  intros k Hk. apply distinct_In in Hk. destruct Hk as [c [Hc <-]].
  unfold kind_of. simpl. now rewrite ok_diet.
Qed.

Lemma kind_emit_gender :
  Forall (fun d => kind_of d = Some KGender)
         (emit_gender (by_key c_gender cs)).
Proof.
  rewrite emit_gender_by_key. apply Forall_map, Forall_forall.
  intros k Hk. apply distinct_In in Hk. destruct Hk as [c [Hc <-]].
  unfold kind_of. simpl. now rewrite ok_gender.
Qed.

Lemma kind_emit_age :
  Forall (fun d => kind_of d = Some KAgeGroup) (emit_age (by_key c_age cs)).
Proof.
  rewrite emit_age_by_key. apply Forall_map, Forall_forall.
  intros k Hk. apply distinct_In in Hk. destruct Hk as [c [Hc <-]].
  unfold kind_of. simpl. now rewrite ok_age.
Qed.

Lemma kind_emit_diet_gender :
  Forall (fun d => kind_of d = Some KDietGender)
         (emit_diet_gender (by_two_keys c_diet c_gender cs)).
Proof.
  rewrite emit_diet_gender_by_keys. apply Forall_flat_map, Forall_forall.
  intros d Hd. apply distinct_In in Hd. destruct Hd as [c [Hc <-]].
  apply Forall_map, Forall_forall. intros g Hg.
  apply distinct_In in Hg. destruct Hg as [c' [Hc' <-]].
  apply members_In in Hc'. destruct Hc' as [Hc' _].
  unfold kind_of. simpl. now rewrite ok_diet, ok_gender.
Qed.

Lemma kind_emit_diet_age :
  Forall (fun d => kind_of d = Some KDietAge)
         (emit_diet_age (by_two_keys c_diet c_age cs)).
Proof.
  rewrite emit_diet_age_by_keys. apply Forall_flat_map, Forall_forall.
  intros d Hd. apply distinct_In in Hd. destruct Hd as [c [Hc <-]].
  apply Forall_map, Forall_forall. intros a Ha.
  apply distinct_In in Ha. destruct Ha as [c' [Hc' <-]].
  apply members_In in Hc'. destruct Hc' as [Hc' _].
  unfold kind_of. simpl. now rewrite ok_diet, ok_age.
Qed.

(** The output splits by kind into the five emitted segments; nothing of
    the [KAll] kind is emitted. *)
Lemma records_of_kind_emit (K : GroupKey) :
  records_of_kind K (emit (grouped_state cs)) =
  match K with
  | KAll => []
  | KDietGroup => emit_diet (by_key c_diet cs)
  | KGender => emit_gender (by_key c_gender cs)
  | KAgeGroup => emit_age (by_key c_age cs)
  | KDietGender => emit_diet_gender (by_two_keys c_diet c_gender cs)
  | KDietAge => emit_diet_age (by_two_keys c_diet c_age cs)
  end.
Proof.
  unfold emit, grouped_state, records_of_kind. simpl.
  rewrite !filter_app.
  fold (records_of_kind K (emit_diet (by_key c_diet cs))).
  fold (records_of_kind K (emit_gender (by_key c_gender cs))).
  fold (records_of_kind K (emit_age (by_key c_age cs))).
  fold (records_of_kind K (emit_diet_gender (by_two_keys c_diet c_gender cs))).
  fold (records_of_kind K (emit_diet_age (by_two_keys c_diet c_age cs))).
  rewrite (records_of_kind_uniform K kind_emit_diet).
  rewrite (records_of_kind_uniform K kind_emit_gender).
  rewrite (records_of_kind_uniform K kind_emit_age).
  rewrite (records_of_kind_uniform K kind_emit_diet_gender).
  rewrite (records_of_kind_uniform K kind_emit_diet_age).
  destruct K; simpl; rewrite ?app_nil_r; reflexivity.
Qed.
End Kinds.

(* ===================================================================== *)
(** ** Properties of the loader *)
(* ===================================================================== *)

Section Loader.
Variable Number_toString : num -> string.

(** Whether the row survives [if (!dietGroup) return]. *)
Definition has_diet_label (actualColumns row : obj value) : bool :=
  truthy (VStr (cleanString Number_toString
                  (cell Number_toString actualColumns "dietGroup" row))).

Lemma canonical_None (actualColumns row : obj value) :
  has_diet_label actualColumns row = false <->
  canonical Number_toString actualColumns row = None.
Proof.
  unfold has_diet_label, canonical.
  destruct (truthy (VStr _)); simpl; split; intros H; congruence.
Qed.

Lemma canonical_Some (actualColumns row : obj value) :
  has_diet_label actualColumns row = true ->
  exists c, canonical Number_toString actualColumns row = Some c.
Proof.
  intros H. destruct (canonical _ _ row) as [c|] eqn:E; [now exists c|].
  apply canonical_None in E. congruence.
Qed.

Lemma canonicals_In (actualColumns : obj value) (data : list (obj value))
    (c : CanonicalRecord) :
  In c (canonicals Number_toString actualColumns data) <->
  exists row, In row data
              /\ canonical Number_toString actualColumns row = Some c.
Proof.
  unfold canonicals. rewrite in_flat_map. split.
  - intros [row [Hr H]]. exists row. split; [assumption|].
    destruct (canonical _ _ row); simpl in H; [|tauto].
    destruct H as [->|[]]. reflexivity.
  - intros [row [Hr H]]. exists row. split; [assumption|].
    rewrite H. now left.
Qed.

(** The records of each kind, as lists indexed by the emitted keys. *)
Lemma records_by_kind (K : GroupKey) (data : list (obj value)) :
  let cs := contributing Number_toString data in
  records_of_kind K (loadData Number_toString data) =
  match K with
  | KAll => []
  | KDietGroup =>
      map (fun k => summary k "All" "All" (collect (members c_diet k cs)))
          (key_order (distinct c_diet cs))
  | KGender =>
      map (fun k => summary "All" k "All" (collect (members c_gender k cs)))
          (key_order (distinct c_gender cs))
  | KAgeGroup =>
      map (fun k => summary "All" "All" k (collect (members c_age k cs)))
          (key_order (distinct c_age cs))
  | KDietGender =>
      flat_map (fun d =>
          map (fun g => summary d g "All"
                          (collect (members c_gender g (members c_diet d cs))))
              (key_order (distinct c_gender (members c_diet d cs))))
        (key_order (distinct c_diet cs))
  | KDietAge =>
      flat_map (fun d =>
          map (fun a => summary d "All" a
                          (collect (members c_age a (members c_diet d cs))))
              (key_order (distinct c_age (members c_diet d cs))))
        (key_order (distinct c_diet cs))
  end.
Proof.
  intros cs. rewrite loadData_grouped.
  rewrite records_of_kind_emit by apply canonicals_well_labelled.
  fold cs. destruct K.
  - reflexivity.
  - apply emit_diet_by_key.
  - apply emit_gender_by_key.
  - apply emit_age_by_key.
  - apply emit_diet_gender_by_keys.
  - apply emit_diet_age_by_keys.
Qed.

Lemma distinct_plain (key : CanonicalRecord -> string)
    (cs : list CanonicalRecord) :
  Forall (fun c => is_index (key c) = false) cs ->
  key_order (distinct key cs) = distinct key cs.
Proof.
  intros H. apply key_order_plain, Forall_forall. intros k Hk.
  unfold distinct in Hk. apply first_seen_In, in_map_iff in Hk.
  destruct Hk as [c [<- Hc]]. rewrite Forall_forall in H. auto.
Qed.

Lemma Forall_members {P : CanonicalRecord -> Prop}
    (key : CanonicalRecord -> string) (k : string)
    (cs : list CanonicalRecord) :
  Forall P cs -> Forall P (members key k cs).
Proof.
  rewrite !Forall_forall. intros H c Hc. apply members_In in Hc. now apply H.
Qed.

Lemma gender_plain (cs : list CanonicalRecord) :
  Forall well_labelled cs -> Forall (fun c => is_index (c_gender c) = false) cs.
Proof. apply Forall_impl. intros c [_ [[_ H] _]]. exact H. Qed.

Lemma age_plain (cs : list CanonicalRecord) :
  Forall well_labelled cs -> Forall (fun c => is_index (c_age c) = false) cs.
Proof. apply Forall_impl. intros c [_ [_ [_ H]]]. exact H. Qed.

(** X1. After the loop each of the five dictionaries is a grouping of the
    rows that were not skipped: one entry per distinct standard label
    (per diet group and then per second label for the two-level ones), in
    order of first encounter, whose array for an indicator holds the
    coerced values of its rows in input order, NaN left out. *)
Theorem aggregate_grouped (actualColumns : obj value)
    (data : list (obj value)) :
  let cs := canonicals Number_toString actualColumns data in
  aggregate Number_toString actualColumns data
  = mkState (by_key c_diet cs) (by_key c_gender cs) (by_key c_age cs)
            (by_two_keys c_diet c_gender cs) (by_two_keys c_diet c_age cs)
  /\ (forall key, map fst (by_key key cs) = distinct key cs)
  /\ (forall key k,
        In k (distinct key cs) ->
        obj_get k (by_key key cs) = Some (collect (members key k cs)))
  /\ (forall i rows,
        sample_array i (collect rows)
        = kept (map (fun c => reading i (c_values c)) rows)).
Proof.
  intros cs. split; [apply aggregate_is_grouping|].
  split; [|split].
  - intros key. unfold by_key, grouped, distinct.
    rewrite map_map. simpl. apply map_id.
  - intros key k Hk. unfold by_key, grouped. fold (distinct key cs).
    rewrite (obj_get_map_keys (fun k => collect (members key k cs))).
    apply existsb_eqb_In in Hk. now rewrite Hk.
  - intros i rows. apply sample_array_collect.
Qed.

(** X2. The output is the sequence of its records of the five kinds, in
    the order DietGroup, Gender, AgeGroup, (DietGroup,Gender),
    (DietGroup,AgeGroup), and the records of a kind are the summaries of
    the buckets of that kind in the enumeration order of its dictionary;
    there is no record of the All kind. *)
Theorem output_segments (data : list (obj value)) :
  let cs := contributing Number_toString data in
  let out := loadData Number_toString data in
  out = records_of_kind KDietGroup out ++ records_of_kind KGender out
        ++ records_of_kind KAgeGroup out ++ records_of_kind KDietGender out
        ++ records_of_kind KDietAge out
  /\ records_of_kind KAll out = []
  /\ records_of_kind KDietGroup out
     = map (fun k => summary k "All" "All" (collect (members c_diet k cs)))
           (key_order (distinct c_diet cs))
  /\ records_of_kind KGender out
     = map (fun k => summary "All" k "All" (collect (members c_gender k cs)))
           (key_order (distinct c_gender cs))
  /\ records_of_kind KAgeGroup out
     = map (fun k => summary "All" "All" k (collect (members c_age k cs)))
           (key_order (distinct c_age cs))
  /\ records_of_kind KDietGender out
     = flat_map (fun d =>
           map (fun g => summary d g "All"
                           (collect (members c_gender g (members c_diet d cs))))
               (key_order (distinct c_gender (members c_diet d cs))))
         (key_order (distinct c_diet cs))
  /\ records_of_kind KDietAge out
     = flat_map (fun d =>
           map (fun a => summary d "All" a
                           (collect (members c_age a (members c_diet d cs))))
               (key_order (distinct c_age (members c_diet d cs))))
         (key_order (distinct c_diet cs)).
Proof.
  intros cs out.
  pose proof (records_by_kind KDietGroup data) as H1.
  pose proof (records_by_kind KGender data) as H2.
  pose proof (records_by_kind KAgeGroup data) as H3.
  pose proof (records_by_kind KDietGender data) as H4.
  pose proof (records_by_kind KDietAge data) as H5.
  pose proof (records_by_kind KAll data) as H6.
  cbv zeta in H1, H2, H3, H4, H5, H6.
  fold cs in H1, H2, H3, H4, H5. fold out in H1, H2, H3, H4, H5, H6.
  split; [|now repeat split].
  rewrite H1, H2, H3, H4, H5. unfold out.
  rewrite loadData_grouped. fold cs. unfold emit, grouped_state. simpl.
  now rewrite emit_diet_by_key, emit_gender_by_key, emit_age_by_key,
    emit_diet_gender_by_keys, emit_diet_age_by_keys.
Qed.

(** *** Rows without a diet-group label *)

Lemma process_row_skips (actualColumns : obj value) (st : State)
    (row : obj value) :
  has_diet_label actualColumns row = false ->
  process_row Number_toString actualColumns st row = st.
Proof.
  intros H. unfold process_row.
  apply canonical_None in H. now rewrite H.
Qed.

Lemma fold_process_row_filter (actualColumns : obj value)
    (data : list (obj value)) (st : State) :
  fold_left (process_row Number_toString actualColumns) data st
  = fold_left (process_row Number_toString actualColumns)
              (filter (has_diet_label actualColumns) data) st.
Proof.
  revert st. induction data as [|row data IH]; intros st; simpl.
  - reflexivity.
  - destruct (has_diet_label actualColumns row) eqn:E; simpl.
    + apply IH.
    + rewrite (process_row_skips _ _ _ E). apply IH.
Qed.


(** *** The records a contributing row accounts for *)

Lemma In_distinct (key : CanonicalRecord -> string)
    (cs : list CanonicalRecord) (c : CanonicalRecord) :
  In c cs -> In (key c) (key_order (distinct key cs)).
Proof. intros H. apply distinct_In. now exists c. Qed.

Lemma loadData_contains (data : list (obj value)) (c : CanonicalRecord) :
  let cs := contributing Number_toString data in
  let out := loadData Number_toString data in
  In c cs ->
  In (summary (c_diet c) "All" "All" (collect (members c_diet (c_diet c) cs)))
     (records_of_kind KDietGroup out)
  /\ In (summary "All" (c_gender c) "All"
           (collect (members c_gender (c_gender c) cs)))
        (records_of_kind KGender out)
  /\ In (summary "All" "All" (c_age c) (collect (members c_age (c_age c) cs)))
        (records_of_kind KAgeGroup out)
  /\ In (summary (c_diet c) (c_gender c) "All"
           (collect (members c_gender (c_gender c)
                       (members c_diet (c_diet c) cs))))
        (records_of_kind KDietGender out)
  /\ In (summary (c_diet c) "All" (c_age c)
           (collect (members c_age (c_age c)
                       (members c_diet (c_diet c) cs))))
        (records_of_kind KDietAge out).
Proof.
  intros cs out Hc. unfold out.
  rewrite !records_by_kind. fold cs.
  assert (Hm : In c (members c_diet (c_diet c) cs))
    by (apply members_In; auto).
  repeat split.
  - apply in_map_iff. exists (c_diet c). split; [reflexivity|].
    now apply In_distinct.
  - apply in_map_iff. exists (c_gender c). split; [reflexivity|].
    now apply In_distinct.
  - apply in_map_iff. exists (c_age c). split; [reflexivity|].
    now apply In_distinct.
  - apply in_flat_map. exists (c_diet c). split; [now apply In_distinct|].
    apply in_map_iff. exists (c_gender c). split; [reflexivity|].
    now apply In_distinct.
  - apply in_flat_map. exists (c_diet c). split; [now apply In_distinct|].
    apply in_map_iff. exists (c_age c). split; [reflexivity|].
    now apply In_distinct.
Qed.

Lemma records_of_kind_incl (K : GroupKey) (out : list DietData)
    (d : DietData) :
  In d (records_of_kind K out) -> In d out.
Proof. unfold records_of_kind. rewrite filter_In. tauto. Qed.

(** C2, as amended. A row with a non-empty diet-group label, of standard
    labels (d, g, a), accounts for one record of each of the five kinds
    DietGroup, Gender, AgeGroup, (DietGroup,Gender), (DietGroup,AgeGroup),
    with the sentinel in the other dimensions and, for every indicator, the
    mean over the contributing rows of that bucket; no record of the All
    kind is emitted. *)
Theorem loadData_five_kinds (data : list (obj value)) (row : obj value)
    (c : CanonicalRecord) :
  In row data ->
  canonical Number_toString (reconcile data) row = Some c ->
  let cs := contributing Number_toString data in
  let out := loadData Number_toString data in
  (exists r, In r out /\ kind_of r = Some KDietGroup
     /\ dietGroup r = c_diet c /\ gender r = "All" /\ ageGroup r = "All"
     /\ forall i, field i r = mean_over i (members c_diet (c_diet c) cs))
  /\ (exists r, In r out /\ kind_of r = Some KGender
     /\ dietGroup r = "All" /\ gender r = c_gender c /\ ageGroup r = "All"
     /\ forall i, field i r = mean_over i (members c_gender (c_gender c) cs))
  /\ (exists r, In r out /\ kind_of r = Some KAgeGroup
     /\ dietGroup r = "All" /\ gender r = "All" /\ ageGroup r = c_age c
     /\ forall i, field i r = mean_over i (members c_age (c_age c) cs))
  /\ (exists r, In r out /\ kind_of r = Some KDietGender
     /\ dietGroup r = c_diet c /\ gender r = c_gender c /\ ageGroup r = "All"
     /\ forall i, field i r =
          mean_over i (members c_gender (c_gender c)
                         (members c_diet (c_diet c) cs)))
  /\ (exists r, In r out /\ kind_of r = Some KDietAge
     /\ dietGroup r = c_diet c /\ gender r = "All" /\ ageGroup r = c_age c
     /\ forall i, field i r =
          mean_over i (members c_age (c_age c)
                         (members c_diet (c_diet c) cs)))
  /\ records_of_kind KAll out = [].
Proof.
  intros Hrow Hc cs out.
  assert (Hin : In c cs) by (apply canonicals_In; eauto).
  assert (Hw : well_labelled c).
  { eapply canonical_well_labelled; eauto. }
  destruct Hw as [Hd [[Hg _] [Ha _]]].
  apply is_All_label in Hd, Hg, Ha.
  destruct (loadData_contains data c Hin) as (H1 & H2 & H3 & H4 & H5).
  fold cs in H1, H2, H3, H4, H5. fold out in H1, H2, H3, H4, H5.
  apply records_of_kind_incl in H1, H2, H3, H4, H5.
  repeat split.
  - eexists. split; [exact H1|]. unfold kind_of. simpl. rewrite Hd.
    repeat split. intros i. apply field_summary_collect.
  - eexists. split; [exact H2|]. unfold kind_of. simpl. rewrite Hg.
    repeat split. intros i. apply field_summary_collect.
  - eexists. split; [exact H3|]. unfold kind_of. simpl. rewrite Ha.
    repeat split. intros i. apply field_summary_collect.
  - eexists. split; [exact H4|]. unfold kind_of. simpl. rewrite Hd, Hg.
    repeat split. intros i. apply field_summary_collect.
  - eexists. split; [exact H5|]. unfold kind_of. simpl. rewrite Hd, Ha.
    repeat split. intros i. apply field_summary_collect.
  - unfold out. now rewrite records_by_kind.
Qed.

(** C10. As soon as one row has a non-empty diet-group label, the
    sentinel "All" is an element of each of the three label lists
    computed from the output, next to the standard labels of the rows:
    the lists are plain lists of strings. *)
Theorem label_lists_contain_All (data : list (obj value)) :
  existsb (has_diet_label (reconcile data)) data = true ->
  let out := loadData Number_toString data in
  (In "All" (dietGroups out) /\ In "All" (genderGroups out)
   /\ In "All" (ageGroups out))
  /\ (forall c, In c (contributing Number_toString data) ->
        In (c_diet c) (dietGroups out) /\ In (c_gender c) (genderGroups out)
        /\ In (c_age c) (ageGroups out)).
Proof.
  intros H out.
  assert (Hall : forall c, In c (contributing Number_toString data) ->
            (In "All" (dietGroups out) /\ In "All" (genderGroups out)
             /\ In "All" (ageGroups out))
            /\ In (c_diet c) (dietGroups out)
            /\ In (c_gender c) (genderGroups out)
            /\ In (c_age c) (ageGroups out)).
  { intros c Hin.
    destruct (loadData_contains data c Hin) as (H1 & H2 & H3 & _).
    apply records_of_kind_incl in H1, H2, H3. fold out in H1, H2, H3.
    unfold dietGroups, genderGroups, ageGroups.
    rewrite !first_seen_In. repeat split.
    - apply in_map_iff. eexists. split; [|exact H2]. reflexivity.
    - apply in_map_iff. eexists. split; [|exact H1]. reflexivity.
    - apply in_map_iff. eexists. split; [|exact H1]. reflexivity.
    - apply in_map_iff. eexists. split; [|exact H1]. reflexivity.
    - apply in_map_iff. eexists. split; [|exact H2]. reflexivity.
    - apply in_map_iff. eexists. split; [|exact H3]. reflexivity. }
  split.
  - apply existsb_exists in H. destruct H as [row [Hrow H]].
    destruct (canonical_Some _ _ H) as [c Hc].
    apply (Hall c). apply canonicals_In. eauto.
  - intros c Hin. apply (Hall c Hin).
Qed.

(** X8. The label lists hold no duplicate and exactly the values present in
    the sequence they are computed from. *)
Theorem label_lists_distinct_and_present (dietData : list DietData) :
  (NoDup (dietGroups dietData) /\ NoDup (genderGroups dietData)
   /\ NoDup (ageGroups dietData))
  /\ (forall x, In x (dietGroups dietData)
                <-> exists r, In r dietData /\ dietGroup r = x)
  /\ (forall x, In x (genderGroups dietData)
                <-> exists r, In r dietData /\ gender r = x)
  /\ (forall x, In x (ageGroups dietData)
                <-> exists r, In r dietData /\ ageGroup r = x).
Proof.
  unfold dietGroups, genderGroups, ageGroups.
  split; [repeat split; apply first_seen_NoDup|].
  repeat split; intros H.
  - apply first_seen_In, in_map_iff in H. destruct H as [r [H1 H2]]. eauto.
  - apply first_seen_In, in_map_iff. destruct H as [r [H1 H2]]. eauto.
  - apply first_seen_In, in_map_iff in H. destruct H as [r [H1 H2]]. eauto.
  - apply first_seen_In, in_map_iff. destruct H as [r [H1 H2]]. eauto.
  - apply first_seen_In, in_map_iff in H. destruct H as [r [H1 H2]]. eauto.
  - apply first_seen_In, in_map_iff. destruct H as [r [H1 H2]]. eauto.
Qed.

(** X9. Every emitted record is of one of the five kinds. *)
Theorem every_record_has_one_of_five_kinds (data : list (obj value)) :
  Forall (fun r => In (kind_of r)
                      [ Some KDietGroup; Some KGender; Some KAgeGroup;
                        Some KDietGender; Some KDietAge ])
         (loadData Number_toString data).
Proof.
  rewrite loadData_grouped. unfold emit, grouped_state. simpl.
  pose proof (canonicals_well_labelled Number_toString (reconcile data) data)
    as Hw.
  fold (contributing Number_toString data) in Hw.
  rewrite !Forall_app. split; [|split; [|split; [|split]]].
  - eapply Forall_impl; [|apply (kind_emit_diet Hw)].
    intros r ->. simpl. auto.
  - eapply Forall_impl; [|apply (kind_emit_gender Hw)].
    intros r ->. simpl. auto.
  - eapply Forall_impl; [|apply (kind_emit_age Hw)].
    intros r ->. simpl. auto.
  - eapply Forall_impl; [|apply (kind_emit_diet_gender Hw)].
    intros r ->. simpl. auto 6.
  - eapply Forall_impl; [|apply (kind_emit_diet_age Hw)].
    intros r ->. simpl. auto 6.
Qed.

(** *** Emission order *)

(** C3, as amended. Within a single-dimension kind the records follow the
    enumeration order of a dictionary whose keys were created in order of
    first encounter: for gender and age group this is the order of first
    encounter itself; for diet group it is too unless a label is an array
    index, such labels coming first in ascending numeric order. Within a
    two-dimension kind the records are grouped by diet group, the diet
    groups in the order of the diet-group kind, and within one diet group
    the second labels come in the order in which they are first
    encountered among the rows of that diet group. *)
Theorem emission_order (data : list (obj value)) :
  let cs := contributing Number_toString data in
  let out := loadData Number_toString data in
  map dietGroup (records_of_kind KDietGroup out)
    = key_order (distinct c_diet cs)
  /\ (exists indices,
        key_order (distinct c_diet cs)
        = indices ++ filter (fun k => negb (is_index k)) (distinct c_diet cs)
        /\ Permutation (filter is_index (distinct c_diet cs)) indices
        /\ ascending indices)
  /\ (Forall (fun c => is_index (c_diet c) = false) cs ->
      key_order (distinct c_diet cs) = distinct c_diet cs)
  /\ map gender (records_of_kind KGender out) = distinct c_gender cs
  /\ map ageGroup (records_of_kind KAgeGroup out) = distinct c_age cs
  /\ map (fun r => (dietGroup r, gender r)) (records_of_kind KDietGender out)
     = flat_map (fun d => map (pair d)
                            (distinct c_gender (members c_diet d cs)))
                (key_order (distinct c_diet cs))
  /\ map (fun r => (dietGroup r, ageGroup r)) (records_of_kind KDietAge out)
     = flat_map (fun d => map (pair d)
                            (distinct c_age (members c_diet d cs)))
                (key_order (distinct c_diet cs)).
Proof.
  intros cs out. unfold out. rewrite !records_by_kind. fold cs.
  assert (Hw : Forall well_labelled cs) by apply canonicals_well_labelled.
  split; [|split; [|split; [|split; [|split; [|split]]]]].
  - rewrite map_map. simpl. apply map_id.
  - apply key_order_shape.
  - apply distinct_plain.
  - rewrite map_map. simpl. rewrite map_id.
    apply distinct_plain, gender_plain, Hw.
  - rewrite map_map. simpl. rewrite map_id.
    apply distinct_plain, age_plain, Hw.
  - induction (key_order (distinct c_diet cs)) as [|d l IH]; simpl.
    + reflexivity.
    + rewrite map_app, IH, map_map. simpl. f_equal.
      rewrite distinct_plain; [reflexivity|].
      apply gender_plain, Forall_members, Hw.
  - induction (key_order (distinct c_diet cs)) as [|d l IH]; simpl.
    + reflexivity.
    + rewrite map_app, IH, map_map. simpl. f_equal.
      rewrite distinct_plain; [reflexivity|].
      apply age_plain, Forall_members, Hw.
Qed.

(** *** Numeric coercion *)

Lemma or_zero_not_NaN (x : num) : isNaN (or_zero x) = false.
Proof. destruct x; unfold or_zero; simpl; try reflexivity.
  now destruct (negb (Qis_zero q)). Qed.

(** Only a number-typed NaN is coerced to NaN. *)
Lemma safeParseFloat_NaN (v : value) :
  isNaN (safeParseFloat Number_toString v) = true -> v = VNum NaN.
Proof.
  destruct v as [| |b|x|s|s];
    try (unfold safeParseFloat; destruct (negb (truthy _));
         [discriminate | rewrite or_zero_not_NaN; discriminate]).
  destruct x; simpl; congruence.
Qed.

Lemma str_map_twice (f : ascii -> ascii) (s : string) :
  (forall c, f (f c) = f c) -> str_map f (str_map f s) = str_map f s.
Proof. intros H. induction s; simpl; [reflexivity | now rewrite H, IHs]. Qed.

Lemma trimStart_map (f : ascii -> ascii) (s : string) :
  (forall c, is_space (f c) = is_space c) ->
  trimStart (str_map f s) = str_map f (trimStart s).
Proof.
  intros H. induction s as [|c s IH]; simpl; [reflexivity|].
  rewrite H. now destruct (is_space c).
Qed.

Lemma all_space_map (f : ascii -> ascii) (s : string) :
  (forall c, is_space (f c) = is_space c) ->
  all_space (str_map f s) = all_space s.
Proof.
  intros H. induction s as [|c s IH]; simpl; [reflexivity|].
  now rewrite H, IH.
Qed.

Lemma trimEnd_map (f : ascii -> ascii) (s : string) :
  (forall c, is_space (f c) = is_space c) ->
  trimEnd (str_map f s) = str_map f (trimEnd s).
Proof.
  intros H. induction s as [|c s IH]; simpl; [reflexivity|].
  rewrite H, (all_space_map f s H), IH.
  now destruct (is_space c && all_space s).
Qed.

Lemma trim_map (f : ascii -> ascii) (s : string) :
  (forall c, is_space (f c) = is_space c) ->
  trim (str_map f s) = str_map f (trim s).
Proof.
  intros H. unfold trim. now rewrite trimStart_map, trimEnd_map.
Qed.




(** *** Canonicalisation tables *)

(** The rows of the three tables. *)
Lemma tables_on_known_codes :
  map (standardDietGroup Number_toString)
      ["vegan"; "veggie"; "fish"; "meat"; "meat50"; "meat100"]
  = ["vegan"; "vegetarian"; "fish"; "low_meat"; "medium_meat"; "high_meat"]
  /\ map (standardGender Number_toString) ["female"; "male"]
     = ["Female"; "Male"]
  /\ map (standardAgeGroup Number_toString)
         ["20-29"; "30-39"; "40-49"; "50-59"; "60-69"; "70-79"]
     = ["20-29"; "30-39"; "40-49"; "50-59"; "60-69"; "70-79"].
Proof. repeat split. Qed.

(** X4. Outside the names of the members of Object.prototype the three
    lookups are those of the tables: a diet code that is in no table
    passes through, a gender or age code that is in no table (the empty
    code included) becomes "Unknown". *)
Theorem tables_outside_inherited_names (code : string) :
  is_inherited code = false ->
  standardDietGroup Number_toString code
    = match obj_get code dietGroupMapping with
      | Some v => toString Number_toString v
      | None => code
      end
  /\ standardGender Number_toString code
     = match obj_get code genderMapping with
       | Some v => toString Number_toString v
       | None => "Unknown"
       end
  /\ standardAgeGroup Number_toString code
     = match obj_get code ageGroupMapping with
       | Some v => toString Number_toString v
       | None => "Unknown"
       end.
Proof.
  intros Hi. unfold is_inherited in Hi.
  assert (Hget : forall mapping, table_ok mapping ->
            match obj_get code mapping with
            | Some v => js_get mapping code = v /\ truthy v = true
            | None => js_get mapping code = VUndefined
            end).
  { intros mapping Hm. unfold js_get.
    destruct (obj_get code mapping) as [v|] eqn:E.
    - split; [reflexivity|]. apply obj_get_In in E.
      unfold table_ok in Hm. rewrite Forall_forall in Hm.
      destruct (Hm _ E) as [t [Ht [_ Hne]]]. simpl in Ht. subst v. simpl.
      now destruct (String.eqb_spec t "").
    - now destruct (inherited code). }
  pose proof (Hget _ dietGroupMapping_ok) as Hd.
  pose proof (Hget _ genderMapping_ok) as Hg.
  pose proof (Hget _ ageGroupMapping_ok) as Ha.
  unfold standardDietGroup, standardGender, standardAgeGroup,
    standard_or_Unknown.
  repeat split.
  - destruct (obj_get code dietGroupMapping);
      [destruct Hd as [-> ->] | rewrite Hd]; reflexivity.
  - destruct (obj_get code genderMapping) as [v|] eqn:E.
    + destruct Hg as [-> ->].
      destruct (truthy (VStr code)) eqn:Ec; [reflexivity|].
      simpl in Ec. apply negb_false_iff, String.eqb_eq in Ec. subst code.
      discriminate.
    + rewrite Hg. now destruct (truthy (VStr code)).
  - destruct (obj_get code ageGroupMapping) as [v|] eqn:E.
    + destruct Ha as [-> ->].
      destruct (truthy (VStr code)) eqn:Ec; [reflexivity|].
      simpl in Ec. apply negb_false_iff, String.eqb_eq in Ec. subst code.
      discriminate.
    + rewrite Ha. now destruct (truthy (VStr code)).
Qed.

(** X5. Canonicalising a diet label again changes nothing. *)
Theorem standardDietGroup_idempotent (code : string) :
  standardDietGroup Number_toString (standardDietGroup Number_toString code)
  = standardDietGroup Number_toString code.
Proof.
  unfold standardDietGroup at 2 3. unfold js_get.
  destruct (obj_get code dietGroupMapping) as [v|] eqn:E.
  - simpl in E.
    repeat match type of E with
    | (if ?b then _ else _) = _ =>
        destruct b; [injection E as <-; reflexivity|]
    end.
    discriminate.
  - destruct (inherited code) as [t|] eqn:Ei.
    + cbn [truthy toString]. unfold inherited in Ei.
      destruct (String.eqb code "constructor");
        [injection Ei as <-; reflexivity|].
      destruct (String.eqb code "__proto__");
        [injection Ei as <-; reflexivity|].
      destruct (includes code Object_prototype_functions); [|discriminate].
      injection Ei as <-. reflexivity.
    + cbn [truthy]. unfold standardDietGroup, js_get. now rewrite E, Ei.
Qed.

(** C6 at the failing input. A gender, age or diet code that names a
    member of Object.prototype is found by the table lookup: it becomes
    the text of that member, neither "Unknown" nor the code itself. *)
Theorem inherited_code_is_looked_up :
  standardGender Number_toString "constructor"
    = "function Object() { [native code] }"
  /\ standardAgeGroup Number_toString "__proto__" = "[object Object]"
  /\ standardDietGroup Number_toString "constructor"
     = "function Object() { [native code] }"
  /\ map gender
       (records_of_kind KGender
          (loadData Number_toString
             [[("diet_group", VStr "vegan"); ("sex", VStr "Constructor")]]))
     = ["function Object() { [native code] }"].
Proof. repeat split. Qed.

(** *** The averaging denominator *)

Definition no_NaN_cell (row : obj value) : bool :=
  forallb (fun p => match snd p with VNum NaN => false | _ => true end) row.

Lemma js_get_no_NaN (row : obj value) (k : string) :
  no_NaN_cell row = true -> js_get row k <> VNum NaN.
Proof.
  intros H. unfold js_get.
  destruct (obj_get k row) as [v|] eqn:E.
  - apply obj_get_In in E. unfold no_NaN_cell in H.
    rewrite forallb_forall in H. specialize (H _ E). simpl in H.
    intros ->. discriminate.
  - destruct (inherited k); discriminate.
Qed.

Lemma canonical_readings_not_NaN (actualColumns row : obj value)
    (c : CanonicalRecord) (i : indicator) :
  no_NaN_cell row = true ->
  canonical Number_toString actualColumns row = Some c ->
  isNaN (reading i (c_values c)) = false.
Proof.
  intros Hrow. unfold canonical.
  destruct (negb (truthy (VStr _))); [discriminate|].
  intros H. injection H as <-.
  destruct (isNaN _) eqn:E; [|reflexivity].
  destruct i; simpl in E; apply safeParseFloat_NaN in E;
    now apply js_get_no_NaN in E.
Qed.

Lemma kept_all (xs : list num) :
  Forall (fun x => isNaN x = false) xs -> kept xs = xs.
Proof.
  intros H. unfold kept. induction H as [|x l Hx Hl IH]; simpl.
  - reflexivity.
  - rewrite Hx. simpl. now f_equal.
Qed.

(** X3. Unless a cell is a number-typed NaN, every contributing row of a
    bucket is one sample of each indicator of that bucket: the averaging
    denominator is the number of rows of the bucket. *)
Theorem every_row_is_a_sample (data : list (obj value)) (i : indicator)
    (key : CanonicalRecord -> string) (k : string) :
  forallb no_NaN_cell data = true ->
  let rows := members key k (contributing Number_toString data) in
  sample_array i (collect rows) = map (fun c => reading i (c_values c)) rows
  /\ List.length (sample_array i (collect rows)) = List.length rows.
Proof.
  intros H rows.
  assert (E : sample_array i (collect rows)
              = map (fun c => reading i (c_values c)) rows).
  { rewrite sample_array_collect. apply kept_all.
    apply Forall_map, Forall_forall. intros c Hc.
    apply members_In in Hc. destruct Hc as [Hc _].
    apply canonicals_In in Hc. destruct Hc as [row [Hrow Hc]].
    rewrite forallb_forall in H.
    eapply canonical_readings_not_NaN; eauto. }
  split; [exact E|]. rewrite E. apply length_map.
Qed.

(** *** The column mapping *)

Lemma obj_get_absent {T} (k : string) (o : obj T) :
  ~ In k (map fst o) -> obj_get k o = None.
Proof.
  induction o as [|[k' v] t IH]; simpl; [reflexivity|].
  intros H. destruct (String.eqb_spec k k') as [->|].
  - exfalso. apply H. now left.
  - apply IH. intros H'. apply H. now right.
Qed.

Lemma fold_reconcile_field (availableColumns : list string)
    (entries : obj (list string)) (acc : obj value) (f : string) :
  NoDup (map fst entries) ->
  obj_get f (fold_left (reconcile_field availableColumns) entries acc)
  = match obj_get f entries with
    | Some names =>
        match find_column availableColumns names with
        | Some h => if truthy (VStr h) then Some (VStr h) else obj_get f acc
        | None => obj_get f acc
        end
    | None => obj_get f acc
    end.
Proof.
  revert acc. induction entries as [|[f0 names0] rest IH]; intros acc Hnd.
  - reflexivity.
  - simpl in Hnd. inversion Hnd as [|? ? Hnotin Hrest]; subst.
    cbn [fold_left obj_get]. rewrite (IH _ Hrest).
    destruct (String.eqb_spec f f0) as [->|Hne].
    + rewrite (obj_get_absent _ _ Hnotin). unfold reconcile_field.
      destruct (find_column availableColumns names0) as [h|]; [|reflexivity].
      destruct (truthy (VStr h)); [|reflexivity].
      now rewrite obj_get_set, String.eqb_refl.
    + assert (E : obj_get f (reconcile_field availableColumns acc (f0, names0))
                  = obj_get f acc).
      { unfold reconcile_field.
        destruct (find_column availableColumns names0) as [h|]; [|reflexivity].
        destruct (truthy (VStr h)); [|reflexivity].
        rewrite obj_get_set.
        now destruct (String.eqb_spec f f0). }
      now rewrite E.
Qed.

Lemma digit_char_fixed (c : ascii) :
  is_digit c = true -> lower_char c = c /\ is_space c = false.
Proof.
  destruct c as [[] [] [] [] [] [] [] []]; vm_compute; intros H;
    try discriminate; split; reflexivity.
Qed.

Lemma digits_fixed (k : string) :
  snd (span_digits k) = "" ->
  toLowerCase k = k /\ trimStart k = k /\ trimEnd k = k.
Proof.
  induction k as [|c t IH]; [now repeat split|].
  simpl. destruct (is_digit c) eqn:Ec.
  - destruct (span_digits t) as [ds r]. simpl in *. intros Hr.
    destruct (IH Hr) as (H1 & H2 & H3).
    destruct (digit_char_fixed c Ec) as [Hl Hs].
    rewrite Hs. simpl. repeat split.
    + unfold toLowerCase in *. simpl. now rewrite Hl, H1.
    + now rewrite H3.
  - simpl. discriminate.
Qed.

Lemma index_key_fixed (k : string) :
  is_index k = true -> trim (toLowerCase k) = k.
Proof.
  intros H. assert (Hs : snd (span_digits k) = "").
  { unfold is_index, array_index in H.
    destruct (span_digits k) as [ds r]. simpl.
    destruct ds; [discriminate|]. destruct r; [reflexivity | discriminate]. }
  destruct (digits_fixed k Hs) as (H1 & H2 & H3).
  unfold trim. now rewrite H1, H2, H3.
Qed.

Lemma find_no_index {T} (f : string -> bool) (o : obj T) :
  (forall k, is_index k = true -> f k = false) ->
  find f (Object_keys o) = find f (map fst o).
Proof.
  intros Hf. unfold Object_keys, Object_entries. rewrite map_app.
  assert (E1 : forall l : list string,
            Forall (fun k => is_index k = true) l ->
            forall l', find f (l ++ l') = find f l').
  { intros l Hl l'. induction Hl as [|k l Hk _ IH]; simpl; [reflexivity|].
    now rewrite (Hf k Hk). }
  rewrite E1.
  - induction o as [|[k v] t IH]; simpl; [reflexivity|].
    destruct (is_index k) eqn:Ek; simpl.
    + now rewrite (Hf k Ek).
    + now rewrite IH.
  - apply Forall_map, Forall_forall. intros p Hp.
    apply sort_by_index_In, filter_In in Hp. tauto.
Qed.

Lemma columnMap_aliases (targetField : string) (possibleNames : list string) :
  In (targetField, possibleNames) columnMap ->
  includes "" possibleNames = false
  /\ forallb (fun a => negb (is_index a)) possibleNames = true
  /\ is_inherited targetField = false
  /\ obj_get targetField columnMap = Some possibleNames.
Proof.
  intros H. simpl in H.
  repeat (destruct H as [H|H];
          [injection H as <- <-; repeat split; reflexivity|]).
  destruct H.
Qed.

(** X6. The column reconciler, field by field: it looks at the first row
    only; a field of [columnMap] is mapped to the first header, in the
    order of the row, whose lower-cased trimmed form is one of its
    aliases, and is left unmapped when there is none. *)
Theorem reconcile_first_match (sampleRow : obj value)
    (rest : list (obj value)) (targetField : string)
    (possibleNames : list string) :
  In (targetField, possibleNames) columnMap ->
  reconcile (sampleRow :: rest) = reconcile [sampleRow]
  /\ js_get (reconcile (sampleRow :: rest)) targetField
     = match find (fun column =>
                     includes (trim (toLowerCase column)) possibleNames)
                  (map fst sampleRow) with
       | Some foundColumn => VStr foundColumn
       | None => VUndefined
       end.
Proof.
  intros Hin. split; [reflexivity|].
  destruct (columnMap_aliases Hin) as (Hempty & Hplain & Hown & Hget).
  unfold js_get, reconcile.
  change (Object_entries columnMap) with columnMap.
  rewrite fold_reconcile_field
    by (simpl; repeat constructor; simpl; intuition discriminate).
  rewrite Hget. unfold find_column.
  rewrite find_no_index.
  - destruct (find _ (map fst sampleRow)) as [h|] eqn:E.
    + apply find_some in E. destruct E as [_ E].
      destruct h as [|c h]; [|reflexivity].
      change (trim (toLowerCase "")) with "" in E. congruence.
    + simpl. unfold is_inherited in Hown.
      now destruct (inherited targetField).
  - intros k Hk. rewrite (index_key_fixed k Hk).
    destruct (includes k possibleNames) eqn:E; [|reflexivity].
    apply existsb_eqb_In in E. rewrite forallb_forall in Hplain.
    apply Hplain in E. now rewrite Hk in E.
Qed.

(** X7. A field that is unmapped is absent from every row that has no
    property named "undefined": its category cleans to the empty string
    and its number is coerced to 0. *)
Theorem unmapped_field_is_absent (data : list (obj value))
    (targetField : string) (row : obj value) :
  js_get (reconcile data) targetField = VUndefined ->
  obj_get "undefined" row = None ->
  cell Number_toString (reconcile data) targetField row = VUndefined
  /\ cleanString Number_toString
       (cell Number_toString (reconcile data) targetField row) = ""
  /\ safeParseFloat Number_toString
       (cell Number_toString (reconcile data) targetField row) = Fin 0.
Proof.
  intros Hun Hrow.
  assert (E : cell Number_toString (reconcile data) targetField row
              = VUndefined).
  { unfold cell. rewrite Hun. simpl. unfold js_get. now rewrite Hrow. }
  rewrite E. repeat split.
Qed.

End Loader.

(* ===================================================================== *)
(** ** The loader on concrete inputs *)
(* ===================================================================== *)

Example parseFloat_2_5 : parseFloat "2.5" = Fin (5 # 2).
Proof. reflexivity. Qed.
Example parseFloat_exp : parseFloat "-1.25e2xyz" = Fin (-125 # 1).
Proof. reflexivity. Qed.
Example parseFloat_frac : parseFloat ".5" = Fin (1 # 2).
Proof. reflexivity. Qed.
Example parseFloat_empty : parseFloat "" = NaN.
Proof. reflexivity. Qed.
Example parseFloat_dot : parseFloat "." = NaN.
Proof. reflexivity. Qed.
Example parseFloat_inf : parseFloat "Infinity" = PInf.
Proof. reflexivity. Qed.
Example parseFloat_e_alone : parseFloat "7e" = Fin 7.
Proof. reflexivity. Qed.

(** A rendering of numbers for the inputs below: exact on integers and on
    the three special values, which is all a category cell of these
    inputs could hold. *)
Definition render_number (x : num) : string :=
  match x with
  | NaN => "NaN"
  | PInf => "Infinity"
  | NInf => "-Infinity"
  | Fin q => NilZero.string_of_int (Z.to_int (Qfloor q))
  end.

(** One parsed row of the survey file. *)
Definition survey_row (diet sex age : string) (mean_ghgs : value)
  : obj value :=
  [ ("diet_group", VStr diet); ("sex", VStr sex); ("age_group", VStr age);
    ("mean_ghgs", mean_ghgs) ].

(** Three vegan rows whose greenhouse-gas cells are 10, empty, 20. *)
Definition rows_10_missing_20 : list (obj value) :=
  [ survey_row "vegan" "female" "20-29" (VNum (Fin 10));
    survey_row "vegan" "female" "20-29" VNull;
    survey_row "vegan" "female" "20-29" (VNum (Fin 20)) ].

(** C1 at the failing input. The empty cell is coerced to 0 and pushed
    like any other sample: every bucket holds three samples and reports
    the mean 10, where the mean of the two present values is 15. *)
Theorem missing_value_is_counted :
  map (fun r => (kind_of r, ghgs r))
      (loadData render_number rows_10_missing_20)
  = [ (Some KDietGroup, Fin 10); (Some KGender, Fin 10);
      (Some KAgeGroup, Fin 10); (Some KDietGender, Fin 10);
      (Some KDietAge, Fin 10) ]
  /\ map (fun e => arr_ghgs (snd e))
         (dietGroupsMap
            (aggregate render_number (reconcile rows_10_missing_20)
               rows_10_missing_20))
     = [[Fin 10; Fin 0; Fin 20]]
  /\ average [Fin 10; Fin 20] = Fin 15.
Proof. repeat split. Qed.

(** One row with all three labels present. *)
Definition one_row : list (obj value) :=
  [ survey_row "veggie" "male" "30-39" (VStr "5,5") ].

(** C2, counterexample. The row has a diet-group label, five records are
    emitted, and none of them has the sentinel in all three dimensions. *)
Lemma no_record_of_the_All_kind :
  existsb (has_diet_label render_number (reconcile one_row)) one_row = true
  /\ map (fun r => (dietGroup r, gender r, ageGroup r))
         (loadData render_number one_row)
     = [ ("vegetarian", "All", "All"); ("All", "Male", "All");
         ("All", "All", "30-39"); ("vegetarian", "Male", "All");
         ("vegetarian", "All", "30-39") ]
  /\ existsb (fun r => is_All (dietGroup r) && is_All (gender r)
                       && is_All (ageGroup r))
             (loadData render_number one_row) = false.
Proof. repeat split. Qed.

Lemma loadData_five_kinds_witness :
  In (survey_row "veggie" "male" "30-39" (VStr "5,5")) one_row
  /\ canonical render_number (reconcile one_row)
       (survey_row "veggie" "male" "30-39" (VStr "5,5"))
     = Some (mkCanonical "vegetarian" "Male" "30-39"
               (mkReadings (Fin (11 # 2)) (Fin 0) (Fin 0) (Fin 0) (Fin 0)
                  (Fin 0)))
  /\ (exists r, In r (loadData render_number one_row)
        /\ kind_of r = Some KDietAge
        /\ dietGroup r = "vegetarian" /\ gender r = "All"
        /\ ageGroup r = "30-39" /\ field Ghgs r = Fin (11 # 2))
  /\ records_of_kind KAll (loadData render_number one_row) = [].
Proof.
  assert (H1 : In (survey_row "veggie" "male" "30-39" (VStr "5,5")) one_row)
    by (left; reflexivity).
  assert (H2 : canonical render_number (reconcile one_row)
                 (survey_row "veggie" "male" "30-39" (VStr "5,5"))
               = Some (mkCanonical "vegetarian" "Male" "30-39"
                         (mkReadings (Fin (11 # 2)) (Fin 0) (Fin 0) (Fin 0)
                            (Fin 0) (Fin 0))))
    by reflexivity.
  destruct (loadData_five_kinds render_number one_row _ H1 H2)
    as (_ & _ & _ & _ & (r & Hr & Hk & Hd & Hg & Ha & Hf) & Hall).
  split; [exact H1|]. split; [exact H2|]. split; [|exact Hall].
  exists r. split; [exact Hr|]. split; [exact Hk|]. split; [exact Hd|].
  split; [exact Hg|]. split; [exact Ha|].
  rewrite Hf. vm_compute. reflexivity.
Defined.

Lemma label_lists_contain_All_witness :
  existsb (has_diet_label render_number (reconcile one_row)) one_row = true
  /\ In "All" (dietGroups (loadData render_number one_row))
  /\ In "All" (genderGroups (loadData render_number one_row))
  /\ In "All" (ageGroups (loadData render_number one_row)).
Proof.
  assert (H : existsb (has_diet_label render_number (reconcile one_row))
                one_row = true) by reflexivity.
  split; [exact H|].
  exact (proj1 (label_lists_contain_All render_number one_row H)).
Defined.

(** Three rows: vegan/female, fish/female, vegan/male. *)
Definition rows_vegan_fish_vegan : list (obj value) :=
  [ survey_row "vegan" "female" "20-29" (VNum (Fin 1));
    survey_row "fish" "female" "20-29" (VNum (Fin 2));
    survey_row "vegan" "male" "20-29" (VNum (Fin 3)) ].

(** Distinct pairs, in order of first encounter. *)
Fixpoint first_seen_pairs (l : list (string * string))
  : list (string * string) :=
  match l with
  | [] => []
  | p :: t =>
      p :: filter (fun q => negb (String.eqb (fst p) (fst q)
                                  && String.eqb (snd p) (snd q)))
                  (first_seen_pairs t)
  end.

(** C3, counterexample. The pair (fish, Female) is first encountered
    before (vegan, Male) and is emitted after it. *)
Lemma pairs_not_in_order_of_first_encounter :
  first_seen_pairs
    (map (fun c => (c_diet c, c_gender c))
         (contributing render_number rows_vegan_fish_vegan))
  = [ ("vegan", "Female"); ("fish", "Female"); ("vegan", "Male") ]
  /\ map (fun r => (dietGroup r, gender r))
         (records_of_kind KDietGender
            (loadData render_number rows_vegan_fish_vegan))
     = [ ("vegan", "Female"); ("vegan", "Male"); ("fish", "Female") ].
Proof. split; reflexivity. Qed.

(** Diet codes that are array indices (here the numbers 10 and 2) are
    emitted first, in ascending numeric order, whatever the order of the
    rows. *)
Example index_labels_are_emitted_first :
  map dietGroup
      (records_of_kind KDietGroup
         (loadData render_number
            [ [ ("diet_group", VStr "vegan"); ("mean_ghgs", VNum (Fin 1)) ];
              [ ("diet_group", VNum (Fin 10)); ("mean_ghgs", VNum (Fin 2)) ];
              [ ("diet_group", VNum (Fin 2)); ("mean_ghgs", VNum (Fin 3)) ] ]))
  = ["2"; "10"; "vegan"].
Proof. reflexivity. Qed.

(** A file without a diet-group column and with a column named
    "undefined". *)
Definition rows_with_undefined_column : list (obj value) :=
  [ [ ("undefined", VNum (Fin 7)); ("sex", VStr "male") ] ].

(** C9 at the failing input. No header matches an alias of dietGroup or
    of ghgs, so both fields are unmapped; their cells are read under the
    key "undefined" and are not absent: the row is not skipped (the text
    of 7 becomes its diet group) and its greenhouse-gas value is 7, not
    0. *)
Theorem unmapped_field_reads_undefined_column :
  obj_get "dietGroup" (reconcile rows_with_undefined_column) = None
  /\ obj_get "ghgs" (reconcile rows_with_undefined_column) = None
  /\ map (fun row =>
            cell render_number (reconcile rows_with_undefined_column)
                 "dietGroup" row)
         rows_with_undefined_column
     = [VNum (Fin 7)]
  /\ map (fun r => (dietGroup r, gender r, ghgs r))
         (records_of_kind KDietGender
            (loadData render_number rows_with_undefined_column))
     = [("7", "Male", Fin 7)].
Proof. repeat split. Qed.

(** The two rows of the specification's example: the ghgs cells are the
    texts "2.5" and "3.5". *)
Definition rows_2_5_and_3_5 : list (obj value) :=
  [ [ ("diet", VStr "vegan"); ("sex", VStr "female"); ("age", VStr "20-29");
      ("ghgs", VStr "2.5") ];
    [ ("diet", VStr "vegan"); ("sex", VStr "male"); ("age", VStr "20-29");
      ("ghgs", VStr "3.5") ] ].

(** The diet-group bucket "vegan" and the bucket ("vegan", "20-29") both
    report the mean 3. *)
Example mean_of_2_5_and_3_5 :
  map (fun r => (dietGroup r, ghgs r))
      (records_of_kind KDietGroup (loadData render_number rows_2_5_and_3_5))
  = [ ("vegan", Fin 3) ]
  /\ map (fun r => (dietGroup r, ageGroup r, ghgs r))
         (records_of_kind KDietAge (loadData render_number rows_2_5_and_3_5))
     = [ ("vegan", "20-29", Fin 3) ].
Proof. split; reflexivity. Qed.

Lemma tables_outside_inherited_names_witness :
  is_inherited "pescatarian" = false
  /\ standardDietGroup render_number "pescatarian" = "pescatarian"
  /\ standardGender render_number "pescatarian" = "Unknown"
  /\ standardAgeGroup render_number "pescatarian" = "Unknown".
Proof.
  assert (H : is_inherited "pescatarian" = false) by reflexivity.
  split; [exact H|].
  exact (tables_outside_inherited_names render_number "pescatarian" H).
Defined.

Lemma every_row_is_a_sample_witness :
  forallb no_NaN_cell rows_10_missing_20 = true
  /\ sample_array Ghgs
       (collect (members c_diet "vegan"
                   (contributing render_number rows_10_missing_20)))
     = map (fun c => reading Ghgs (c_values c))
           (members c_diet "vegan"
              (contributing render_number rows_10_missing_20))
  /\ List.length
       (sample_array Ghgs
          (collect (members c_diet "vegan"
                      (contributing render_number rows_10_missing_20))))
     = List.length
         (members c_diet "vegan"
            (contributing render_number rows_10_missing_20)).
Proof.
  assert (H : forallb no_NaN_cell rows_10_missing_20 = true) by reflexivity.
  split; [exact H|].
  exact (every_row_is_a_sample render_number rows_10_missing_20 Ghgs
           c_diet "vegan" H).
Defined.

(** A header row in which two columns match the aliases of dietGroup. *)
Definition row_with_two_diet_columns : obj value :=
  [ ("2020", VNum (Fin 1)); (" Diet ", VStr "vegan");
    ("diet_group", VStr "fish"); ("sex", VStr "male") ].

Lemma reconcile_first_match_witness :
  In ("dietGroup", ["diet_group"; "dietgroup"; "diet"]) columnMap
  /\ js_get (reconcile [row_with_two_diet_columns]) "dietGroup"
     = VStr " Diet "
  /\ js_get (reconcile [row_with_two_diet_columns]) "ageGroup" = VUndefined.
Proof.
  assert (H : In ("dietGroup", ["diet_group"; "dietgroup"; "diet"]) columnMap)
    by (left; reflexivity).
  split; [exact H|]. split; [|reflexivity].
  exact (proj2 (reconcile_first_match row_with_two_diet_columns [] H)).
Defined.

Lemma unmapped_field_is_absent_witness :
  js_get (reconcile [row_with_two_diet_columns]) "ageGroup" = VUndefined
  /\ obj_get "undefined" row_with_two_diet_columns = None
  /\ cell render_number (reconcile [row_with_two_diet_columns]) "ageGroup"
          row_with_two_diet_columns = VUndefined
  /\ cleanString render_number
       (cell render_number (reconcile [row_with_two_diet_columns]) "ageGroup"
             row_with_two_diet_columns) = ""
  /\ safeParseFloat render_number
       (cell render_number (reconcile [row_with_two_diet_columns]) "ageGroup"
             row_with_two_diet_columns) = Fin 0.
Proof.
  assert (H1 : js_get (reconcile [row_with_two_diet_columns]) "ageGroup"
               = VUndefined) by reflexivity.
  assert (H2 : obj_get "undefined" row_with_two_diet_columns = None)
    by reflexivity.
  split; [exact H1|]. split; [exact H2|].
  exact (unmapped_field_is_absent render_number
           [row_with_two_diet_columns] "ageGroup"
           row_with_two_diet_columns H1 H2).
Defined.

(* ===================================================================== *)
(** ** Properties of the chart *)
(* ===================================================================== *)

Module ChartFacts.
Import Chart.

(** *** Reading back what was written *)

(** The object stored for a pair of groups, if any. *)
Definition cell_of (combinedData : obj (obj (obj num))) (d a : string)
  : option (obj num) :=
  match obj_get d combinedData with
  | None => None
  | Some byAge => obj_get a byAge
  end.

Definition present (combinedData : obj (obj (obj num))) (d a : string)
  : bool :=
  match cell_of combinedData d a with Some _ => true | None => false end.

Lemma stored_cell_of (cd : obj (obj (obj num))) (d a : string)
    (i : indicator) :
  stored cd d a i =
  match cell_of cd d a with
  | Some m => obj_get (indicator_value i) m
  | None => None
  end.
Proof. unfold stored, cell_of. now destruct (obj_get d cd). Qed.

Lemma get_after_sets {T} (v : T) (a : string) (l : list string) (m : obj T) :
  obj_get a (fold_left (fun m a' => obj_set a' v m) l m)
  = if existsb (String.eqb a) l then Some v else obj_get a m.
Proof.
  revert m. induction l as [|a0 l IH]; intros m; simpl; [reflexivity|].
  rewrite IH, obj_get_set.
  destruct (existsb (String.eqb a) l); [now rewrite orb_true_r|].
  rewrite orb_false_r. reflexivity.
Qed.

Lemma get_after_updates {T} (g : string -> T -> T) (d d0 : string)
    (l : list string) (cd : obj T) :
  obj_get d (fold_left (fun cd a => obj_update d0 (g a) cd) l cd)
  = if String.eqb d d0
    then option_map (fun m => fold_left (fun m a => g a m) l m) (obj_get d cd)
    else obj_get d cd.
Proof.
  revert cd. induction l as [|a0 l IH]; intros cd; simpl.
  - destruct (String.eqb d d0); [now destruct (obj_get d cd) | reflexivity].
  - rewrite IH, obj_get_update.
    destruct (String.eqb d d0); [|reflexivity].
    now destruct (obj_get d cd).
Qed.

Lemma cell_of_init (ud ua : list string) (d a : string) :
  cell_of (init_combined ud ua) d a
  = if existsb (String.eqb d) ud && existsb (String.eqb a) ua
    then Some [] else None.
Proof.
  unfold init_combined.
  enough (H : forall cd0,
    cell_of (fold_left (fun combinedData d =>
        fold_left (fun combinedData a =>
                     obj_update d (obj_set a []) combinedData)
                  ua (obj_set d [] combinedData)) ud cd0) d a
    = if existsb (String.eqb d) ud
      then (if existsb (String.eqb a) ua then Some [] else None)
      else cell_of cd0 d a).
  { rewrite H. unfold cell_of. simpl.
    now destruct (existsb (String.eqb d) ud). }
  induction ud as [|d0 ud IH]; intros cd0; simpl; [reflexivity|].
  rewrite IH.
  destruct (existsb (String.eqb d) ud); [now rewrite orb_true_r|].
  rewrite orb_false_r. unfold cell_of.
  rewrite (get_after_updates (fun a : string => obj_set a ([] : obj num))),
    obj_get_set.
  destruct (String.eqb d d0); [|reflexivity].
  simpl. now rewrite get_after_sets.
Qed.

Definition indicator_eqb (i j : indicator) : bool :=
  match i, j with
  | Ghgs, Ghgs | LandUse, LandUse | WaterScarcity, WaterScarcity
  | Eutrophication, Eutrophication | Acidification, Acidification
  | MeanBio, MeanBio => true
  | _, _ => false
  end.

Lemma indicator_value_eqb (i j : indicator) :
  String.eqb (indicator_value i) (indicator_value j) = indicator_eqb i j.
Proof. destruct i, j; reflexivity. Qed.

Lemma get_after_writes (v : indicator -> num) (i : indicator)
    (l : list indicator) (m : obj num) :
  obj_get (indicator_value i)
    (fold_left (fun m j => obj_set (indicator_value j) (v j) m) l m)
  = if existsb (indicator_eqb i) l then Some (v i)
    else obj_get (indicator_value i) m.
Proof.
  revert m. induction l as [|j l IH]; intros m; simpl; [reflexivity|].
  rewrite IH, obj_get_set, indicator_value_eqb.
  destruct (existsb (indicator_eqb i) l); [now rewrite orb_true_r|].
  rewrite orb_false_r.
  destruct i, j; reflexivity.
Qed.

Lemma cell_of_writes (v : indicator -> num) (d0 a0 d a : string)
    (l : list indicator) (cd : obj (obj (obj num))) :
  cell_of (fold_left (fun cd i =>
      obj_update d0 (obj_update a0 (obj_set (indicator_value i) (v i))) cd)
    l cd) d a
  = if String.eqb d d0 && String.eqb a a0
    then option_map
           (fun m => fold_left
                       (fun m j => obj_set (indicator_value j) (v j) m) l m)
           (cell_of cd d a)
    else cell_of cd d a.
Proof.
  revert cd. induction l as [|j l IH]; intros cd; simpl.
  - destruct (String.eqb d d0 && String.eqb a a0); [|reflexivity].
    now destruct (cell_of cd d a).
  - rewrite IH. unfold cell_of. rewrite obj_get_update.
    destruct (String.eqb d d0); simpl; [|reflexivity].
    destruct (obj_get d cd) as [byAge|]; simpl.
    + rewrite obj_get_update.
      destruct (String.eqb a a0); [|reflexivity].
      now destruct (obj_get a byAge).
    + now destruct (String.eqb a a0).
Qed.

Lemma at_groups_sym (d a : string) (item : DietData) :
  at_groups d a item
  = String.eqb d (dietGroup item) && String.eqb a (ageGroup item).
Proof.
  unfold at_groups.
  now rewrite (String.eqb_sym (dietGroup item)),
    (String.eqb_sym (ageGroup item)).
Qed.

Lemma at_groups_eq (d a : string) (item : DietData) :
  at_groups d a item = true -> dietGroup item = d /\ ageGroup item = a.
Proof.
  unfold at_groups. intros H. apply andb_true_iff in H.
  destruct H as [H1 H2]. now apply String.eqb_eq in H1, H2.
Qed.

Lemma cell_of_fill (F : list DietData) (cd : obj (obj (obj num)))
    (item : DietData) (d a : string) :
  cell_of (fill F cd item) d a
  = if at_groups d a item
    then option_map
           (fun m => fold_left
              (fun m j => obj_set (indicator_value j) (normalize F j item) m)
              indicators m)
           (cell_of cd d a)
    else cell_of cd d a.
Proof.
  unfold fill.
  destruct (obj_get (dietGroup item) cd) as [byAge|] eqn:E1.
  - destruct (obj_get (ageGroup item) byAge) as [m0|] eqn:E2.
    + rewrite (cell_of_writes (fun j => normalize F j item)).
      now rewrite at_groups_sym.
    + destruct (at_groups d a item) eqn:E; [|reflexivity].
      apply at_groups_eq in E. destruct E as [<- <-].
      unfold cell_of. now rewrite E1, E2.
  - destruct (at_groups d a item) eqn:E; [|reflexivity].
    apply at_groups_eq in E. destruct E as [<- <-].
    unfold cell_of. now rewrite E1.
Qed.

Lemma present_fill (F : list DietData) (cd : obj (obj (obj num)))
    (item : DietData) (d a : string) :
  present (fill F cd item) d a = present cd d a.
Proof.
  unfold present. rewrite cell_of_fill.
  destruct (at_groups d a item); [|reflexivity].
  now destruct (cell_of cd d a).
Qed.

Lemma all_indicators_complete (i : indicator) :
  existsb (indicator_eqb i) indicators = true.
Proof. destruct i; reflexivity. Qed.

Lemma stored_fill (F : list DietData) (cd : obj (obj (obj num)))
    (item : DietData) (d a : string) (i : indicator) :
  stored (fill F cd item) d a i
  = if at_groups d a item && present cd d a
    then Some (normalize F i item)
    else stored cd d a i.
Proof.
  rewrite !stored_cell_of, cell_of_fill. unfold present.
  destruct (at_groups d a item); [|reflexivity].
  destruct (cell_of cd d a) as [m|]; [|reflexivity].
  cbn [option_map andb].
  rewrite (get_after_writes (fun j => normalize F j item)).
  now rewrite all_indicators_complete.
Qed.

Lemma find_snoc {A} (f : A -> bool) (l : list A) (x : A) :
  find f (l ++ [x])
  = match find f l with
    | Some y => Some y
    | None => if f x then Some x else None
    end.
Proof.
  induction l as [|y l IH]; simpl; [reflexivity|].
  now destruct (f y).
Qed.

(** After the loop, a pair of groups that was initialised holds the
    normalised values of the last item of these groups. *)
Lemma stored_fold_fill (F l : list DietData) (cd : obj (obj (obj num)))
    (d a : string) (i : indicator) :
  stored (fold_left (fill F) l cd) d a i
  = match find (at_groups d a) (rev l) with
    | Some item =>
        if present cd d a then Some (normalize F i item) else stored cd d a i
    | None => stored cd d a i
    end.
Proof.
  revert cd. induction l as [|x l IH]; intros cd; simpl; [reflexivity|].
  rewrite IH, find_snoc, present_fill, stored_fill.
  destruct (find (at_groups d a) (rev l)) as [item|].
  - destruct (present cd d a); [reflexivity|]. now rewrite andb_false_r.
  - destruct (at_groups d a x); reflexivity.
Qed.

(** *** Facts about numbers *)

Definition is_zero (x : num) : bool :=
  match x with Fin q => Qis_zero q | _ => false end.

Lemma Qle_bool_total (a b : Q) : Qle_bool a b = false -> Qle_bool b a = true.
Proof.
  intros H. apply Qle_bool_iff. apply Qlt_le_weak, Qnot_le_lt.
  intros H'. apply Qle_bool_iff in H'. congruence.
Qed.

Lemma max2_spec (x y : num) :
  isNaN x = false -> isNaN y = false ->
  (max2 x y = x \/ max2 x y = y)
  /\ num_leb x (max2 x y) = true /\ num_leb y (max2 x y) = true.
Proof.
  destruct x as [a| | |], y as [b| | |]; simpl; try discriminate;
    intros _ _; try (repeat split; auto; fail).
  - destruct (Qle_bool a b) eqn:E; simpl.
    + repeat split; auto. apply Qle_bool_iff, Qle_refl.
    + repeat split; auto.
      * apply Qle_bool_iff, Qle_refl.
      * now apply Qle_bool_total.
  - repeat split; auto. apply Qle_bool_iff, Qle_refl.
  - repeat split; auto. apply Qle_bool_iff, Qle_refl.
Qed.

Lemma num_leb_trans (x y z : num) :
  num_leb x y = true -> num_leb y z = true -> num_leb x z = true.
Proof.
  destruct x as [a| | |], y as [b| | |], z as [c| | |]; simpl;
    try discriminate; try reflexivity.
  rewrite !Qle_bool_iff. apply Qle_trans.
Qed.

Lemma num_leb_not_NaN (x y : num) :
  num_leb x y = true -> isNaN x = false /\ isNaN y = false.
Proof. destruct x, y; simpl; try discriminate; auto. Qed.

Lemma fold_max2_spec (l : list num) (acc : num) :
  isNaN acc = false -> Forall (fun x => isNaN x = false) l ->
  let r := fold_left max2 l acc in
  (r = acc \/ In r l) /\ num_leb acc r = true
  /\ Forall (fun x => num_leb x r = true) l.
Proof.
  revert acc. induction l as [|x l IH]; intros acc Ha Hl; simpl.
  - repeat split; auto. destruct acc; simpl in *; try discriminate; auto.
    apply Qle_bool_iff, Qle_refl.
  - inversion Hl as [|? ? Hx Hl']; subst.
    destruct (@max2_spec acc x Ha Hx) as (Hc & H1 & H2).
    assert (Hn : isNaN (max2 acc x) = false)
      by (destruct Hc as [-> | ->]; assumption).
    destruct (IH (max2 acc x) Hn Hl') as (Hr & Hle & Hall).
    repeat split.
    + destruct Hr as [Hr | Hr]; [|auto].
      rewrite Hr. destruct Hc as [-> | ->]; auto.
    + eapply num_leb_trans; eauto.
    + constructor; [eapply num_leb_trans; eauto | assumption].
Qed.

(** The maximum of numbers none of which is NaN bounds them all, and is
    one of them when there is any. *)
Lemma Math_max_spec (l : list num) :
  Forall (fun x => isNaN x = false) l ->
  Forall (fun x => num_leb x (Math_max l) = true) l
  /\ (l <> [] -> In (Math_max l) l).
Proof.
  intros Hl. unfold Math_max.
  destruct (@fold_max2_spec l NInf eq_refl Hl) as (Hr & _ & Hall).
  split; [exact Hall|]. intros Hne.
  destruct Hr as [Hr | Hr]; [|exact Hr].
  destruct l as [|x l]; [congruence|].
  inversion Hall as [|? ? Hx _]; subst. rewrite Hr in Hx |- *.
  destruct x; simpl in Hx; try discriminate. now left.
Qed.

Lemma or_zero_Qred (q : Q) : or_zero (Fin (Qred q)) = Fin (Qred q).
Proof.
  unfold or_zero. simpl. unfold Qis_zero.
  destruct (Qeq_bool (Qred q) 0) eqn:E; simpl; [|reflexivity].
  apply Qeq_bool_eq in E. f_equal.
  change 0 with (Qred 0). apply Qred_complete.
  now rewrite <- E, Qred_correct.
Qed.

Lemma weight_positive (i : indicator) : 0 < weight i.
Proof. destruct i; reflexivity. Qed.

Lemma weight_reduced (i : indicator) : Qred (weight i) = weight i.
Proof. destruct i; reflexivity. Qed.

(** The normalised value of a non-negative raw value under a finite
    positive maximum. *)
Lemma normalize_finite (q m w : Q) :
  0 <= q -> q <= m -> 0 < m -> 0 < w ->
  num_mul (num_div (Fin q) (Fin m)) (Fin w) = Fin (Qred (Qred (q / m) * w))
  /\ 0 <= Qred (Qred (q / m) * w) <= w
  /\ (Qred (Qred (q / m) * w) == w <-> q == m).
Proof.
  intros Hq Hqm Hm Hw.
  assert (Hm0 : ~ m == 0)
    by (intros E; rewrite E in Hm; now apply Qlt_irrefl in Hm).
  assert (Hw0 : ~ w == 0)
    by (intros E; rewrite E in Hw; now apply Qlt_irrefl in Hw).
  assert (Hz : Qis_zero m = false).
  { unfold Qis_zero. destruct (Qeq_bool m 0) eqn:E; [|reflexivity].
    now apply Qeq_bool_eq in E. }
  split; [simpl; now rewrite Hz|].
  rewrite !Qred_correct.
  assert (H0 : 0 <= q / m).
  { apply Qle_shift_div_l; [assumption|]. now rewrite Qmult_0_l. }
  assert (H1 : q / m <= 1).
  { apply Qle_shift_div_r; [assumption|]. now rewrite Qmult_1_l. }
  split; [split|].
  - apply Qmult_le_0_compat; [assumption | now apply Qlt_le_weak].
  - rewrite <- (Qmult_1_l w) at 2.
    apply Qmult_le_compat_r; [assumption | now apply Qlt_le_weak].
  - split.
    + intros E. rewrite <- (Qmult_1_l w) in E at 2.
      apply Qmult_inj_r in E; [|assumption].
      rewrite <- (Qmult_1_l m).
      rewrite <- E. unfold Qdiv. rewrite <- Qmult_assoc.
      rewrite (Qmult_comm (/ m)), Qmult_inv_r by assumption.
      now rewrite Qmult_1_r.
    + intros E. rewrite E. unfold Qdiv.
      rewrite Qmult_inv_r by assumption. apply Qmult_1_l.
Qed.

(** [Array.prototype.sort] as an insertion sort, one of the behaviours
    the hypothesis on sorting allows. *)
Fixpoint insert_sorted (cmp : string -> string -> Z) (x : string)
    (l : list string) : list string :=
  match l with
  | [] => [x]
  | y :: t =>
      if (cmp x y <=? 0)%Z then x :: l else y :: insert_sorted cmp x t
  end.

Definition insertion_sort (cmp : string -> string -> Z) (l : list string)
  : list string :=
  fold_right (insert_sorted cmp) [] l.

Lemma insert_sorted_permutes (cmp : string -> string -> Z) (x : string)
    (l : list string) :
  Permutation (x :: l) (insert_sorted cmp x l).
Proof.
  induction l as [|y t IH]; simpl; [reflexivity|].
  destruct (cmp x y <=? 0)%Z; [reflexivity|].
  rewrite perm_swap. now constructor.
Qed.

Lemma insertion_sort_permutes (cmp : string -> string -> Z)
    (l : list string) :
  Permutation l (insertion_sort cmp l).
Proof.
  induction l as [|x l IH]; simpl; [constructor|].
  rewrite <- insert_sorted_permutes. now constructor.
Qed.

(** *** The emitted values *)

(** The item whose values the loop leaves in [combinedData[d][a]]: the
    last one of these groups. *)
Definition last_at (d a : string) (filtered : list DietData)
  : option DietData :=
  find (at_groups d a) (rev filtered).

Section Emitted.

Variable Array_sort : (string -> string -> Z) -> list string -> list string.
Hypothesis Array_sort_permutes :
  forall cmp l, Permutation l (Array_sort cmp l).

Lemma groups_of_item (F : list DietData) (item : DietData) :
  In item F ->
  In (dietGroup item) (uniqueDietGroups Array_sort F)
  /\ In (ageGroup item) (uniqueAgeGroups Array_sort F).
Proof.
  intros H. unfold uniqueDietGroups, uniqueAgeGroups. split.
  - eapply Permutation_in; [apply Array_sort_permutes|].
    apply first_seen_In, in_map, H.
  - eapply Permutation_in; [apply Array_sort_permutes|].
    apply first_seen_In, in_map, H.
Qed.

Lemma last_at_In (d a : string) (F : list DietData) (item : DietData) :
  last_at d a F = Some item ->
  In item F /\ dietGroup item = d /\ ageGroup item = a.
Proof.
  unfold last_at. intros H. apply find_some in H. destruct H as [H1 H2].
  split; [now apply in_rev|]. now apply at_groups_eq.
Qed.

(** What a point carries as its normalised value. *)
Lemma normalized_of_point (F : list DietData) (i : indicator)
    (d a : string) :
  normalizedValue (data_point Array_sort F i d a)
  = match last_at d a F with
    | Some item => or_zero (normalize F i item)
    | None => Fin 0
    end.
Proof.
  unfold data_point. simpl. unfold stored_or_zero, combinedData.
  rewrite stored_fold_fill. fold (last_at d a F).
  destruct (last_at d a F) as [item|] eqn:E.
  - apply last_at_In in E. destruct E as (Hin & <- & <-).
    destruct (groups_of_item F item Hin) as [Hd Ha].
    apply existsb_eqb_In in Hd, Ha.
    unfold present. rewrite cell_of_init, Hd, Ha. reflexivity.
  - rewrite stored_cell_of, cell_of_init.
    now destruct (existsb _ _ && existsb _ _).
Qed.

(** X10. The point of a pair of groups: its normalised value is
    [(raw / max) * weight || 0] for the last item of the subset with these
    groups, its raw value that of the first such item, and both are 0
    when the subset has no item of these groups. *)
Theorem point_values (F : list DietData) (i : indicator) (d a : string) :
  normalizedValue (data_point Array_sort F i d a)
  = match last_at d a F with
    | Some item =>
        or_zero (num_mul (num_div (field i item) (maxValues F i))
                         (Fin (weight i)))
    | None => Fin 0
    end
  /\ rawValue (data_point Array_sort F i d a)
     = match find (at_groups d a) F with
       | Some item => field i item
       | None => Fin 0
       end
  /\ (last_at d a F = None <-> find (at_groups d a) F = None).
Proof.
  split; [apply normalized_of_point|]. split; [reflexivity|].
  unfold last_at. split; intros H.
  - destruct (find (at_groups d a) F) as [item|] eqn:E; [|reflexivity].
    apply find_some in E. destruct E as [E1 E2].
    eapply find_none in H; [|apply in_rev; rewrite rev_involutive; exact E1].
    congruence.
  - destruct (find (at_groups d a) (rev F)) as [item|] eqn:E; [|reflexivity].
    apply find_some in E. destruct E as [E1 E2]. apply in_rev in E1.
    eapply find_none in H; [|exact E1]. congruence.
Qed.

Lemma series_points (dietData : list DietData) (s : series) (p : point) :
  In s (seriesData (processedData Array_sort dietData)) ->
  In p (series_data s) ->
  exists d a,
    p = data_point Array_sort (filteredData dietData) (series_indicator s) d a.
Proof.
  unfold processedData.
  destruct (List.length (filteredData dietData) =? 0)%nat;
    cbn [seriesData]; [intros []|].
  intros Hs Hp. apply in_map_iff in Hs. destruct Hs as [i [<- _]].
  cbn [series_of series_data series_indicator] in *.
  apply in_flat_map in Hp. destruct Hp as [d [_ Hp]].
  apply in_map_iff in Hp. destruct Hp as [a [<- _]]. now exists d, a.
Qed.

Lemma values_not_NaN (F : list DietData) (i : indicator)
    (P : num -> Prop) :
  (forall x, P x -> isNaN x = false) ->
  (forall item, In item F -> P (field i item)) ->
  Forall (fun x => isNaN x = false) (map (field i) F).
Proof.
  intros HP H. apply Forall_map, Forall_forall. intros item Hi.
  apply HP, H, Hi.
Qed.

Lemma is_zero_not_NaN (x : num) : is_zero x = true -> isNaN x = false.
Proof. destruct x; simpl; auto; discriminate. Qed.

Lemma maxValues_zero (F : list DietData) (i : indicator) :
  (forall item, In item F -> is_zero (field i item) = true) ->
  F <> [] -> is_zero (maxValues F i) = true.
Proof.
  intros H Hne. unfold maxValues.
  destruct (@Math_max_spec (map (field i) F)) as [_ Hin].
  { eapply values_not_NaN with (P := fun x => is_zero x = true); eauto.
    apply is_zero_not_NaN. }
  assert (Hm : map (field i) F <> []) by (destruct F; simpl; congruence).
  apply Hin, in_map_iff in Hm. destruct Hm as [item [<- Hitem]]. auto.
Qed.

Lemma normalize_zero (F : list DietData) (i : indicator) (item : DietData) :
  is_zero (field i item) = true -> is_zero (maxValues F i) = true ->
  or_zero (normalize F i item) = Fin 0.
Proof.
  unfold normalize.
  destruct (field i item) as [q| | |]; simpl; try discriminate.
  destruct (maxValues F i) as [m| | |]; simpl; try discriminate.
  intros -> ->. reflexivity.
Qed.

(** C4. When every raw mean of indicator [i] in the filtered subset is
    zero, the maximum of the indicator is zero and every point of the
    series of [i] carries the normalised value 0. *)
Theorem zero_maximum_gives_zero (dietData : list DietData) (i : indicator) :
  (forall item, In item (filteredData dietData) ->
                is_zero (field i item) = true) ->
  (filteredData dietData <> [] ->
   is_zero (maxValues (filteredData dietData) i) = true)
  /\ forall s p,
       In s (seriesData (processedData Array_sort dietData)) ->
       series_indicator s = i ->
       In p (series_data s) ->
       normalizedValue p = Fin 0.
Proof.
  intros H. split; [now apply maxValues_zero|].
  intros s p Hs Hi Hp.
  destruct (series_points dietData s p Hs Hp) as [d [a ->]].
  rewrite Hi, normalized_of_point.
  destruct (last_at d a (filteredData dietData)) as [item|] eqn:E;
    [|reflexivity].
  apply last_at_In in E. destruct E as [Hin _].
  apply normalize_zero; [now apply H|].
  apply maxValues_zero; [assumption|].
  intros E. rewrite E in Hin. destruct Hin.
Qed.

(** C5, as amended. Under a finite positive maximum and non-negative raw
    means, the point of a pair of groups carries (raw / max) * weight of
    the item of these groups (0 when there is none); every emitted value
    lies between 0 and the weight; and it is the weight exactly when the
    raw mean of that item is the maximum. Every item of the subset has its
    point. *)
Theorem normalized_within_weight (dietData : list DietData) (i : indicator)
    (m : Q) :
  let filtered := filteredData dietData in
  (forall item, In item filtered -> num_leb (Fin 0) (field i item) = true) ->
  maxValues filtered i = Fin m -> 0 < m ->
  (forall d a,
     normalizedValue (data_point Array_sort filtered i d a)
     = match last_at d a filtered with
       | Some item =>
           num_mul (num_div (field i item) (Fin m)) (Fin (weight i))
       | None => Fin 0
       end)
  /\ (forall s p,
        In s (seriesData (processedData Array_sort dietData)) ->
        series_indicator s = i -> In p (series_data s) ->
        exists n, normalizedValue p = Fin n /\ 0 <= n <= weight i)
  /\ (forall d a,
        normalizedValue (data_point Array_sort filtered i d a)
          = Fin (weight i)
        <-> exists item q, last_at d a filtered = Some item
                           /\ field i item = Fin q /\ q == m)
  /\ (forall item, In item filtered ->
        In (data_point Array_sort filtered i (dietGroup item) (ageGroup item))
           (series_data (series_of Array_sort filtered i))).
Proof.
  intros filtered Hpos Hmax Hm.
  assert (Hbound : forall item, In item filtered ->
            exists q, field i item = Fin q /\ 0 <= q /\ q <= m).
  { intros item Hin.
    destruct (@Math_max_spec (map (field i) filtered)) as [Hall _].
    { eapply values_not_NaN with (P := fun x => num_leb (Fin 0) x = true);
        eauto. intros x Hx. now apply num_leb_not_NaN in Hx. }
    rewrite Forall_forall in Hall.
    specialize (Hall (field i item) (in_map _ _ _ Hin)).
    fold (maxValues filtered i) in Hall. rewrite Hmax in Hall.
    specialize (Hpos item Hin).
    destruct (field i item) as [q| | |]; simpl in *; try discriminate.
    exists q. rewrite !Qle_bool_iff in *. auto. }
  assert (Hval : forall d a,
     normalizedValue (data_point Array_sort filtered i d a)
     = match last_at d a filtered with
       | Some item =>
           num_mul (num_div (field i item) (Fin m)) (Fin (weight i))
       | None => Fin 0
       end).
  { intros d a. rewrite normalized_of_point.
    destruct (last_at d a filtered) as [item|] eqn:E; [|reflexivity].
    apply last_at_In in E. destruct E as [Hin _].
    destruct (Hbound item Hin) as (q & Hq & H0 & H1).
    unfold normalize. rewrite Hmax, Hq.
    destruct (normalize_finite H0 H1 Hm (weight_positive i)) as [-> _].
    apply or_zero_Qred. }
  split; [exact Hval|]. split; [|split].
  - intros s p Hs Hi Hp.
    destruct (series_points dietData s p Hs Hp) as [d [a ->]].
    fold filtered. rewrite Hi, Hval.
    destruct (last_at d a filtered) as [item|] eqn:E.
    + apply last_at_In in E. destruct E as [Hin _].
      destruct (Hbound item Hin) as (q & Hq & H0 & H1). rewrite Hq.
      destruct (normalize_finite H0 H1 Hm (weight_positive i))
        as (-> & Hb & _).
      eexists. split; [reflexivity | exact Hb].
    + exists 0. split; [reflexivity|]. split; [apply Qle_refl|].
      apply Qlt_le_weak, weight_positive.
  - intros d a. rewrite Hval.
    destruct (last_at d a filtered) as [item|] eqn:E.
    + pose proof (last_at_In _ _ _ E) as [Hin _].
      destruct (Hbound item Hin) as (q & Hq & H0 & H1). rewrite Hq.
      destruct (normalize_finite H0 H1 Hm (weight_positive i))
        as (-> & _ & Hiff).
      split.
      * intros Hw. exists item, q. repeat split; auto.
        apply Hiff.
        assert (Qred (Qred (q / m) * weight i) = weight i) as ->
          by congruence.
        reflexivity.
      * intros (item' & q' & Hsome & Hq' & Hqm).
        injection Hsome as <-. rewrite Hq in Hq'. injection Hq' as <-.
        f_equal. rewrite <- (weight_reduced i) at 2.
        apply Qred_complete.
        rewrite <- (Qred_correct (Qred (q / m) * weight i)). now apply Hiff.
    + split.
      * intros Hw. pose proof (weight_positive i) as Hp.
        assert (Hw' : 0 = weight i) by congruence.
        rewrite <- Hw' in Hp. now apply Qlt_irrefl in Hp.
      * intros (item' & q' & Hsome & _). discriminate.
  - intros item Hin. simpl. apply in_flat_map.
    destruct (groups_of_item filtered item Hin) as [Hd Ha].
    exists (dietGroup item). split; [exact Hd|].
    apply in_map_iff. exists (ageGroup item). now split.
Qed.

End Emitted.

(** *** The chart on concrete inputs *)

(** A greenhouse-gas cell holding the text "Infinity", and a finite
    one. *)
Definition rows_with_Infinity : list (obj value) :=
  [ survey_row "vegan" "female" "20-29" (VStr "Infinity");
    survey_row "vegan" "female" "30-39" (VNum (Fin 4)) ].

(** C5, counterexample. The raw means are non-negative and the maximum,
    Infinity, is positive; the bucket whose raw mean is the maximum
    carries 0, where the weight of the indicator is 1. *)
Lemma infinite_maximum_gives_zero :
  map (fun item => (dietGroup item, ageGroup item, ghgs item))
      (filteredData (loadData render_number rows_with_Infinity))
  = [ ("vegan", "20-29", PInf); ("vegan", "30-39", Fin 4) ]
  /\ forallb (fun item => num_leb (Fin 0) (ghgs item))
             (filteredData (loadData render_number rows_with_Infinity))
     = true
  /\ maxValues (filteredData (loadData render_number rows_with_Infinity)) Ghgs
     = PInf
  /\ map (fun s => map (fun p => (rawValue p, normalizedValue p))
                       (series_data s))
         (firstn 1
            (seriesData
               (processedData insertion_sort
                  (loadData render_number rows_with_Infinity))))
     = [ [ (PInf, Fin 0); (Fin 4, Fin 0) ] ]
  /\ weight Ghgs = 1.
Proof. repeat split. Qed.

(** With a negative raw mean the maximum can be zero without every raw
    mean being zero; the division by zero then gives -Infinity, which is
    truthy and is emitted. *)
Example negative_mean_under_zero_maximum :
  let dietData :=
    loadData render_number
      [ survey_row "vegan" "female" "20-29" (VNum (Fin 0));
        survey_row "vegan" "female" "30-39" (VNum (Fin (-5))) ] in
  maxValues (filteredData dietData) Ghgs = Fin 0
  /\ map (fun s => map normalizedValue (series_data s))
         (firstn 1 (seriesData (processedData insertion_sort dietData)))
     = [ [ Fin 0; NInf ] ].
Proof. split; reflexivity. Qed.

Lemma zero_maximum_gives_zero_witness :
  (forall item,
      In item (filteredData (loadData render_number rows_10_missing_20)) ->
      is_zero (field LandUse item) = true)
  /\ (filteredData (loadData render_number rows_10_missing_20) <> [] ->
      is_zero
        (maxValues (filteredData (loadData render_number rows_10_missing_20))
           LandUse) = true)
  /\ (forall s p,
        In s (seriesData
                (processedData insertion_sort
                   (loadData render_number rows_10_missing_20))) ->
        series_indicator s = LandUse ->
        In p (series_data s) ->
        normalizedValue p = Fin 0).
Proof.
  assert (H : forall item,
      In item (filteredData (loadData render_number rows_10_missing_20)) ->
      is_zero (field LandUse item) = true).
  { intros item Hin. vm_compute in Hin. destruct Hin as [<-|[]].
    reflexivity. }
  split; [exact H|].
  exact (@zero_maximum_gives_zero insertion_sort insertion_sort_permutes
           (loadData render_number rows_10_missing_20) LandUse H).
Defined.

(** Three buckets with greenhouse-gas means 2, 4 and 3. *)
Definition rows_2_4_3 : list (obj value) :=
  [ survey_row "vegan" "female" "20-29" (VNum (Fin 2));
    survey_row "vegan" "female" "30-39" (VNum (Fin 4));
    survey_row "fish" "male" "20-29" (VNum (Fin 3)) ].

Example chart_on_rows_2_4_3 :
  map (fun p => (xIndex p, yIndex p, normalizedValue p, rawValue p))
      (series_data
         (series_of insertion_sort
            (filteredData (loadData render_number rows_2_4_3)) Ghgs))
  = [ (Some 0%nat, Some 0%nat, Fin (1 # 2), Fin 2);
      (Some 0%nat, Some 1%nat, Fin 1, Fin 4);
      (Some 1%nat, Some 0%nat, Fin (3 # 4), Fin 3);
      (Some 1%nat, Some 1%nat, Fin 0, Fin 0) ].
Proof. reflexivity. Qed.

Lemma normalized_within_weight_witness :
  (forall item,
      In item (filteredData (loadData render_number rows_2_4_3)) ->
      num_leb (Fin 0) (field Ghgs item) = true)
  /\ maxValues (filteredData (loadData render_number rows_2_4_3)) Ghgs = Fin 4
  /\ 0 < 4
  /\ (forall s p,
        In s (seriesData
                (processedData insertion_sort
                   (loadData render_number rows_2_4_3))) ->
        series_indicator s = Ghgs -> In p (series_data s) ->
        exists n, normalizedValue p = Fin n /\ 0 <= n <= weight Ghgs)
  /\ (forall d a,
        normalizedValue
          (data_point insertion_sort
             (filteredData (loadData render_number rows_2_4_3)) Ghgs d a)
          = Fin (weight Ghgs)
        <-> exists item q,
              last_at d a (filteredData (loadData render_number rows_2_4_3))
                = Some item
              /\ field Ghgs item = Fin q /\ q == 4).
Proof.
  assert (H : forall item,
      In item (filteredData (loadData render_number rows_2_4_3)) ->
      num_leb (Fin 0) (field Ghgs item) = true).
  { intros item Hin. vm_compute in Hin.
    destruct Hin as [<-|[<-|[<-|[]]]]; reflexivity. }
  assert (Hmax : maxValues (filteredData (loadData render_number rows_2_4_3))
                   Ghgs = Fin 4) by reflexivity.
  assert (Hm : 0 < 4) by reflexivity.
  destruct (@normalized_within_weight insertion_sort insertion_sort_permutes
              (loadData render_number rows_2_4_3) Ghgs 4 H Hmax Hm)
    as (_ & Hb & Hw & _).
  split; [exact H|]. split; [exact Hmax|]. split; [exact Hm|].
  split; [exact Hb | exact Hw].
Defined.

Lemma point_values_witness :
  normalizedValue
    (data_point insertion_sort
       (filteredData (loadData render_number rows_2_4_3)) Ghgs
       "fish" "20-29")
  = Fin (3 # 4).
Proof.
  rewrite (proj1 (@point_values insertion_sort insertion_sort_permutes
                    (filteredData (loadData render_number rows_2_4_3))
                    Ghgs "fish" "20-29")).
  reflexivity.
Defined.

End ChartFacts.

(* ===================================================================== *)
(** ** Normal forms of headers and of category cells *)
(* ===================================================================== *)

(** [p] holds of every character of [s]. *)
Fixpoint str_forall (p : ascii -> bool) (s : string) : bool :=
  match s with
  | EmptyString => true
  | String c t => p c && str_forall p t
  end.

Definition no_space (s : string) : bool :=
  str_forall (fun c => negb (is_space c)) s.

Definition no_upper (s : string) : bool :=
  str_forall (fun c => negb (is_upper c)) s.

Lemma lower_char_facts (c : ascii) :
  is_space (lower_char c) = is_space c
  /\ is_upper (lower_char c) = false
  /\ lower_char (lower_char c) = lower_char c.
Proof.
  destruct c as [[] [] [] [] [] [] [] []]; vm_compute; repeat split.
Qed.

Lemma lower_char_space (c : ascii) : is_space (lower_char c) = is_space c.
Proof. apply lower_char_facts. Qed.

Lemma toLowerCase_twice (s : string) :
  toLowerCase (toLowerCase s) = toLowerCase s.
Proof. apply str_map_twice. intros c. apply lower_char_facts. Qed.

Lemma no_upper_toLowerCase (s : string) : no_upper (toLowerCase s) = true.
Proof.
  induction s as [|c s IH]; [reflexivity|].
  unfold no_upper, toLowerCase in *. simpl.
  destruct (lower_char_facts c) as (_ & -> & _). exact IH.
Qed.

Lemma no_upper_fixed (s : string) : no_upper s = true -> toLowerCase s = s.
Proof.
  unfold no_upper, toLowerCase. induction s as [|c s IH]; [reflexivity|].
  simpl. intros H. apply andb_prop in H. destruct H as [Hc Hs].
  rewrite (IH Hs). unfold lower_char.
  now destruct (is_upper c).
Qed.

Lemma all_space_trimEnd (s : string) : all_space (trimEnd s) = all_space s.
Proof.
  induction s as [|c s IH]; [reflexivity|].
  cbn [trimEnd]. destruct (all_space (String c s)) eqn:E; [reflexivity|].
  simpl in *. now rewrite IH.
Qed.

Lemma trimEnd_twice (s : string) : trimEnd (trimEnd s) = trimEnd s.
Proof.
  induction s as [|c s IH]; [reflexivity|].
  cbn [trimEnd]. destruct (all_space (String c s)) eqn:E; [reflexivity|].
  cbn [trimEnd]. simpl in E. simpl. now rewrite all_space_trimEnd, E, IH.
Qed.

(** A string that does not start with white space keeps its start. *)
Definition starts_clean (s : string) : bool :=
  match s with
  | EmptyString => true
  | String c _ => negb (is_space c)
  end.

Lemma starts_clean_trimStart (s : string) : starts_clean (trimStart s) = true.
Proof.
  induction s as [|c s IH]; [reflexivity|].
  simpl. destruct (is_space c) eqn:E; [exact IH|]. simpl. now rewrite E.
Qed.

Lemma starts_clean_fixed (s : string) :
  starts_clean s = true -> trimStart s = s.
Proof.
  destruct s as [|c s]; [reflexivity|]. simpl.
  now destruct (is_space c).
Qed.

Lemma starts_clean_trimEnd (s : string) :
  starts_clean s = true -> starts_clean (trimEnd s) = true.
Proof.
  destruct s as [|c s]; [reflexivity|]. cbn [trimEnd starts_clean].
  intros H. destruct (all_space (String c s)); [reflexivity|]. exact H.
Qed.

Lemma trim_twice (s : string) : trim (trim s) = trim s.
Proof.
  unfold trim.
  rewrite (starts_clean_fixed (trimEnd (trimStart s))).
  - apply trimEnd_twice.
  - apply starts_clean_trimEnd, starts_clean_trimStart.
Qed.

Lemma trim_toLowerCase (s : string) :
  trim (toLowerCase s) = toLowerCase (trim s).
Proof. apply trim_map, lower_char_space. Qed.

Lemma no_space_fixed (s : string) :
  no_space s = true ->
  trimStart s = s /\ trimEnd s = s /\ underscore_runs false s = s.
Proof.
  unfold no_space. induction s as [|c s IH]; [now repeat split|].
  simpl. intros H. apply andb_prop in H. destruct H as [Hc Hs].
  destruct (IH Hs) as (_ & H2 & H3).
  destruct (is_space c); [discriminate|]. simpl.
  now rewrite H2, H3.
Qed.

Lemma no_space_trim (s : string) : no_space s = true -> trim s = s.
Proof.
  intros H. destruct (no_space_fixed s H) as (H1 & H2 & _).
  unfold trim. now rewrite H1, H2.
Qed.

Lemma no_space_underscore_runs (b : bool) (s : string) :
  no_space (underscore_runs b s) = true.
Proof.
  revert b. induction s as [|c s IH]; intros b; [reflexivity|].
  simpl. destruct (is_space c) eqn:E.
  - destruct b; [apply IH|]. unfold no_space in *. simpl. apply IH.
  - unfold no_space in *. simpl. rewrite E. apply IH.
Qed.

Lemma no_space_toLowerCase (s : string) :
  no_space (toLowerCase s) = no_space s.
Proof.
  unfold no_space, toLowerCase. induction s as [|c s IH]; [reflexivity|].
  simpl. now rewrite lower_char_space, IH.
Qed.

Lemma underscore_runs_toLowerCase (b : bool) (s : string) :
  underscore_runs b (toLowerCase s) = toLowerCase (underscore_runs b s).
Proof.
  revert b. unfold toLowerCase.
  induction s as [|c s IH]; intros b; [reflexivity|].
  simpl. rewrite lower_char_space. destruct (is_space c).
  - destruct b; [apply IH|]. simpl. now rewrite IH.
  - simpl. now rewrite IH.
Qed.

(** X11. The header transformation yields a normal form: its result has
    no white space and no upper-case letter, transforming it again
    changes nothing, and neither does the lower-casing and trimming the
    column reconciler applies before it compares a header with the
    aliases. Headers that differ only in letter case or in surrounding
    white space are transformed alike. *)
Theorem transformHeader_normal_form (header : string) :
  let h := transformHeader header in
  no_space h = true
  /\ no_upper h = true
  /\ transformHeader h = h
  /\ trim (toLowerCase h) = h
  /\ transformHeader (toLowerCase header) = h
  /\ transformHeader (trim header) = h.
Proof.
  intros h.
  assert (Hs : no_space h = true).
  { unfold h, transformHeader.
    rewrite no_space_toLowerCase. apply no_space_underscore_runs. }
  assert (Hu : no_upper h = true) by apply no_upper_toLowerCase.
  split; [exact Hs|]. split; [exact Hu|].
  destruct (no_space_fixed h Hs) as (_ & _ & H3).
  repeat split.
  - unfold transformHeader at 1.
    now rewrite (no_space_trim h Hs), H3, (no_upper_fixed h Hu).
  - now rewrite (no_upper_fixed h Hu), (no_space_trim h Hs).
  - unfold h, transformHeader.
    now rewrite trim_toLowerCase, underscore_runs_toLowerCase,
      toLowerCase_twice.
  - unfold h, transformHeader. now rewrite trim_twice.
Qed.

Section Cleaning.
Variable Number_toString : num -> string.

Lemma cleanString_VStr (s : string) :
  cleanString Number_toString (VStr s) = toLowerCase (trim s).
Proof.
  unfold cleanString. simpl.
  destruct (String.eqb_spec s "") as [->|]; reflexivity.
Qed.

(** X12. A cleaned category is a normal form: it has no upper-case
    letter and no white space at either end, and cleaning it again gives
    it back. Cells that differ only in letter case or in surrounding
    white space are cleaned alike, so their rows share a bucket. *)
Theorem cleanString_normal_form (v : value) (s : string) :
  let x := cleanString Number_toString v in
  no_upper x = true
  /\ trim x = x
  /\ cleanString Number_toString (VStr x) = x
  /\ cleanString Number_toString (VStr (toLowerCase s))
     = cleanString Number_toString (VStr s)
  /\ cleanString Number_toString (VStr (trim s))
     = cleanString Number_toString (VStr s).
Proof.
  intros x.
  assert (Hx : x = "" \/ exists t, x = toLowerCase (trim t)).
  { unfold x, cleanString. destruct (negb (truthy v)); [now left|].
    right. now eexists. }
  assert (Ht : trim x = x).
  { destruct Hx as [->|[t ->]]; [reflexivity|].
    now rewrite trim_toLowerCase, trim_twice. }
  assert (Hu : no_upper x = true).
  { destruct Hx as [->|[t ->]]; [reflexivity|]. apply no_upper_toLowerCase. }
  split; [exact Hu|]. split; [exact Ht|]. repeat split.
  - now rewrite cleanString_VStr, Ht, (no_upper_fixed x Hu).
  - now rewrite !cleanString_VStr, trim_toLowerCase, toLowerCase_twice.
  - now rewrite !cleanString_VStr, trim_twice.
Qed.

End Cleaning.

(* ===================================================================== *)
(** ** More on the column reconciler *)
(* ===================================================================== *)

(** The own property the reconciler leaves under a field. *)
Lemma reconcile_get (sampleRow : obj value) (rest : list (obj value))
    (f : string) :
  obj_get f (reconcile (sampleRow :: rest))
  = match obj_get f columnMap with
    | Some names =>
        match find (fun column => includes (trim (toLowerCase column)) names)
                   (map fst sampleRow) with
        | Some h => Some (VStr h)
        | None => None
        end
    | None => None
    end.
Proof.
  unfold reconcile.
  change (Object_entries columnMap) with columnMap.
  rewrite fold_reconcile_field
    by (simpl; repeat constructor; simpl; intuition discriminate).
  destruct (obj_get f columnMap) as [names|] eqn:Eg; [|reflexivity].
  apply obj_get_In in Eg.
  destruct (columnMap_aliases Eg) as (Hempty & Hplain & _ & _).
  unfold find_column. rewrite find_no_index.
  - destruct (find _ (map fst sampleRow)) as [h|] eqn:E; [|reflexivity].
    apply find_some in E. destruct E as [_ E].
    destruct h as [|c h]; [|reflexivity].
    change (trim (toLowerCase "")) with "" in E. congruence.
  - intros k Hk. rewrite (index_key_fixed k Hk).
    destruct (includes k names) eqn:E; [|reflexivity].
    apply existsb_eqb_In in E. rewrite forallb_forall in Hplain.
    apply Hplain in E. now rewrite Hk in E.
Qed.

Lemma find_ext_in {A} (f g : A -> bool) (l : list A) :
  (forall x, In x l -> f x = g x) -> find f l = find g l.
Proof.
  induction l as [|x l IH]; intros H; simpl; [reflexivity|].
  rewrite (H x (or_introl eq_refl)).
  destruct (g x); [reflexivity|]. apply IH. intros y Hy. apply H. now right.
Qed.

Lemma aliases_disjoint (f1 f2 a : string) (n1 n2 : list string) :
  In (f1, n1) columnMap -> In (f2, n2) columnMap ->
  includes a n1 = true -> includes a n2 = true -> f1 = f2.
Proof.
  intros H1 H2 Ha1 Ha2.
  assert (C : forallb (fun e1 =>
                forallb (fun e2 =>
                  String.eqb (fst e1) (fst e2)
                  || forallb (fun a => negb (includes a (snd e2))) (snd e1))
                  columnMap) columnMap = true) by reflexivity.
  rewrite forallb_forall in C. specialize (C _ H1).
  rewrite forallb_forall in C. specialize (C _ H2). simpl in C.
  apply orb_prop in C. destruct C as [C|C].
  - now apply String.eqb_eq.
  - rewrite forallb_forall in C. apply existsb_eqb_In in Ha1.
    specialize (C _ Ha1). rewrite Ha2 in C. discriminate.
Qed.

(** What a mapped field says about the first row. *)
Lemma reconcile_mapped (data : list (obj value)) (f h : string) :
  js_get (reconcile data) f = VStr h ->
  exists sampleRow rest names,
    data = sampleRow :: rest
    /\ In (f, names) columnMap
    /\ In h (map fst sampleRow)
    /\ includes (trim (toLowerCase h)) names = true.
Proof.
  destruct data as [|sampleRow rest].
  - unfold js_get. simpl. destruct (inherited f); discriminate.
  - unfold js_get. rewrite reconcile_get.
    destruct (obj_get f columnMap) as [names|] eqn:Eg;
      [|destruct (inherited f); discriminate].
    destruct (find _ (map fst sampleRow)) as [h'|] eqn:E;
      [|destruct (inherited f); discriminate].
    intros H. assert (h' = h) as -> by congruence.
    apply find_some in E. destruct E as [E1 E2].
    exists sampleRow, rest, names. repeat split; auto.
    now apply obj_get_In.
Qed.

(** X13. When the headers of the first row come out of the header
    transformation, the reconciler's own lower-casing and trimming is
    idle: a field is mapped to the first header that is literally one of
    its aliases. *)
Theorem transformed_headers_match_literally (sampleRow : obj value)
    (rest : list (obj value)) (targetField : string)
    (possibleNames : list string) :
  In (targetField, possibleNames) columnMap ->
  Forall (fun column => exists header, column = transformHeader header)
         (map fst sampleRow) ->
  js_get (reconcile (sampleRow :: rest)) targetField
  = match find (fun column => includes column possibleNames)
               (map fst sampleRow) with
    | Some foundColumn => VStr foundColumn
    | None => VUndefined
    end.
Proof.
  intros Hin Hh.
  destruct (columnMap_aliases Hin) as (_ & _ & Hown & Hget).
  unfold js_get. rewrite reconcile_get, Hget.
  rewrite (find_ext_in _ (fun column => includes column possibleNames)).
  - destruct (find _ (map fst sampleRow)); [reflexivity|].
    unfold is_inherited in Hown. now destruct (inherited targetField).
  - intros column Hc. rewrite Forall_forall in Hh.
    destruct (Hh _ Hc) as [header ->].
    assert (N : no_space (transformHeader header) = true
                /\ no_upper (transformHeader header) = true).
    { split.
      - unfold transformHeader. rewrite no_space_toLowerCase.
        apply no_space_underscore_runs.
      - apply no_upper_toLowerCase. }
    destruct N as [Hs Hu].
    now rewrite (no_upper_fixed _ Hu), (no_space_trim _ Hs).
Qed.

(** X14. A mapped field names a header of the first row whose
    lower-cased trimmed form is one of the field's aliases, and no header
    serves two fields: the alias lists are disjoint. With no row at all
    nothing is mapped. *)
Theorem mapped_columns_are_headers_and_distinct (data : list (obj value))
    (targetField foundColumn : string) :
  js_get (reconcile data) targetField = VStr foundColumn ->
  (exists sampleRow rest possibleNames,
      data = sampleRow :: rest
      /\ In (targetField, possibleNames) columnMap
      /\ In foundColumn (map fst sampleRow)
      /\ includes (trim (toLowerCase foundColumn)) possibleNames = true)
  /\ (forall otherField,
        js_get (reconcile data) otherField = VStr foundColumn ->
        otherField = targetField).
Proof.
  intros H. split; [now apply reconcile_mapped|].
  intros f' H'.
  apply reconcile_mapped in H. destruct H as (r & t & n & -> & Hn & _ & Ha).
  apply reconcile_mapped in H'.
  destruct H' as (r' & t' & n' & _ & Hn' & _ & Ha').
  exact (aliases_disjoint _ Hn' Hn Ha' Ha).
Qed.

(** An exported header row with padding, capitals and inner spaces. *)
Definition exported_headers : list string :=
  [" Diet Group "; "SEX"; "Age   Group"; "Mean GHGs"; "grouping"].

Definition exported_row : obj value :=
  combine (map transformHeader exported_headers)
          [VStr "vegan"; VStr "female"; VStr "20-29"; VNum (Fin 2); VStr "x"].

Lemma transformed_headers_match_literally_witness :
  map fst exported_row = ["diet_group"; "sex"; "age_group"; "mean_ghgs";
                          "grouping"]
  /\ js_get (reconcile [exported_row]) "ageGroup" = VStr "age_group".
Proof.
  split; [reflexivity|].
  apply (@transformed_headers_match_literally exported_row [] "ageGroup"
           ["age_group"; "agegroup"; "age"]).
  - simpl. tauto.
  - unfold exported_row, exported_headers. simpl.
    repeat (constructor; [eexists; reflexivity|]). constructor.
Defined.

Lemma mapped_columns_are_headers_and_distinct_witness :
  js_get (reconcile [exported_row]) "ghgs" = VStr "mean_ghgs"
  /\ In "mean_ghgs" (map fst exported_row).
Proof.
  split; [reflexivity|].
  destruct (@mapped_columns_are_headers_and_distinct [exported_row] "ghgs"
              "mean_ghgs" eq_refl) as [(r & t & n & E & _ & H & _) _].
  injection E as <- _. exact H.
Defined.

(* ===================================================================== *)
(** ** The labels of the records *)
(* ===================================================================== *)

Section Output.
Variable Number_toString : num -> string.

(** Where the three labels of a record come from. *)
Lemma loadData_record_labels (data : list (obj value)) (r : DietData) :
  let cs := contributing Number_toString data in
  In r (loadData Number_toString data) ->
  (dietGroup r = "All" \/ exists c, In c cs /\ dietGroup r = c_diet c)
  /\ (gender r = "All" \/ exists c, In c cs /\ gender r = c_gender c)
  /\ (ageGroup r = "All" \/ exists c, In c cs /\ ageGroup r = c_age c).
Proof.
  intros cs H. rewrite loadData_grouped in H. fold cs in H.
  unfold emit, grouped_state in H. cbn [dietGroupsMap genderGroupsMap
    ageGroupsMap dietGenderGroupsMap dietAgeGroupsMap] in H.
  rewrite emit_diet_by_key, emit_gender_by_key, emit_age_by_key,
    emit_diet_gender_by_keys, emit_diet_age_by_keys in H.
  rewrite !in_app_iff in H.
  destruct H as [H|[H|[H|[H|H]]]].
  - apply in_map_iff in H. destruct H as [k [<- Hk]].
    apply distinct_In in Hk. destruct Hk as [c [Hc <-]].
    split; [right; now exists c|]. split; now left.
  - apply in_map_iff in H. destruct H as [k [<- Hk]].
    apply distinct_In in Hk. destruct Hk as [c [Hc <-]].
    split; [now left|]. split; [right; now exists c | now left].
  - apply in_map_iff in H. destruct H as [k [<- Hk]].
    apply distinct_In in Hk. destruct Hk as [c [Hc <-]].
    split; [now left|]. split; [now left | right; now exists c].
  - apply in_flat_map in H. destruct H as [d [Hd H]].
    apply in_map_iff in H. destruct H as [g [<- Hg]].
    apply distinct_In in Hd. destruct Hd as [c [Hc <-]].
    apply distinct_In in Hg. destruct Hg as [c' [Hc' <-]].
    apply members_In in Hc'. destruct Hc' as [Hc' _].
    split; [right; now exists c|]. split; [right; now exists c' | now left].
  - apply in_flat_map in H. destruct H as [d [Hd H]].
    apply in_map_iff in H. destruct H as [a [<- Ha]].
    apply distinct_In in Hd. destruct Hd as [c [Hc <-]].
    apply distinct_In in Ha. destruct Ha as [c' [Hc' <-]].
    apply members_In in Hc'. destruct Hc' as [Hc' _].
    split; [right; now exists c|]. split; [now left | right; now exists c'].
Qed.

Lemma contributing_labels (data : list (obj value)) (c : CanonicalRecord) :
  In c (contributing Number_toString data) ->
  exists d g a,
    c_diet c = standardDietGroup Number_toString d
    /\ d <> ""
    /\ c_gender c = standardGender Number_toString g
    /\ c_age c = standardAgeGroup Number_toString a.
Proof.
  unfold contributing. intros H. apply canonicals_In in H.
  destruct H as [row [_ H]]. unfold canonical in H.
  destruct (truthy (VStr (cleanString _ (cell _ _ "dietGroup" row)))) eqn:E;
    simpl in H; [|discriminate].
  injection H as <-. do 3 eexists. simpl. repeat split.
  simpl in E. intros E'. rewrite E' in E. discriminate.
Qed.

(** A gender or age label is a value of the table, "Unknown", or the
    text of the member of [Object.prototype] the code names. *)
Lemma standard_or_Unknown_range (mapping : obj value) (code : string) :
  let label := standard_or_Unknown Number_toString mapping code in
  label = "Unknown"
  \/ (exists v, In (code, v) mapping /\ label = toString Number_toString v)
  \/ inherited code = Some label.
Proof.
  intros label. unfold label, standard_or_Unknown, js_get.
  destruct (truthy (VStr code)); [|now left].
  destruct (obj_get code mapping) as [v|] eqn:E.
  - destruct (truthy v); [|now left].
    right. left. exists v. split; [now apply obj_get_In | reflexivity].
  - destruct (inherited code) as [s|]; [|now left].
    right. right. reflexivity.
Qed.

(** X15. The gender and age labels of the output form closed sets: a
    gender is "All", "Female", "Male" or "Unknown", an age group is "All",
    one of the six brackets or "Unknown"; the one exception is a code
    that names a member of Object.prototype, whose label is the text of
    that member. A code that is in no table never passes through, as a
    diet code does. *)
Theorem gender_and_age_labels_are_closed (data : list (obj value)) :
  Forall (fun r =>
      (In (gender r) ["All"; "Female"; "Male"; "Unknown"]
       \/ exists code, inherited code = Some (gender r))
      /\ (In (ageGroup r) ["All"; "20-29"; "30-39"; "40-49"; "50-59";
                           "60-69"; "70-79"; "Unknown"]
          \/ exists code, inherited code = Some (ageGroup r)))
    (loadData Number_toString data).
Proof.
  apply Forall_forall. intros r Hr.
  destruct (loadData_record_labels data r Hr) as (_ & Hg & Ha). split.
  - destruct Hg as [->|[c [Hc ->]]]; [left; simpl; tauto|].
    destruct (contributing_labels data c Hc) as (_ & g & _ & _ & _ & -> & _).
    destruct (standard_or_Unknown_range genderMapping g) as [E|[[v [Hv E]]|E]];
      fold (standardGender Number_toString g) in E.
    + rewrite E. left. simpl. tauto.
    + rewrite E. left. simpl in Hv.
      destruct Hv as [Hv|[Hv|[]]]; injection Hv as _ <-; simpl; tauto.
    + right. now exists g.
  - destruct Ha as [->|[c [Hc ->]]]; [left; simpl; tauto|].
    destruct (contributing_labels data c Hc) as (_ & _ & a & _ & _ & _ & ->).
    destruct (standard_or_Unknown_range ageGroupMapping a)
      as [E|[[v [Hv E]]|E]];
      fold (standardAgeGroup Number_toString a) in E.
    + rewrite E. left. simpl. tauto.
    + rewrite E. left. simpl in Hv.
      repeat (destruct Hv as [Hv|Hv];
              [injection Hv as _ <-; simpl; tauto|]).
      destruct Hv.
    + right. now exists a.
Qed.

(** The output is empty exactly when no row has a diet label. *)
Lemma loadData_empty (data : list (obj value)) :
  loadData Number_toString data = []
  <-> filter (has_diet_label Number_toString (reconcile data)) data = [].
Proof.
  split.
  - intros H.
    destruct (filter _ data) as [|row l] eqn:E; [reflexivity|]. exfalso.
    assert (Hrow : In row (filter (has_diet_label Number_toString
                                     (reconcile data)) data))
      by (rewrite E; now left).
    apply filter_In in Hrow. destruct Hrow as [Hin Hl].
    destruct (canonical_Some _ _ _ Hl) as [c Hc].
    assert (Hcs : In c (contributing Number_toString data)).
    { unfold contributing. apply canonicals_In. now exists row. }
    pose proof (loadData_contains Number_toString data c Hcs) as [Hd _].
    apply records_of_kind_incl in Hd. rewrite H in Hd. destruct Hd.
  - intros H. unfold loadData, aggregate.
    rewrite fold_process_row_filter, H. reflexivity.
Qed.

End Output.

(* ===================================================================== *)
(** ** Which rows are skipped, and the three label lists *)
(* ===================================================================== *)

Lemma trimStart_empty (s : string) :
  trimStart s = "" <-> all_space s = true.
Proof.
  induction s as [|c s IH]; simpl; [tauto|].
  destruct (is_space c); simpl; [exact IH|]. split; discriminate.
Qed.

Lemma trim_empty (s : string) : trim s = "" <-> all_space s = true.
Proof.
  rewrite <- trimStart_empty. unfold trim. split.
  - intros H. pose proof (starts_clean_trimStart s) as Hc.
    destruct (trimStart s) as [|c t]; [reflexivity|].
    cbn [trimEnd all_space starts_clean] in *.
    destruct (is_space c); [discriminate|]. discriminate.
  - intros ->. reflexivity.
Qed.

Lemma toLowerCase_empty (s : string) : toLowerCase s = "" <-> s = "".
Proof.
  unfold toLowerCase. destruct s; simpl; split; intros H;
    (reflexivity || discriminate).
Qed.

Lemma filter_first_seen (p : string -> bool) (l : list string) :
  filter p (first_seen l) = first_seen (filter p l).
Proof.
  induction l as [|x t IH]; [reflexivity|].
  cbn [first_seen filter]. destruct (p x) eqn:E.
  - cbn [first_seen]. f_equal. rewrite <- IH.
    generalize (first_seen t). intros l.
    induction l as [|y l IHl]; [reflexivity|]. simpl.
    destruct (p y) eqn:Ep, (String.eqb x y) eqn:Ex; simpl;
      rewrite ?Ep, ?Ex; simpl; now rewrite ?IHl.
  - rewrite <- IH. generalize (first_seen t). intros l.
    induction l as [|y l IHl]; [reflexivity|]. simpl.
    destruct (String.eqb_spec x y) as [<-|]; simpl.
    + now rewrite E.
    + now rewrite IHl.
Qed.

Lemma first_seen_fixed (l : list string) : NoDup l -> first_seen l = l.
Proof.
  induction 1 as [|x l Hx Hl IH]; [reflexivity|].
  simpl. rewrite IH. f_equal. apply forallb_filter_id, forallb_forall.
  intros y Hy. destruct (String.eqb_spec x y) as [->|]; [contradiction|].
  reflexivity.
Qed.

Lemma filter_not_in_cons (x : string) (t l : list string) :
  filter (fun y => negb (String.eqb x y))
         (filter (fun y => negb (existsb (String.eqb y) t)) l)
  = filter (fun y => negb (existsb (String.eqb y) (x :: t))) l.
Proof.
  induction l as [|y l IH]; [reflexivity|]. cbn [filter existsb].
  rewrite (String.eqb_sym y x).
  destruct (String.eqb x y) eqn:Ex, (existsb (String.eqb y) t) eqn:Et;
    cbn [negb orb filter]; rewrite ?Ex; cbn [negb]; now rewrite IH.
Qed.

Lemma first_seen_app (l1 l2 : list string) :
  first_seen (l1 ++ l2)
  = first_seen l1
    ++ first_seen (filter (fun y => negb (existsb (String.eqb y) l1)) l2).
Proof.
  revert l2. induction l1 as [|x t IH]; intros l2.
  - simpl. now rewrite filter_true.
  - cbn [app first_seen]. rewrite IH, filter_app. f_equal. f_equal.
    now rewrite filter_first_seen, filter_not_in_cons.
Qed.

Lemma filter_none {A} (p : A -> bool) (l : list A) :
  (forall x, In x l -> p x = false) -> filter p l = [].
Proof.
  induction l as [|x l IH]; intros H; [reflexivity|]. simpl.
  rewrite (H x (or_introl eq_refl)). apply IH. intros y Hy. apply H.
  now right.
Qed.

(** A list led by a run of [z], then the distinct values [G], then
    values already seen. *)
Lemma first_seen_led_by (z : string) (k : nat) (G R : list string) :
  NoDup G -> ~ In z G ->
  (forall x, In x R -> x = z \/ In x G) ->
  first_seen (repeat z (S k) ++ G ++ R) = z :: G.
Proof.
  intros HG Hz HR. cbn [repeat app first_seen]. f_equal.
  rewrite filter_first_seen, !filter_app.
  rewrite (filter_none _ (repeat z k)).
  - cbn [app]. rewrite first_seen_app.
    rewrite (forallb_filter_id _ G), (first_seen_fixed HG).
    + rewrite (filter_none _ (filter _ R)); [now rewrite app_nil_r|].
      intros x Hx. apply filter_In in Hx. destruct Hx as [Hx Hne].
      destruct (HR x Hx) as [->|Hin].
      * now rewrite String.eqb_refl in Hne.
      * apply existsb_eqb_In in Hin. now rewrite Hin.
    + apply forallb_forall. intros y Hy.
      destruct (String.eqb_spec z y) as [->|]; [contradiction|].
      reflexivity.
  - intros x Hx. apply repeat_spec in Hx. subst x.
    now rewrite String.eqb_refl.
Qed.

(** The distinct values [D], then values already seen or [z], which
    occurs. *)
Lemma first_seen_closed_by (z : string) (D R : list string) :
  NoDup D -> ~ In z D ->
  (forall x, In x R -> x = z \/ In x D) -> In z R ->
  first_seen (D ++ R) = D ++ [z].
Proof.
  intros HD Hz HR Hin. rewrite first_seen_app, (first_seen_fixed HD).
  f_equal.
  set (R' := filter (fun y => negb (existsb (String.eqb y) D)) R).
  assert (H1 : forall x, In x R' -> x = z).
  { intros x Hx. apply filter_In in Hx. destruct Hx as [Hx Hn].
    destruct (HR x Hx) as [->|Hd]; [reflexivity|].
    apply existsb_eqb_In in Hd. now rewrite Hd in Hn. }
  assert (H2 : In z R').
  { apply filter_In. split; [exact Hin|].
    destruct (existsb (String.eqb z) D) eqn:E; [|reflexivity].
    apply existsb_eqb_In in E. contradiction. }
  clearbody R'. destruct R' as [|x t]; [destruct H2|].
  rewrite (H1 x (or_introl eq_refl)). cbn [first_seen]. f_equal.
  rewrite filter_first_seen, filter_none; [reflexivity|].
  intros y Hy. rewrite (H1 y (or_intror Hy)).
  now rewrite String.eqb_refl.
Qed.

Lemma key_order_NoDup (ks : list string) : NoDup ks -> NoDup (key_order ks).
Proof.
  intros H. destruct (key_order_shape ks) as [indices (-> & Hp & _)].
  apply NoDup_app.
  - eapply Permutation_NoDup; [exact Hp|]. now apply NoDup_filter.
  - now apply NoDup_filter.
  - intros a Ha Hb.
    apply (Permutation_in _ (Permutation_sym Hp)) in Ha.
    apply filter_In in Ha, Hb. destruct Ha as [_ Ha], Hb as [_ Hb].
    rewrite Ha in Hb. discriminate.
Qed.

Section Lists.
Variable Number_toString : num -> string.

(** X16. A row is skipped exactly when its diet cell is falsy
    (undefined, null, false, 0, NaN, the empty string) or its text is
    made of white space only. *)
Theorem skipped_rows (actualColumns row : obj value) :
  let v := cell Number_toString actualColumns "dietGroup" row in
  (has_diet_label Number_toString actualColumns row = false
   <-> truthy v = false \/ all_space (toString Number_toString v) = true)
  /\ (has_diet_label Number_toString actualColumns row = false ->
      forall st, process_row Number_toString actualColumns st row = st).
Proof.
  intros v. split; [|intros H st; now apply process_row_skips].
  unfold has_diet_label. fold v. unfold cleanString. cbn [truthy].
  rewrite negb_false_iff, String.eqb_eq.
  destruct (truthy v); simpl.
  - rewrite toLowerCase_empty, trim_empty. intuition discriminate.
  - tauto.
Qed.

Lemma loadData_explicit (data : list (obj value)) :
  let cs := contributing Number_toString data in
  loadData Number_toString data
  = map (fun k => summary k "All" "All" (collect (members c_diet k cs)))
        (key_order (distinct c_diet cs))
    ++ map (fun k => summary "All" k "All" (collect (members c_gender k cs)))
           (key_order (distinct c_gender cs))
    ++ map (fun k => summary "All" "All" k (collect (members c_age k cs)))
           (key_order (distinct c_age cs))
    ++ emit_diet_gender (by_two_keys c_diet c_gender cs)
    ++ emit_diet_age (by_two_keys c_diet c_age cs).
Proof.
  intros cs. rewrite loadData_grouped. fold cs.
  unfold emit, grouped_state. cbn [dietGroupsMap genderGroupsMap
    ageGroupsMap dietGenderGroupsMap dietAgeGroupsMap].
  now rewrite emit_diet_by_key, emit_gender_by_key, emit_age_by_key.
Qed.

Lemma distinct_of_contributing (data : list (obj value))
    (key : CanonicalRecord -> string) (c : CanonicalRecord)
    (t : list CanonicalRecord) :
  (forall c, well_labelled c -> key c <> "All") ->
  contributing Number_toString data = c :: t ->
  let K := key_order (distinct key (c :: t)) in
  NoDup K /\ ~ In "All" K /\ exists k, List.length K = S k.
Proof.
  intros Hkey E K.
  assert (Hw : Forall well_labelled (c :: t)).
  { rewrite <- E. apply canonicals_well_labelled. }
  rewrite Forall_forall in Hw. split; [|split].
  - apply key_order_NoDup, first_seen_NoDup.
  - intros H. apply distinct_In in H. destruct H as [c' [Hc' Hk]].
    exact (Hkey c' (Hw c' Hc') Hk).
  - assert (H : In (key c) K) by (apply In_distinct; now left).
    destruct K as [|x K']; [destruct H|]. now eexists.
Qed.

(** X17. The three label lists of a loaded output. The diet-group list
    holds the distinct diet labels of the contributing rows in the order
    of their records and then "All"; the gender list and the age-group
    list start with "All", followed by their distinct labels in the order
    of their records. With no contributing row the three lists are
    empty. *)
Theorem label_lists_of_loaded_data (data : list (obj value)) :
  let cs := contributing Number_toString data in
  let out := loadData Number_toString data in
  dietGroups out
  = match cs with
    | [] => []
    | _ :: _ => key_order (distinct c_diet cs) ++ ["All"]
    end
  /\ genderGroups out
     = match cs with
       | [] => []
       | _ :: _ => "All" :: key_order (distinct c_gender cs)
       end
  /\ ageGroups out
     = match cs with
       | [] => []
       | _ :: _ => "All" :: key_order (distinct c_age cs)
       end.
Proof.
  intros cs out.
  pose proof (loadData_explicit data) as Hout. cbv zeta in Hout.
  pose proof (loadData_record_labels Number_toString data) as Hlab.
  cbv zeta in Hlab. fold cs in Hout, Hlab. fold out in Hout, Hlab.
  destruct cs as [|c t] eqn:Ecs.
  - rewrite Hout. repeat split; reflexivity.
  - rewrite <- Ecs in *.
    destruct (@distinct_of_contributing data c_diet c t)
      as (ND & AD & kD & LD);
      [intros c' [[_ H] _]; exact H | exact Ecs |].
    destruct (@distinct_of_contributing data c_gender c t)
      as (NG & AG & kG & LG);
      [intros c' (_ & [[_ H] _] & _); exact H | exact Ecs |].
    destruct (@distinct_of_contributing data c_age c t)
      as (NA & AA & kA & LA);
      [intros c' (_ & _ & [[_ H] _]); exact H | exact Ecs |].
    rewrite <- Ecs in ND, AD, LD, NG, AG, LG, NA, AA, LA.
    set (D := key_order (distinct c_diet cs)) in *.
    set (G := key_order (distinct c_gender cs)) in *.
    set (A := key_order (distinct c_age cs)) in *.
    set (S1 := map (fun k => summary k "All" "All"
                               (collect (members c_diet k cs))) D) in *.
    set (S2 := map (fun k => summary "All" k "All"
                               (collect (members c_gender k cs))) G) in *.
    set (S3 := map (fun k => summary "All" "All" k
                               (collect (members c_age k cs))) A) in *.
    set (S4 := emit_diet_gender (by_two_keys c_diet c_gender cs)) in *.
    set (S5 := emit_diet_age (by_two_keys c_diet c_age cs)) in *.
    assert (Hin : forall r, In r (S1 ++ S2 ++ S3 ++ S4 ++ S5) ->
              (dietGroup r = "All" \/ In (dietGroup r) D)
              /\ (gender r = "All" \/ In (gender r) G)
              /\ (ageGroup r = "All" \/ In (ageGroup r) A)).
    { intros r Hr. rewrite <- Hout in Hr.
      destruct (Hlab r Hr) as (H1 & H2 & H3).
      split; [|split].
      - destruct H1 as [H1|[c' [Hc' ->]]]; [now left|right].
        now apply In_distinct.
      - destruct H2 as [H2|[c' [Hc' ->]]]; [now left|right].
        now apply In_distinct.
      - destruct H3 as [H3|[c' [Hc' ->]]]; [now left|right].
        now apply In_distinct. }
    assert (E1 : map dietGroup S1 = D).
    { unfold S1. rewrite map_map. apply map_id. }
    assert (E1g : map gender S1 = repeat "All" (S kD)).
    { unfold S1. rewrite map_map. cbn [gender summary].
      now rewrite map_const, LD. }
    assert (E1a : map ageGroup S1 = repeat "All" (S kD)).
    { unfold S1. rewrite map_map. cbn [ageGroup summary].
      now rewrite map_const, LD. }
    assert (E2 : map gender S2 = G).
    { unfold S2. rewrite map_map. apply map_id. }
    assert (E2a : map ageGroup S2 = repeat "All" (S kG)).
    { unfold S2. rewrite map_map. cbn [ageGroup summary].
      now rewrite map_const, LG. }
    assert (E3 : map ageGroup S3 = A).
    { unfold S3. rewrite map_map. apply map_id. }
    unfold dietGroups, genderGroups, ageGroups. rewrite Hout.
    split; [|split].
    + rewrite map_app, E1. apply first_seen_closed_by; auto.
      * intros x Hx. apply in_map_iff in Hx. destruct Hx as [r [<- Hr]].
        apply Hin. apply in_or_app. now right.
      * apply in_map_iff.
        destruct G as [|g G'] eqn:EG; [discriminate|].
        exists (summary "All" g "All" (collect (members c_gender g cs))).
        split; [reflexivity|]. unfold S2. simpl. now left.
    + rewrite !map_app, E1g, E2. apply first_seen_led_by; auto.
      intros x Hx. rewrite <- !map_app in Hx.
      apply in_map_iff in Hx. destruct Hx as [r [<- Hr]].
      apply Hin. apply in_or_app. right. apply in_or_app. now right.
    + rewrite !map_app, E1a, E2a, E3.
      rewrite (app_assoc (repeat "All" (S kD))), <- repeat_app.
      cbn [Nat.add]. apply first_seen_led_by; auto.
      intros x Hx. rewrite <- !map_app in Hx.
      apply in_map_iff in Hx. destruct Hx as [r [<- Hr]].
      apply Hin. apply in_or_app. right. apply in_or_app. right.
      apply in_or_app. now right.
Qed.

End Lists.

(* ===================================================================== *)
(** ** The chart of the loaded data *)
(* ===================================================================== *)

Module ChartGrid.
Import Chart ChartFacts.

(** The filter of lines 64-72 keeps the records of the
    (DietGroup, AgeGroup) kind. *)
Lemma filteredData_kind (dietData : list DietData) :
  filteredData dietData = records_of_kind KDietAge dietData.
Proof.
  unfold filteredData, records_of_kind.
  destruct dietData as [|r l]; [reflexivity|].
  cbn [List.length Nat.eqb]. apply filter_ext. intros item.
  unfold has_kind, kind_of, is_All.
  destruct (String.eqb (dietGroup item) "All"),
    (String.eqb (gender item) "All"), (String.eqb (ageGroup item) "All");
    reflexivity.
Qed.

(** *** Index maps *)

Lemma get_after_entries {T} (es : list (string * T)) (acc : obj T)
    (k : string) :
  NoDup (map fst es) ->
  obj_get k (fold_left (fun o e => obj_set (fst e) (snd e) o) es acc)
  = match obj_get k es with
    | Some v => Some v
    | None => obj_get k acc
    end.
Proof.
  revert acc. induction es as [|[k0 v0] rest IH]; intros acc Hnd.
  - reflexivity.
  - simpl in Hnd. inversion Hnd as [|? ? Hnotin Hrest]; subst.
    cbn [fold_left obj_get fst snd]. rewrite (IH _ Hrest).
    destruct (String.eqb_spec k k0) as [->|Hne].
    + rewrite (obj_get_absent _ _ Hnotin).
      now rewrite obj_get_set, String.eqb_refl.
    + rewrite obj_get_set.
      now destruct (String.eqb_spec k k0).
Qed.

Lemma map_fst_positions (l : list string) (start : nat) :
  map fst (combine l (seq start (List.length l))) = l.
Proof.
  revert start. induction l as [|x l IH]; intros start; simpl;
    [reflexivity | now rewrite IH].
Qed.

Lemma index_map_get (l : list string) (k : string) :
  NoDup l ->
  obj_get k (index_map l) = obj_get k (combine l (seq 0 (List.length l))).
Proof.
  intros H. unfold index_map.
  rewrite get_after_entries by now rewrite map_fst_positions.
  now destruct (obj_get k (combine l (seq 0 (List.length l)))).
Qed.

Lemma positions_get (l : list string) (start : nat) :
  NoDup l ->
  map (fun k => obj_get k (combine l (seq start (List.length l)))) l
  = map Some (seq start (List.length l)).
Proof.
  revert start. induction l as [|x l IH]; intros start Hnd; [reflexivity|].
  inversion Hnd as [|? ? Hnotin Hrest]; subst.
  cbn [List.length seq combine map obj_get]. rewrite String.eqb_refl.
  f_equal. rewrite <- (IH (S start) Hrest). apply map_ext_in.
  intros k Hk. destruct (String.eqb_spec k x) as [->|]; [contradiction|].
  reflexivity.
Qed.

(** On a list without repetition the index map sends every element to
    its position. *)
Lemma index_map_positions (l : list string) :
  NoDup l ->
  map (fun k => obj_get k (index_map l)) l
  = map Some (seq 0 (List.length l)).
Proof.
  intros H. rewrite <- (@positions_get l 0%nat H). apply map_ext.
  intros k. now apply index_map_get.
Qed.

Lemma positions_nth (l : list string) (start : nat) (k : string) :
  In k l ->
  exists n, obj_get k (combine l (seq start (List.length l)))
            = Some (start + n)%nat
            /\ nth_error l n = Some k.
Proof.
  revert start. induction l as [|x l IH]; intros start H; [destruct H|].
  cbn [List.length seq combine obj_get].
  destruct (String.eqb_spec k x) as [->|Hne].
  - exists 0%nat. split; [now rewrite Nat.add_0_r | reflexivity].
  - destruct H as [H|H]; [congruence|].
    destruct (IH (S start) H) as [n [H1 H2]]. exists (S n).
    split; [now rewrite Nat.add_succ_r | exact H2].
Qed.

Lemma index_map_nth (l : list string) (k : string) :
  NoDup l -> In k l ->
  exists n, obj_get k (index_map l) = Some n /\ nth_error l n = Some k.
Proof.
  intros Hnd Hin. rewrite (index_map_get k Hnd).
  destruct (@positions_nth l 0%nat k Hin) as [n [H1 H2]]. now exists n.
Qed.

Lemma flat_map_pairs {A B C D} (f : A -> C) (g : B -> D)
    (l : list A) (l' : list B) :
  flat_map (fun x => map (fun y => (f x, g y)) l') l
  = list_prod (map f l) (map g l').
Proof.
  induction l as [|x l IH]; simpl; [reflexivity|].
  now rewrite IH, map_map.
Qed.

Lemma tooltip_indicator_found (i : indicator)
    (xIndex yIndex : option nat) (n r : num) :
  tooltip_indicator (mkPoint xIndex yIndex n (indicator_value i) r) = Some i.
Proof. destruct i; reflexivity. Qed.

Section Grid.

Variable Array_sort : (string -> string -> Z) -> list string -> list string.
Hypothesis Array_sort_permutes :
  forall cmp l, Permutation l (Array_sort cmp l).

Lemma uniqueDietGroups_NoDup (F : list DietData) :
  NoDup (uniqueDietGroups Array_sort F).
Proof.
  eapply Permutation_NoDup; [apply Array_sort_permutes|].
  apply first_seen_NoDup.
Qed.

Lemma uniqueAgeGroups_NoDup (F : list DietData) :
  NoDup (uniqueAgeGroups Array_sort F).
Proof.
  eapply Permutation_NoDup; [apply Array_sort_permutes|].
  apply first_seen_NoDup.
Qed.

Lemma uniqueDietGroups_In (F : list DietData) (d : string) :
  In d (uniqueDietGroups Array_sort F) <-> In d (map dietGroup F).
Proof.
  unfold uniqueDietGroups. split; intros H.
  - apply first_seen_In. eapply Permutation_in; [|exact H].
    symmetry. apply Array_sort_permutes.
  - eapply Permutation_in; [apply Array_sort_permutes|].
    now apply first_seen_In.
Qed.

Lemma uniqueAgeGroups_In (F : list DietData) (a : string) :
  In a (uniqueAgeGroups Array_sort F) <-> In a (map ageGroup F).
Proof.
  unfold uniqueAgeGroups. split; intros H.
  - apply first_seen_In. eapply Permutation_in; [|exact H].
    symmetry. apply Array_sort_permutes.
  - eapply Permutation_in; [apply Array_sort_permutes|].
    now apply first_seen_In.
Qed.

(** X18. Every series covers the same grid: its points are those of the
    pairs (diet group, age group) of the two axes, one per pair, row by
    row, and the indices of a point are the positions of its groups on
    the axes. So the six series are aligned for stacking, and no index
    is undefined or out of the range of its axis. *)
Theorem series_cover_the_grid (dietData : list DietData) :
  let p := processedData Array_sort dietData in
  Forall (fun s =>
      map (fun pt => (xIndex pt, yIndex pt)) (series_data s)
      = list_prod (map Some (seq 0 (List.length (dietGroups p))))
                  (map Some (seq 0 (List.length (ageGroups p)))))
    (seriesData p).
Proof.
  intros p. unfold p, processedData.
  destruct (List.length (filteredData dietData) =? 0)%nat;
    cbn [seriesData dietGroups ageGroups]; [constructor|].
  apply Forall_forall. intros s Hs.
  apply in_map_iff in Hs. destruct Hs as [i [<- _]].
  cbn [series_of series_data]. rewrite !length_map.
  set (F := filteredData dietData).
  rewrite <- (index_map_positions (uniqueDietGroups_NoDup F)).
  rewrite <- (index_map_positions (uniqueAgeGroups_NoDup F)).
  rewrite <- flat_map_pairs.
  rewrite flat_map_concat_map, concat_map, map_map.
  rewrite flat_map_concat_map. f_equal. apply map_ext. intros d.
  rewrite map_map. reflexivity.
Qed.

(** X19. The lookups of the tooltip never miss on an emitted point: the
    indicator of the point is found, it is the one of the series, and the
    two categories read back through the indices of the point are the
    display names of the groups the point was computed for. *)
Theorem tooltip_finds_its_groups (dietData : list DietData) :
  let p := processedData Array_sort dietData in
  Forall (fun s =>
      Forall (fun pt =>
          tooltip_indicator pt = Some (series_indicator s)
          /\ exists d a,
               pt = data_point Array_sort (filteredData dietData)
                      (series_indicator s) d a
               /\ tooltip_dietGroup p pt = display dietGroupDisplayNames d
               /\ tooltip_ageGroup p pt = display ageGroupDisplayNames a)
        (series_data s))
    (seriesData p).
Proof.
  intros p. unfold p, processedData.
  destruct (List.length (filteredData dietData) =? 0)%nat;
    cbn [seriesData]; [constructor|].
  set (F := filteredData dietData).
  apply Forall_forall. intros s Hs.
  apply in_map_iff in Hs. destruct Hs as [i [<- _]].
  cbn [series_of series_data series_indicator].
  apply Forall_forall. intros pt Hpt.
  apply in_flat_map in Hpt. destruct Hpt as [d [Hd Hpt]].
  apply in_map_iff in Hpt. destruct Hpt as [a [<- Ha]].
  split; [apply tooltip_indicator_found|].
  exists d, a. split; [reflexivity|].
  destruct (@index_map_nth _ d (uniqueDietGroups_NoDup F) Hd) as [x [Hx Hx']].
  destruct (@index_map_nth _ a (uniqueAgeGroups_NoDup F) Ha) as [y [Hy Hy']].
  unfold tooltip_dietGroup, tooltip_ageGroup, data_point.
  cbn [xIndex yIndex dietGroups ageGroups]. rewrite Hx, Hy.
  unfold at_index. rewrite !nth_error_map, Hx', Hy'. split; reflexivity.
Qed.

Variable Number_toString : num -> string.

(** The records the chart keeps of a loaded output, and their groups. *)
Lemma filtered_loadData (data : list (obj value)) :
  let cs := contributing Number_toString data in
  filteredData (loadData Number_toString data)
  = flat_map (fun d =>
        map (fun a => summary d "All" a
                        (collect (members c_age a (members c_diet d cs))))
            (key_order (distinct c_age (members c_diet d cs))))
      (key_order (distinct c_diet cs)).
Proof.
  intros cs. rewrite filteredData_kind.
  exact (records_by_kind Number_toString KDietAge data).
Qed.

Lemma filtered_loadData_at (data : list (obj value)) (d a : string)
    (item : DietData) :
  let cs := contributing Number_toString data in
  let rows := members c_age a (members c_diet d cs) in
  In item (filteredData (loadData Number_toString data)) ->
  at_groups d a item = true ->
  item = summary d "All" a (collect rows) /\ rows <> [].
Proof.
  intros cs rows Hin Hat. rewrite filtered_loadData in Hin. fold cs in Hin.
  apply in_flat_map in Hin. destruct Hin as [d' [Hd' Hin]].
  apply in_map_iff in Hin. destruct Hin as [a' [<- Ha']].
  apply at_groups_eq in Hat. cbn [dietGroup ageGroup summary] in Hat.
  destruct Hat as [-> ->]. split; [reflexivity|].
  apply distinct_In in Ha'. destruct Ha' as [c [Hc Hca]].
  intros E. assert (Hr : In c rows) by (apply members_In; auto).
  rewrite E in Hr. destruct Hr.
Qed.

Lemma filtered_loadData_has (data : list (obj value)) (d a : string) :
  let cs := contributing Number_toString data in
  let rows := members c_age a (members c_diet d cs) in
  rows <> [] ->
  In (summary d "All" a (collect rows))
     (filteredData (loadData Number_toString data)).
Proof.
  intros cs rows Hne. rewrite filtered_loadData. fold cs.
  destruct rows as [|c t] eqn:E; [congruence|].
  assert (Hc : In c rows) by (rewrite E; now left).
  apply members_In in Hc. destruct Hc as [Hc Hca].
  pose proof Hc as Hc'. apply members_In in Hc'. destruct Hc' as [Hcs Hcd].
  apply in_flat_map. exists d. split.
  - rewrite <- Hcd. now apply In_distinct.
  - apply in_map_iff. exists a. split; [now rewrite <- E|].
    rewrite <- Hca. now apply In_distinct.
Qed.

Lemma at_groups_summary (d a g : string) (b : samples) :
  at_groups d a (summary d g a b) = true.
Proof. unfold at_groups. simpl. now rewrite !String.eqb_refl. Qed.

(** Searching the kept records for a pair of groups, from either end. *)
Lemma find_filtered_loadData (data : list (obj value)) (d a : string)
    (l : list DietData) :
  let cs := contributing Number_toString data in
  let rows := members c_age a (members c_diet d cs) in
  (forall item, In item l <->
                In item (filteredData (loadData Number_toString data))) ->
  find (at_groups d a) l
  = match rows with
    | [] => None
    | _ => Some (summary d "All" a (collect rows))
    end.
Proof.
  intros cs rows Hl.
  destruct (find (at_groups d a) l) as [item|] eqn:E.
  - apply find_some in E. destruct E as [E1 E2]. apply Hl in E1.
    destruct (filtered_loadData_at data d a item E1 E2) as [-> Hne].
    fold cs rows in Hne |- *. now destruct rows.
  - destruct rows as [|c t] eqn:Er; [reflexivity|]. exfalso.
    assert (Hne : rows <> []) by (rewrite Er; discriminate).
    apply (filtered_loadData_has data d a) in Hne.
    apply Hl in Hne. eapply find_none in E; [|exact Hne].
    now rewrite at_groups_summary in E.
Qed.

(** X20. From the rows to the bar. For loaded data the point of a diet
    group and an age group carries, as its raw value, the mean of the
    indicator over the contributing rows of these two standard labels,
    and as its normalised value that mean divided by the maximum of the
    indicator, times the weight, with NaN and 0 giving 0; a pair of
    groups without rows is a hole of the grid whose point carries 0 and
    0. *)
Theorem loaded_bar_values (data : list (obj value)) (i : indicator)
    (d a : string) :
  let cs := contributing Number_toString data in
  let rows := members c_age a (members c_diet d cs) in
  let F := filteredData (loadData Number_toString data) in
  let pt := data_point Array_sort F i d a in
  rawValue pt
  = match rows with
    | [] => Fin 0
    | _ => mean_over i rows
    end
  /\ normalizedValue pt
     = match rows with
       | [] => Fin 0
       | _ => or_zero (num_mul (num_div (mean_over i rows) (maxValues F i))
                               (Fin (weight i)))
       end.
Proof.
  intros cs rows F pt. split.
  - unfold pt, data_point. cbn [rawValue]. unfold F.
    rewrite (find_filtered_loadData data d a) by (intros; reflexivity).
    fold cs rows. destruct rows; [reflexivity|].
    apply field_summary_collect.
  - unfold pt. rewrite (@normalized_of_point Array_sort Array_sort_permutes).
    unfold last_at, F.
    rewrite (find_filtered_loadData data d a)
      by (intros item; symmetry; apply in_rev).
    fold cs rows F. destruct rows; [reflexivity|].
    unfold normalize. now rewrite field_summary_collect.
Qed.

(** A display table whose values are non-empty strings. *)
Definition names_ok (tbl : obj value) : Prop :=
  Forall (fun e => exists s, snd e = VStr s /\ s <> "") tbl.

Lemma display_own (tbl : obj value) (x : string) :
  names_ok tbl -> is_inherited x = false ->
  exists s, display tbl x = VStr s
            /\ (obj_get x tbl = Some (VStr s)
                \/ (obj_get x tbl = None /\ s = x)).
Proof.
  intros Ht Hx. unfold display, js_get, is_inherited in *.
  destruct (obj_get x tbl) as [v|] eqn:E.
  - apply obj_get_In in E. unfold names_ok in Ht.
    rewrite Forall_forall in Ht. destruct (Ht _ E) as [s [Hs Hne]].
    simpl in Hs. subst v. exists s. simpl.
    destruct (String.eqb_spec s ""); [contradiction|]. auto.
  - destruct (inherited x); [discriminate|]. exists x. simpl. auto.
Qed.

Lemma dietGroupDisplayNames_ok : names_ok dietGroupDisplayNames.
Proof.
  unfold names_ok, dietGroupDisplayNames.
  repeat (constructor; [eexists; split; [reflexivity | discriminate]|]).
  constructor.
Qed.

Lemma ageGroupDisplayNames_ok : names_ok ageGroupDisplayNames.
Proof.
  unfold names_ok, ageGroupDisplayNames.
  repeat (constructor; [eexists; split; [reflexivity | discriminate]|]).
  constructor.
Qed.

Lemma filtered_loadData_labels (data : list (obj value)) (item : DietData) :
  In item (filteredData (loadData Number_toString data)) ->
  is_inherited (dietGroup item) = false
  /\ is_inherited (ageGroup item) = false.
Proof.
  intros H. rewrite filtered_loadData in H.
  set (cs := contributing Number_toString data) in *.
  assert (Hcs : forall c, In c cs -> well_labelled c).
  { apply Forall_forall. apply canonicals_well_labelled. }
  apply in_flat_map in H. destruct H as [d [Hd H]].
  apply in_map_iff in H. destruct H as [a [<- Ha]].
  apply distinct_In in Hd. destruct Hd as [c [Hc <-]].
  apply distinct_In in Ha. destruct Ha as [c' [Hc' <-]].
  apply members_In in Hc'. destruct Hc' as [Hc' _].
  destruct (Hcs c Hc) as [[H1 _] _].
  destruct (Hcs c' Hc') as (_ & _ & [[H2 _] _]).
  cbn [dietGroup ageGroup summary]. now split.
Qed.

(** X21. For loaded data every category of the two axes is a string: the
    display name of the label when the table has one, the label itself
    otherwise. No label of the loader names a member of Object.prototype,
    which the lookup of the display name would otherwise return. *)
Theorem loaded_categories_are_strings (data : list (obj value)) :
  let F := filteredData (loadData Number_toString data) in
  let p := processedData Array_sort (loadData Number_toString data) in
  let named (tbl : obj value) (x : string) :=
    match obj_get x tbl with Some v => v | None => VStr x end in
  dietGroups p
  = map (named dietGroupDisplayNames) (uniqueDietGroups Array_sort F)
  /\ ageGroups p
     = map (named ageGroupDisplayNames) (uniqueAgeGroups Array_sort F)
  /\ Forall (fun v => exists s, v = VStr s) (dietGroups p)
  /\ Forall (fun v => exists s, v = VStr s) (ageGroups p).
Proof.
  intros F p named.
  assert (Hd : forall d, In d (uniqueDietGroups Array_sort F) ->
             exists s, display dietGroupDisplayNames d = VStr s
                       /\ named dietGroupDisplayNames d = VStr s).
  { intros d Hd. apply uniqueDietGroups_In, in_map_iff in Hd.
    destruct Hd as [item [<- Hitem]].
    destruct (filtered_loadData_labels data item Hitem) as [Hi _].
    destruct (@display_own dietGroupDisplayNames _ dietGroupDisplayNames_ok Hi)
      as [s [Hs Hcase]]; exists s; split; [exact Hs|].
    unfold named. destruct Hcase as [E|[E Es]]; rewrite E;
      [reflexivity | now rewrite Es]. }
  assert (Ha : forall a, In a (uniqueAgeGroups Array_sort F) ->
             exists s, display ageGroupDisplayNames a = VStr s
                       /\ named ageGroupDisplayNames a = VStr s).
  { intros a Ha. apply uniqueAgeGroups_In, in_map_iff in Ha.
    destruct Ha as [item [<- Hitem]].
    destruct (filtered_loadData_labels data item Hitem) as [_ Hi].
    destruct (@display_own ageGroupDisplayNames _ ageGroupDisplayNames_ok Hi)
      as [s [Hs Hcase]]; exists s; split; [exact Hs|].
    unfold named. destruct Hcase as [E|[E Es]]; rewrite E;
      [reflexivity | now rewrite Es]. }
  unfold p, processedData. fold F.
  destruct (List.length F =? 0)%nat eqn:E0.
  - apply Nat.eqb_eq, length_zero_iff_nil in E0.
    cbn [dietGroups ageGroups].
    assert (Ed : uniqueDietGroups Array_sort F = []).
    { apply Permutation_nil. unfold uniqueDietGroups.
      rewrite <- Array_sort_permutes. now rewrite E0. }
    assert (Ea : uniqueAgeGroups Array_sort F = []).
    { apply Permutation_nil. unfold uniqueAgeGroups.
      rewrite <- Array_sort_permutes. now rewrite E0. }
    rewrite Ed, Ea. repeat split; constructor.
  - cbn [dietGroups ageGroups].
    split; [apply map_ext_in; intros d Hd';
            destruct (Hd d Hd') as [s [-> ->]]; reflexivity|].
    split; [apply map_ext_in; intros a Ha';
            destruct (Ha a Ha') as [s [-> ->]]; reflexivity|].
    split; apply Forall_forall; intros v Hv; apply in_map_iff in Hv;
      destruct Hv as [x [<- Hx]].
    + destruct (Hd x Hx) as [s [-> _]]. now exists s.
    + destruct (Ha x Hx) as [s [-> _]]. now exists s.
Qed.

End Grid.

(** *** The order of the axes *)

Lemma indexOf_In (a : string) (order : list string) :
  In a order -> (0 <= indexOf a order)%Z.
Proof.
  induction order as [|x t IH]; [intros []|]. intros H. simpl.
  destruct (String.eqb_spec a x) as [->|Hne]; [reflexivity|].
  destruct H as [H|H]; [congruence|]. specialize (IH H).
  destruct (Z.eqb_spec (indexOf a t) (-1)); lia.
Qed.

Lemma indexOf_tail (a x : string) (t : list string) :
  In a t -> a <> x -> indexOf a (x :: t) = (indexOf a t + 1)%Z.
Proof.
  intros H Hne. simpl.
  destruct (String.eqb_spec a x); [contradiction|].
  pose proof (indexOf_In a t H).
  destruct (Z.eqb_spec (indexOf a t) (-1)); [lia | reflexivity].
Qed.

Lemma StronglySorted_in_impl {A} (R R' : A -> A -> Prop) (l : list A) :
  (forall a b, In a l -> In b l -> R a b -> R' a b) ->
  StronglySorted R l -> StronglySorted R' l.
Proof.
  intros H S. induction S as [|a l S IH F]; constructor.
  - apply IH. intros x y Hx Hy. apply H; now right.
  - rewrite Forall_forall in *. intros y Hy.
    apply H; [now left | now right | now apply F].
Qed.

Lemma StronglySorted_filter {A} (R : A -> A -> Prop) (f : A -> bool)
    (l : list A) :
  StronglySorted R l -> StronglySorted R (filter f l).
Proof.
  intros S. induction S as [|a l S IH F]; simpl; [constructor|].
  destruct (f a); [|exact IH]. constructor; [exact IH|].
  rewrite Forall_forall in *. intros y Hy. apply filter_In in Hy.
  now apply F.
Qed.

(** A list without repetition is strictly ascending in its own
    positions. *)
Lemma indexOf_ascending (order : list string) :
  NoDup order ->
  StronglySorted (fun a b => (indexOf a order < indexOf b order)%Z) order.
Proof.
  induction order as [|x t IH]; intros Hnd; [constructor|].
  inversion Hnd as [|? ? Hnotin Hrest]; subst. constructor.
  - apply (@StronglySorted_in_impl _
             (fun a b => (indexOf a t < indexOf b t)%Z) _ t);
      [|now apply IH].
    intros a b Ha Hb Hlt.
    rewrite !indexOf_tail; auto; try lia; intros ->; contradiction.
  - apply Forall_forall. intros y Hy.
    rewrite (@indexOf_tail y x t Hy) by (intros ->; contradiction).
    pose proof (indexOf_In y t Hy). simpl. rewrite String.eqb_refl. lia.
Qed.

Lemma ascending_unique (f : string -> Z) (l1 l2 : list string) :
  StronglySorted (fun a b => (f a < f b)%Z) l1 ->
  StronglySorted (fun a b => (f a < f b)%Z) l2 ->
  (forall x, In x l1 <-> In x l2) -> l1 = l2.
Proof.
  intros S1. revert l2. induction S1 as [|a t1 S1 IH F1]; intros l2 S2 H.
  - destruct l2 as [|b t2]; [reflexivity|].
    destruct (proj2 (H b) (or_introl eq_refl)).
  - destruct S2 as [|b t2 S2 F2].
    + destruct (proj1 (H a) (or_introl eq_refl)).
    + rewrite Forall_forall in F1, F2.
      assert (E : a = b).
      { destruct (proj1 (H a) (or_introl eq_refl)) as [E|Ha]; [auto|].
        destruct (proj2 (H b) (or_introl eq_refl)) as [E|Hb]; [auto|].
        specialize (F1 _ Hb). specialize (F2 _ Ha). lia. }
      subst b. f_equal. apply IH; [exact S2|]. intros x. split; intros Hx.
      * destruct (proj1 (H x) (or_intror Hx)) as [E|Hx']; [|exact Hx'].
        subst x. specialize (F1 _ Hx). lia.
      * destruct (proj2 (H x) (or_intror Hx)) as [E|Hx']; [|exact Hx'].
        subst x. specialize (F2 _ Hx). lia.
Qed.

Lemma indexOf_injective (a b : string) (order : list string) :
  In a order -> indexOf a order = indexOf b order -> a = b.
Proof.
  induction order as [|x t IH]; [intros []|]. intros Ha E. simpl in E.
  destruct (String.eqb_spec a x) as [->|Hax],
    (String.eqb_spec b x) as [->|Hbx]; try reflexivity.
  - destruct (Z.eqb_spec (indexOf b t) (-1)); [lia|].
    destruct t as [|y t]; [simpl in *; congruence|].
    assert (indexOf b (y :: t) <> -1 -> 0 <= indexOf b (y :: t))%Z.
    { clear. generalize (y :: t). intros l. induction l as [|z l IHl];
        simpl; [congruence|].
      destruct (String.eqb b z); [lia|].
      destruct (Z.eqb_spec (indexOf b l) (-1)); [congruence | lia]. }
    lia.
  - destruct Ha as [Ha|Ha]; [congruence|].
    pose proof (indexOf_In a t Ha).
    destruct (Z.eqb_spec (indexOf a t) (-1)); lia.
  - destruct Ha as [Ha|Ha]; [congruence|].
    pose proof (indexOf_In a t Ha).
    destruct (Z.eqb_spec (indexOf a t) (-1)); [lia|].
    destruct (Z.eqb_spec (indexOf b t) (-1)); [lia|].
    apply IH; [exact Ha | lia].
Qed.

(** The insertion sort sorts when the comparator is the difference of a
    rank. *)
Lemma insert_sorted_ranked (cmp : string -> string -> Z)
    (rank : string -> Z) (x : string) (l : list string) :
  (forall y, In y l -> cmp x y = (rank x - rank y)%Z) ->
  StronglySorted (fun a b => (rank a <= rank b)%Z) l ->
  StronglySorted (fun a b => (rank a <= rank b)%Z) (insert_sorted cmp x l).
Proof.
  intros Hc S. induction S as [|y t S IH F]; simpl.
  - repeat constructor.
  - rewrite Forall_forall in F.
    rewrite (Hc y (or_introl eq_refl)).
    destruct (Z.leb_spec (rank x - rank y) 0).
    + constructor; [now constructor; [|apply Forall_forall]|].
      constructor; [lia|]. apply Forall_forall. intros z Hz.
      specialize (F z Hz). lia.
    + constructor.
      * apply IH. intros z Hz. apply Hc. now right.
      * apply Forall_forall. intros z Hz.
        apply (Permutation_in _ (Permutation_sym
                 (insert_sorted_permutes cmp x t))) in Hz.
        destruct Hz as [<-|Hz]; [lia | now apply F].
Qed.

Lemma insertion_sort_sorts (cmp : string -> string -> Z)
    (l : list string) (rank : string -> Z) :
  (forall a b, In a l -> In b l -> cmp a b = (rank a - rank b)%Z) ->
  StronglySorted (fun a b => (cmp a b <= 0)%Z) (insertion_sort cmp l).
Proof.
  intros Hc.
  assert (S : StronglySorted (fun a b => (rank a <= rank b)%Z)
                (insertion_sort cmp l)).
  { induction l as [|x l IH]; [constructor|]. simpl.
    apply insert_sorted_ranked.
    - intros y Hy. apply Hc; [now left|]. right.
      eapply Permutation_in; [|exact Hy].
      symmetry. apply insertion_sort_permutes.
    - apply IH. intros a b Ha Hb. apply Hc; now right. }
  revert S. apply StronglySorted_in_impl. intros a b Ha Hb Hr.
  rewrite Hc; [lia| |];
    (eapply Permutation_in; [|eassumption]);
    symmetry; apply insertion_sort_permutes.
Qed.

Section Ordered.

Variable Array_sort : (string -> string -> Z) -> list string -> list string.
Hypothesis Array_sort_permutes :
  forall cmp l, Permutation l (Array_sort cmp l).

(** What the language promises of [sort] for a consistent comparator,
    here one that is the difference of a rank: no element of the result
    compares greater than a later one. *)
Hypothesis Array_sort_sorts :
  forall cmp l (rank : string -> Z),
    (forall a b, In a l -> In b l -> cmp a b = (rank a - rank b)%Z) ->
    StronglySorted (fun a b => (cmp a b <= 0)%Z) (Array_sort cmp l).

Lemma sorted_by_order (order labels : list string) :
  NoDup order ->
  (forall x, In x labels -> In x order) ->
  Array_sort (by_order order) (first_seen labels)
  = filter (fun o => existsb (String.eqb o) labels) order.
Proof.
  intros Hnd Hsub.
  set (L := Array_sort (by_order order) (first_seen labels)).
  assert (HL : forall x, In x L <-> In x labels).
  { intros x. unfold L. rewrite <- (first_seen_In x labels). split.
    - apply Permutation_in. symmetry. apply Array_sort_permutes.
    - apply Permutation_in, Array_sort_permutes. }
  assert (Hcmp : forall a b, In a labels -> In b labels ->
             by_order order a b = (indexOf a order - indexOf b order)%Z).
  { intros a b Ha Hb. unfold by_order.
    pose proof (indexOf_In a order (Hsub a Ha)).
    pose proof (indexOf_In b order (Hsub b Hb)).
    destruct (Z.eqb_spec (indexOf a order) (-1)); [lia|].
    destruct (Z.eqb_spec (indexOf b order) (-1)); [lia|]. reflexivity. }
  apply (ascending_unique (fun a => indexOf a order)).
  - assert (S : StronglySorted (fun a b => (by_order order a b <= 0)%Z) L).
    { apply (Array_sort_sorts _ _ (fun a => indexOf a order)).
      intros a b Ha Hb. apply Hcmp; now apply first_seen_In. }
    assert (N : NoDup L).
    { eapply Permutation_NoDup; [apply Array_sort_permutes|].
      apply first_seen_NoDup. }
    assert (I : forall x, In x L -> In x labels) by (intros x; apply HL).
    clear HL. induction S as [|a t S IH F]; [constructor|].
    inversion N as [|? ? Hnotin Ht]; subst. constructor.
    + apply IH; [exact Ht|]. intros x Hx. apply I. now right.
    + rewrite Forall_forall in *. intros b Hb. specialize (F b Hb).
      assert (Ha' : In a labels) by (apply I; now left).
      assert (Hb' : In b labels) by (apply I; now right).
      rewrite (Hcmp a b Ha' Hb') in F.
      assert (indexOf a order <> indexOf b order).
      { intros E. apply (indexOf_injective a b order (Hsub a Ha')) in E.
        subst b. contradiction. }
      lia.
  - apply StronglySorted_filter, indexOf_ascending, Hnd.
  - intros x. rewrite HL, filter_In, existsb_eqb_In. split.
    + intros H. split; [now apply Hsub | exact H].
    + tauto.
Qed.

(** X22. The axes follow the two custom orders. When every diet group
    of the subset is one of [dietOrder], the diet axis lists the groups
    that occur in the order vegan, vegetarian, fish, low_meat,
    medium_meat, high_meat, whatever the order of the records; likewise
    the age axis follows [ageOrder] when every age group is one of
    it. *)
Theorem axes_follow_the_orders (F : list DietData) :
  (Forall (fun item => In (dietGroup item) dietOrder) F ->
   uniqueDietGroups Array_sort F
   = filter (fun o => existsb (String.eqb o) (map dietGroup F)) dietOrder)
  /\ (Forall (fun item => In (ageGroup item) ageOrder) F ->
      uniqueAgeGroups Array_sort F
      = filter (fun o => existsb (String.eqb o) (map ageGroup F)) ageOrder).
Proof.
  split; intros H; rewrite Forall_forall in H.
  - apply sorted_by_order.
    + unfold dietOrder.
      repeat (constructor; [simpl; intuition discriminate|]). constructor.
    + intros x Hx. apply in_map_iff in Hx. destruct Hx as [item [<- Hi]].
      now apply H.
  - apply sorted_by_order.
    + unfold ageOrder.
      repeat (constructor; [simpl; intuition discriminate|]). constructor.
    + intros x Hx. apply in_map_iff in Hx. destruct Hx as [item [<- Hi]].
      now apply H.
Qed.

End Ordered.

(** *** On concrete rows *)

(** Rows in which the fish eaters and the older bracket come first. *)
Definition rows_fish_first : list (obj value) :=
  [ survey_row "fish" "male" "30-39" (VNum (Fin 3));
    survey_row "vegan" "female" "30-39" (VNum (Fin 4));
    survey_row "vegan" "female" "20-29" (VNum (Fin 2)) ].

Lemma axes_follow_the_orders_witness :
  Forall (fun item => In (dietGroup item) dietOrder)
         (filteredData (loadData render_number rows_fish_first))
  /\ map dietGroup (filteredData (loadData render_number rows_fish_first))
     = ["fish"; "vegan"; "vegan"]
  /\ uniqueDietGroups insertion_sort
       (filteredData (loadData render_number rows_fish_first))
     = ["vegan"; "fish"].
Proof.
  assert (H : Forall (fun item => In (dietGroup item) dietOrder)
                (filteredData (loadData render_number rows_fish_first))).
  { vm_compute. repeat (constructor; [tauto|]). constructor. }
  split; [exact H|]. split; [reflexivity|].
  rewrite (proj1 (@axes_follow_the_orders insertion_sort
                    insertion_sort_permutes insertion_sort_sorts
                    (filteredData (loadData render_number rows_fish_first)))
             H).
  reflexivity.
Defined.

Lemma series_cover_the_grid_witness :
  Forall (fun s =>
      map (fun pt => (xIndex pt, yIndex pt)) (series_data s)
      = [ (Some 0%nat, Some 0%nat); (Some 0%nat, Some 1%nat);
          (Some 1%nat, Some 0%nat); (Some 1%nat, Some 1%nat) ])
    (seriesData (processedData insertion_sort
                   (loadData render_number rows_2_4_3))).
Proof.
  exact (@series_cover_the_grid insertion_sort insertion_sort_permutes
           (loadData render_number rows_2_4_3)).
Defined.

Lemma tooltip_finds_its_groups_witness :
  Forall (fun s =>
      Forall (fun pt =>
          tooltip_indicator pt = Some (series_indicator s)
          /\ exists d a,
               pt = data_point insertion_sort
                      (filteredData (loadData render_number rows_2_4_3))
                      (series_indicator s) d a
               /\ tooltip_dietGroup
                    (processedData insertion_sort
                       (loadData render_number rows_2_4_3)) pt
                  = display dietGroupDisplayNames d
               /\ tooltip_ageGroup
                    (processedData insertion_sort
                       (loadData render_number rows_2_4_3)) pt
                  = display ageGroupDisplayNames a)
        (series_data s))
    (seriesData (processedData insertion_sort
                   (loadData render_number rows_2_4_3))).
Proof.
  exact (@tooltip_finds_its_groups insertion_sort insertion_sort_permutes
           (loadData render_number rows_2_4_3)).
Defined.

Lemma loaded_bar_values_witness :
  rawValue (data_point insertion_sort
              (filteredData (loadData render_number rows_2_4_3))
              Ghgs "vegan" "30-39")
  = Fin 4
  /\ rawValue (data_point insertion_sort
                 (filteredData (loadData render_number rows_2_4_3))
                 Ghgs "fish" "30-39")
     = Fin 0.
Proof.
  split.
  - rewrite (proj1 (@loaded_bar_values insertion_sort
                      insertion_sort_permutes render_number rows_2_4_3
                      Ghgs "vegan" "30-39")).
    reflexivity.
  - rewrite (proj1 (@loaded_bar_values insertion_sort
                      insertion_sort_permutes render_number rows_2_4_3
                      Ghgs "fish" "30-39")).
    reflexivity.
Defined.

Lemma loaded_categories_are_strings_witness :
  dietGroups (processedData insertion_sort
                (loadData render_number rows_2_4_3))
  = [VStr "Vegan"; VStr "Fish-eater"].
Proof.
  rewrite (proj1 (@loaded_categories_are_strings insertion_sort
                    insertion_sort_permutes render_number rows_2_4_3)).
  reflexivity.
Defined.

End ChartGrid.

(* ===================================================================== *)
(** ** Loading, and what the component then shows *)
(* ===================================================================== *)

Module Loading.
Import Chart ChartFacts ChartGrid Composable.

Lemma status_text_not_empty (status : N) : status_text status <> "".
Proof.
  unfold status_text, NilZero.string_of_uint.
  destruct (N.to_uint status); simpl; discriminate.
Qed.

Section View.

Variable Number_toString : num -> string.
Variable Papa_parse : string -> list (obj value).
Variable Array_sort : (string -> string -> Z) -> list string -> list string.

(** The chart the template draws from the data of the state. *)
Definition chart_of (dietData : list DietData) : view :=
  ShowChart (chartOptions (processedData Array_sort dietData)).

(** X23. A load that fails leaves the data of the state as they were and
    stores the message of the error: "loading" ends, and the component
    shows the message instead of the chart. When the message is empty,
    or the value thrown is not an Error, the stored message is the empty
    string, and the component shows the chart of the earlier data as if
    nothing had failed. A response that is not ok fails with its status
    as the message, which is never empty. *)
Theorem failed_load_keeps_the_data (r : fetched) (st : refs) (err : thrown) :
  try_block Papa_parse r = inl err ->
  let st' := loadData_call Number_toString Papa_parse r st in
  loading st' = false
  /\ error st' = Some (catch_message err)
  /\ rawData st' = rawData st
  /\ dietData st' = dietData st
  /\ template Array_sort st'
     = (if String.eqb (catch_message err) "" then chart_of (dietData st)
        else ShowError (catch_message err))
  /\ (forall status text,
        r = Response false status text ->
        template Array_sort st' = ShowError (status_text status)).
Proof.
  intros H st'.
  assert (E : st' = mkRefs false (Some (catch_message err)) (rawData st)
                      (dietData st)).
  { unfold st', loadData_call, loadData_settle. now rewrite H. }
  rewrite E. cbn [loading error rawData dietData].
  assert (T : template Array_sort
                (mkRefs false (Some (catch_message err)) (rawData st)
                   (dietData st))
              = (if String.eqb (catch_message err) ""
                 then chart_of (dietData st)
                 else ShowError (catch_message err))).
  { unfold template. cbn [loading error dietData truthy].
    now destruct (String.eqb (catch_message err) ""). }
  repeat split; [exact T|].
  intros status text ->. rewrite T. simpl in H.
  injection H as <-. cbn [catch_message].
  destruct (String.eqb_spec (status_text status) "") as [E'|];
    [|reflexivity].
  now apply status_text_not_empty in E'.
Qed.

Hypothesis Array_sort_permutes :
  forall cmp l, Permutation l (Array_sort cmp l).

Lemma filtered_loadData_empty (data : list (obj value)) :
  filteredData (loadData Number_toString data) = []
  <-> filter (has_diet_label Number_toString (reconcile data)) data = [].
Proof.
  split.
  - intros H.
    destruct (filter _ data) as [|row l] eqn:E; [reflexivity|]. exfalso.
    assert (Hrow : In row (filter (has_diet_label Number_toString
                                     (reconcile data)) data))
      by (rewrite E; now left).
    apply filter_In in Hrow. destruct Hrow as [Hin Hl].
    destruct (canonical_Some _ _ _ Hl) as [c Hc].
    assert (Hcs : In c (contributing Number_toString data)).
    { unfold contributing. apply canonicals_In. now exists row. }
    pose proof (loadData_contains Number_toString data c Hcs)
      as (_ & _ & _ & _ & Hd).
    rewrite <- filteredData_kind, H in Hd. destruct Hd.
  - intros H. apply loadData_empty in H. now rewrite H.
Qed.

Lemma sorted_length (cmp : string -> string -> Z) (l : list string) :
  List.length (Array_sort cmp l) = List.length l.
Proof. symmetry. apply Permutation_length, Array_sort_permutes. Qed.

(** X24. A load that succeeds replaces the data, whatever the state
    was: the rows are those parsed, the records those computed from
    them, no error is left, and the component shows the chart. With no
    row that has a diet label the chart is the title alone; otherwise it
    has the second title, the six indicator labels as its legend and as
    the names of its six series, and at least one category on each
    axis. *)
Theorem view_after_successful_load (st : refs) (status : N)
    (csvData : string) :
  let data := Papa_parse csvData in
  let st' := loadData_call Number_toString Papa_parse
               (Response true status (Text csvData)) st in
  let p := processedData Array_sort (loadData Number_toString data) in
  st' = mkRefs false None data (loadData Number_toString data)
  /\ template Array_sort st' = ShowChart (chartOptions p)
  /\ match filter (has_diet_label Number_toString (reconcile data)) data with
     | [] =>
         chartOptions p
         = TitleOnly "Environmental Impact by Diet and Age Group"
     | _ :: _ =>
         chartOptions p
         = FullChart "Stacked Environmental Impact by Diet Type and Age Group"
             [ "Greenhouse Gas Emissions"; "Land Use"; "Water Scarcity";
               "Eutrophication"; "Acidification"; "Biodiversity Impact" ]
             (dietGroups p) (ageGroups p) (seriesData p)
         /\ series_names (seriesData p)
            = [ "Greenhouse Gas Emissions"; "Land Use"; "Water Scarcity";
                "Eutrophication"; "Acidification"; "Biodiversity Impact" ]
         /\ dietGroups p <> [] /\ ageGroups p <> []
     end.
Proof.
  intros data st' p. split; [reflexivity|]. split; [reflexivity|].
  pose proof (filtered_loadData_empty data) as He.
  set (F := filteredData (loadData Number_toString data)) in *.
  destruct (filter _ data) as [|row l] eqn:E.
  - assert (HF : F = []) by now apply He.
    unfold p, processedData. fold F. now rewrite HF.
  - assert (HF : F <> []).
    { intros HF. apply He in HF. discriminate. }
    assert (Hlen : (List.length F =? 0)%nat = false).
    { apply Nat.eqb_neq. intros H0. now apply length_zero_iff_nil in H0. }
    assert (Hd : dietGroups p <> []).
    { unfold p, processedData. fold F. rewrite Hlen. cbn [dietGroups].
      intros H0. apply (f_equal (@List.length _)) in H0.
      rewrite length_map in H0. unfold uniqueDietGroups in H0.
      rewrite sorted_length in H0. apply length_zero_iff_nil in H0.
      destruct F as [|item F']; [congruence | discriminate]. }
    assert (Ha : ageGroups p <> []).
    { unfold p, processedData. fold F. rewrite Hlen. cbn [ageGroups].
      intros H0. apply (f_equal (@List.length _)) in H0.
      rewrite length_map in H0. unfold uniqueAgeGroups in H0.
      rewrite sorted_length in H0. apply length_zero_iff_nil in H0.
      destruct F as [|item F']; [congruence | discriminate]. }
    split; [|split; [|now split]].
    + unfold chartOptions.
      destruct (dietGroups p) as [|x t]; [congruence | reflexivity].
    + unfold p, processedData. fold F. rewrite Hlen. reflexivity.
Qed.

End View.

(** A parser that yields three rows for any text. *)
Definition parse_three_rows (csvData : string) : list (obj value) :=
  rows_2_4_3.

Lemma failed_load_keeps_the_data_witness :
  try_block parse_three_rows (Response false 404 (Text "Not Found"))
  = inl (ThrownError "404")
  /\ template insertion_sort
       (loadData_call render_number parse_three_rows
          (Response false 404 (Text "Not Found")) initial_refs)
     = ShowError "404".
Proof.
  split; [reflexivity|].
  destruct (@failed_load_keeps_the_data render_number parse_three_rows
              insertion_sort (Response false 404 (Text "Not Found"))
              initial_refs (ThrownError "404") eq_refl)
    as (_ & _ & _ & _ & H & _).
  exact H.
Defined.

Lemma view_after_successful_load_witness :
  error (loadData_call render_number parse_three_rows
           (Response true 200 (Text "diet_group,sex")) initial_refs)
  = None
  /\ List.length
       (dietData (loadData_call render_number parse_three_rows
                    (Response true 200 (Text "diet_group,sex"))
                    initial_refs))
     = 11%nat.
Proof.
  destruct (@view_after_successful_load render_number parse_three_rows
              insertion_sort insertion_sort_permutes initial_refs 200
              "diet_group,sex") as [H _].
  rewrite H. split; reflexivity.
Defined.

End Loading.
